(** * cli-jarvis: the bug-commit attribution engine of package [agent]

    A shallow embedding of [AnalyzeSingleCommit], [AnalyzeBugInCommits] and
    [splitJSONPairs] together with the parts of the Go standard library
    they call ([strings], [fmt.Sscanf] with the verb [%d]).

    - Go strings are byte sequences: they are modelled as [list ascii].
    - Go's [int] is taken to be 64 bits wide and modelled in [Z].
    - A run-time panic (a slice expression out of range) is an explicit
      outcome of the [exec] monad.
    - The oracle ([claudecode.QueryWithRequest]) is an input: the reply it
      gives to the request of a commit.
    - [AnalyzeBugInCommits] is modelled twice: as a function of the
      sequence of cases that fire in its [select] loop, and, with its
      goroutines and its channel, as a transition system whose steps
      interleave freely.

    The definitions come first, the proofs after them. *)

From Stdlib Require Import List ZArith Lia Bool Ascii String Permutation.
Import ListNotations.

Open Scope Z_scope.

(** Go [string]: a sequence of bytes. *)
Abbreviation gostring := (list ascii).

(** A Go string literal. *)
Abbreviation str := list_ascii_of_string.

(* ===================================================================== *)
(** ** Execution outcomes: a value, or a run-time panic *)
(* ===================================================================== *)

Inductive exec (A : Type) : Type :=
| Done (a : A)
| Panic.

Arguments Done {A} a.
Arguments Panic {A}.

Definition bind {A B : Type} (m : exec A) (k : A -> exec B) : exec B :=
  match m with
  | Done a => k a
  | Panic => Panic
  end.

Notation "x <- m ;; k" := (bind m (fun x => k))
  (at level 61, m at next level, right associativity).

(* ===================================================================== *)
(** ** Package [strings] and slice expressions *)
(* ===================================================================== *)

Module Strings.

(** [len(s)] *)
Definition len (s : gostring) : Z := Z.of_nat (List.length s).

(** [a == b] on strings *)
Fixpoint eqs (a b : gostring) : bool :=
  match a, b with
  | [], [] => true
  | x :: a', y :: b' => Ascii.eqb x y && eqs a' b'
  | _, _ => false
  end.

(** [s[lo:hi]]: panics unless [0 <= lo <= hi <= len(s)]. *)
Definition slice (s : gostring) (lo hi : Z) : exec gostring :=
  if (0 <=? lo) && (lo <=? hi) && (hi <=? len s)
  then Done (firstn (Z.to_nat (hi - lo)) (skipn (Z.to_nat lo) s))
  else Panic.

(** [s[lo:]] *)
Definition sliceFrom (s : gostring) (lo : Z) : exec gostring :=
  slice s lo (len s).

(** [s[:hi]] *)
Definition sliceTo (s : gostring) (hi : Z) : exec gostring :=
  slice s 0 hi.

(** [strings.HasPrefix] *)
Fixpoint HasPrefix (s prefix : gostring) : bool :=
  match prefix, s with
  | [], _ => true
  | p :: prefix', c :: s' => Ascii.eqb c p && HasPrefix s' prefix'
  | _ :: _, [] => false
  end.

(** [strings.HasSuffix]:
    [len(s) >= len(suffix) && s[len(s)-len(suffix):] == suffix] *)
Definition HasSuffix (s suffix : gostring) : bool :=
  (len suffix <=? len s)
  && eqs (skipn (List.length s - List.length suffix) s) suffix.

(** [strings.Index]: the byte offset of the first occurrence of [substr],
    or -1. *)
Fixpoint indexFrom (s substr : gostring) (i : Z) : Z :=
  if HasPrefix s substr then i
  else match s with
       | [] => -1
       | _ :: s' => indexFrom s' substr (i + 1)
       end.

Definition Index (s substr : gostring) : Z := indexFrom s substr 0.

(** [strings.LastIndex]: the byte offset of the last occurrence, or -1. *)
Fixpoint LastIndex (s substr : gostring) : Z :=
  match s with
  | [] => if HasPrefix [] substr then 0 else -1
  | _ :: s' =>
      let r := LastIndex s' substr in
      if 0 <=? r then r + 1
      else if HasPrefix s substr then 0 else -1
  end.

(** [strings.Contains]: [Index(s, substr) >= 0] *)
Definition Contains (s substr : gostring) : bool := 0 <=? Index s substr.

(** White space as [unicode.IsSpace] sees it: '\t', '\n', '\v', '\f',
    '\r', ' ', U+0085, U+00A0, U+1680, U+2000 to U+200A, U+2028, U+2029,
    U+202F, U+205F and U+3000.  The code points above U+007F are
    recognised through their UTF-8 encodings; every other byte sequence
    decodes to a rune that is not white space (an ill-formed one to
    U+FFFD). *)
Definition byteIs (c : ascii) (n : N) : bool := N.eqb (N_of_ascii c) n.

Definition isASCIISpace (c : ascii) : bool :=
  let n := N_of_ascii c in
  ((9 <=? n) && (n <=? 13))%N || N.eqb n 32.

(** U+0085 (C2 85) and U+00A0 (C2 A0) *)
Definition isSpace2 (c1 c2 : ascii) : bool :=
  byteIs c1 194 && (byteIs c2 133 || byteIs c2 160).

(** U+1680 (E1 9A 80), U+2000..U+200A (E2 80 80 .. E2 80 8A),
    U+2028, U+2029 (E2 80 A8, E2 80 A9), U+202F (E2 80 AF),
    U+205F (E2 81 9F), U+3000 (E3 80 80) *)
Definition isSpace3 (c1 c2 c3 : ascii) : bool :=
  let n3 := N_of_ascii c3 in
  (byteIs c1 225 && byteIs c2 154 && byteIs c3 128)
  || (byteIs c1 226 && byteIs c2 128
      && (((128 <=? n3) && (n3 <=? 138))%N
          || byteIs c3 168 || byteIs c3 169 || byteIs c3 175))
  || (byteIs c1 226 && byteIs c2 129 && byteIs c3 159)
  || (byteIs c1 227 && byteIs c2 128 && byteIs c3 128).

(** [strings.TrimLeftFunc(s, unicode.IsSpace)] *)
Fixpoint TrimLeftSpace (s : gostring) : gostring :=
  match s with
  | [] => []
  | c1 :: r1 =>
      if isASCIISpace c1 then TrimLeftSpace r1
      else match r1 with
           | [] => s
           | c2 :: r2 =>
               if isSpace2 c1 c2 then TrimLeftSpace r2
               else match r2 with
                    | [] => s
                    | c3 :: r3 =>
                        if isSpace3 c1 c2 c3 then TrimLeftSpace r3 else s
                    end
           end
  end.

(** The same scan from the end, on the reversed string: the bytes of a
    trailing rune come last byte first. *)
Fixpoint trimRightSpaceRev (r : gostring) : gostring :=
  match r with
  | [] => []
  | c1 :: r1 =>
      if isASCIISpace c1 then trimRightSpaceRev r1
      else match r1 with
           | [] => r
           | c2 :: r2 =>
               if isSpace2 c2 c1 then trimRightSpaceRev r2
               else match r2 with
                    | [] => r
                    | c3 :: r3 =>
                        if isSpace3 c3 c2 c1 then trimRightSpaceRev r3
                        else r
                    end
           end
  end.

(** [strings.TrimRightFunc(s, unicode.IsSpace)] *)
Definition TrimRightSpace (s : gostring) : gostring :=
  rev (trimRightSpaceRev (rev s)).

(** [strings.TrimSpace] *)
Definition TrimSpace (s : gostring) : gostring :=
  TrimRightSpace (TrimLeftSpace s).

(** Membership of a byte in an ASCII cutset. *)
Definition inCutset (cutset : gostring) (c : ascii) : bool :=
  existsb (Ascii.eqb c) cutset.

Fixpoint TrimLeft (s cutset : gostring) : gostring :=
  match s with
  | [] => []
  | c :: s' => if inCutset cutset c then TrimLeft s' cutset else s
  end.

Definition TrimRight (s cutset : gostring) : gostring :=
  rev (TrimLeft (rev s) cutset).

(** [strings.Trim] with an ASCII cutset: leading and trailing bytes of
    the cutset are removed. *)
Definition Trim (s cutset : gostring) : gostring :=
  TrimRight (TrimLeft s cutset) cutset.

(** [strings.TrimSuffix] *)
Definition TrimSuffix (s suffix : gostring) : gostring :=
  if HasSuffix s suffix
  then firstn (List.length s - List.length suffix) s
  else s.

(** [strings.Split(s, sep)] for a one-byte separator. *)
Fixpoint splitByte (s : gostring) (sep : ascii) (current : gostring)
  : list gostring :=
  match s with
  | [] => [rev current]
  | c :: s' =>
      if Ascii.eqb c sep
      then rev current :: splitByte s' sep []
      else splitByte s' sep (c :: current)
  end.

Definition Split (s : gostring) (sep : ascii) : list gostring :=
  splitByte s sep [].

(** [strings.SplitN(s, sep, 2)] for a one-byte separator: at most two
    parts, cut at the first separator. *)
Fixpoint cutFirst (s : gostring) (sep : ascii) (before : gostring)
  : list gostring :=
  match s with
  | [] => [rev before]
  | c :: s' =>
      if Ascii.eqb c sep
      then [rev before; s']
      else cutFirst s' sep (c :: before)
  end.

Definition SplitN2 (s : gostring) (sep : ascii) : list gostring :=
  cutFirst s sep [].

End Strings.

(* ===================================================================== *)
(** ** Package [fmt]: [Sscanf(value, "%d", &n)] *)
(* ===================================================================== *)

Module Fmt.

(** [ss.SkipSpace] in the mode of [Sscanf] (newlines are not space):
    white space is consumed, a carriage return before a newline is passed
    over, and a newline is the error "unexpected newline" ([None]). *)
Fixpoint SkipSpace (s : gostring) : option gostring :=
  match s with
  | [] => Some []
  | c1 :: r1 =>
      if Strings.byteIs c1 10 then None
      else if Strings.isASCIISpace c1 then SkipSpace r1
      else match r1 with
           | [] => Some s
           | c2 :: r2 =>
               if Strings.isSpace2 c1 c2 then SkipSpace r2
               else match r2 with
                    | [] => Some s
                    | c3 :: r3 =>
                        if Strings.isSpace3 c1 c2 c3 then SkipSpace r3
                        else Some s
                    end
           end
  end.

Definition isDigit (c : ascii) : bool :=
  let n := N_of_ascii c in ((48 <=? n) && (n <=? 57))%N.

Definition digitValue (c : ascii) : Z := Z.of_N (N_of_ascii c) - 48.

(** [ss.scanNumber]: the longest run of decimal digits. *)
Fixpoint scanNumber (s : gostring) : gostring :=
  match s with
  | c :: s' => if isDigit c then c :: scanNumber s' else []
  | [] => []
  end.

(** The value of a run of decimal digits ([strconv.ParseInt], base 10). *)
Definition decimalValue (digits : gostring) : Z :=
  fold_left (fun acc c => 10 * acc + digitValue c) digits 0.

Definition minInt : Z := - 2 ^ 63.
Definition maxInt : Z := 2 ^ 63 - 1.

(** [ss.accept("+-")]: an optional sign. *)
Definition acceptSign (s : gostring) : bool * gostring :=
  match s with
  | c :: s' =>
      if Strings.byteIs c 45 then (true, s')
      else if Strings.byteIs c 43 then (false, s')
      else (false, s)
  | [] => (false, [])
  end.

(** [fmt.Sscanf(value, "%d", &n)]: [Some n] when an integer was scanned
    and stored, [None] when the scan failed (unexpected newline, end of
    input, "expected integer", or a value out of the range of [int]) and
    the operand was left untouched.  Text after the digits is not read. *)
Definition SscanfInt (value : gostring) : option Z :=
  match SkipSpace value with
  | None => None
  | Some rest =>
      let '(negative, rest) := acceptSign rest in
      match scanNumber rest with
      | [] => None
      | tok =>
          let n := if negative then - decimalValue tok else decimalValue tok in
          if (minInt <=? n) && (n <=? maxInt) then Some n else None
      end
  end.

End Fmt.

(* ===================================================================== *)
(** ** Package [agent] *)
(* ===================================================================== *)

Module Agent.

Import Strings.

Record CommitAnalysis : Type := {
  CommitHash : gostring;
  CommitMsg : gostring;
  Author : gostring;
  Date : gostring;
  Explanation : gostring;
  IsLikely : bool;
  Confidence : Z  (* 0-100 *)
}.

(** The errors the two functions return. *)
Inductive error : Type :=
| InvalidCommitFormat            (* "invalid commit format" *)
| AnalysisError (cause : gostring) (* "analysis error: %w" *)
| NoJSONResponse                 (* "Claude did not return expected JSON response" *)
| NoCommitsAnalyzed              (* "no commits could be analyzed" *)
| ContextError (cause : gostring). (* ctx.Err() *)

Record CommitAnalysisResult : Type := {
  Commit : gostring;
  Analysis : option CommitAnalysis;
  Error : option error
}.

(** What [claudecode.QueryWithRequest] handed back: content blocks, of
    which only text blocks are read. *)
Inductive ContentBlock : Type :=
| TextBlock (Text : gostring)
| OtherBlock.

(** [message.Content()] *)
Abbreviation Message := (list ContentBlock).

Inductive QueryResult : Type :=
| QueryOk (messages : list Message)
| QueryErr (err : gostring).

(** *** [splitJSONPairs] *)

Record splitState : Type := {
  pairs : list gostring;
  current : gostring;
  inQuotes : bool;
  depth : Z
}.

Definition isByte (c : ascii) (lit : string) : bool :=
  match lit with
  | String l EmptyString => Ascii.eqb c l
  | _ => false
  end.

Definition backslash : ascii := ascii_of_nat 92.
Definition quote : ascii := ascii_of_nat 34.

(** One iteration of the loop; [prev] is [jsonContent[i-1]], absent when
    [i == 0]. *)
Definition splitStep (prev : option ascii) (char : ascii) (st : splitState)
  : splitState :=
  if Ascii.eqb char quote then
    let escaped := match prev with
                   | None => false
                   | Some p => Ascii.eqb p backslash
                   end in
    {| pairs := pairs st;
       current := current st ++ [char];
       inQuotes := if negb escaped then negb (inQuotes st) else inQuotes st;
       depth := depth st |}
  else if isByte char "{" || isByte char "[" then
    {| pairs := pairs st;
       current := current st ++ [char];
       inQuotes := inQuotes st;
       depth := if negb (inQuotes st) then depth st + 1 else depth st |}
  else if isByte char "}" || isByte char "]" then
    {| pairs := pairs st;
       current := current st ++ [char];
       inQuotes := inQuotes st;
       depth := if negb (inQuotes st) then depth st - 1 else depth st |}
  else if isByte char "," then
    if negb (inQuotes st) && (depth st =? 0) then
      {| pairs := pairs st ++ [TrimSpace (current st)];
         current := [];
         inQuotes := inQuotes st;
         depth := depth st |}
    else
      {| pairs := pairs st;
         current := current st ++ [char];
         inQuotes := inQuotes st;
         depth := depth st |}
  else
    {| pairs := pairs st;
       current := current st ++ [char];
       inQuotes := inQuotes st;
       depth := depth st |}.

Fixpoint splitLoop (prev : option ascii) (rest : gostring) (st : splitState)
  : splitState :=
  match rest with
  | [] => st
  | char :: rest' => splitLoop (Some char) rest' (splitStep prev char st)
  end.

Definition splitJSONPairs (jsonContent : gostring) : list gostring :=
  let st := splitLoop None jsonContent
              {| pairs := []; current := []; inQuotes := false; depth := 0 |} in
  if (0 <? len (current st))
  then pairs st ++ [TrimSpace (current st)]
  else pairs st.

(** *** [AnalyzeSingleCommit]: locating the JSON payload *)

Definition fenceOpen : gostring := str "```json".
Definition fenceClose : gostring := str "```".

(** The first [if] of the loop body, "Handle markdown code blocks":
    [Some j] when it assigns [j] to [jsonResponse] and leaves the loop. *)
Definition fencedJSON (text : gostring) : exec (option gostring) :=
  if Contains text fenceOpen then
    let start := Index text fenceOpen in
    tail <- sliceFrom text (start + 7) ;;
    let end_ := Index tail fenceClose in
    if (0 <=? start) && (0 <? end_) then
      body <- slice text (start + 7) (start + 7 + end_) ;;
      Done (Some (TrimSpace body))
    else Done None
  else Done None.

(** The last part of the loop body, "Try to extract JSON from anywhere
    in text". *)
Definition spannedJSON (text : gostring) : exec (option gostring) :=
  let startIdx := Index text (str "{") in
  let endIdx := LastIndex text (str "}") in
  if (0 <=? startIdx) && (startIdx <? endIdx) then
    span <- slice text startIdx (endIdx + 1) ;;
    let potentialJSON := TrimSpace span in
    if HasPrefix potentialJSON (str "{") && HasSuffix potentialJSON (str "}")
    then Done (Some potentialJSON)
    else Done None
  else Done None.

(** The body of the inner loop for one text block, [text] already
    trimmed.  [Some j]: [jsonResponse] was set to [j] and the loop over
    the blocks was left by [break]; [None]: no strategy applied and the
    loop goes on to the next block. *)
Definition locateJSON (text : gostring) : exec (option gostring) :=
  fenced <- fencedJSON text ;;
  match fenced with
  | Some jsonResponse => Done (Some jsonResponse)
  | None =>
      if HasPrefix text (str "{") && HasSuffix text (str "}") then
        Done (Some text)
      else spannedJSON text
  end.

(** The loop over the blocks of one message; the result is the value of
    [jsonResponse] when the loop ends (it is empty when the loop starts). *)
Fixpoint scanBlocks (blocks : list ContentBlock) : exec gostring :=
  match blocks with
  | [] => Done []
  | TextBlock Text :: blocks' =>
      found <- locateJSON (TrimSpace Text) ;;
      match found with
      | Some jsonResponse => Done jsonResponse
      | None => scanBlocks blocks'
      end
  | OtherBlock :: blocks' => scanBlocks blocks'
  end.

(** The loop over the messages: it stops at the first message that left
    [jsonResponse] non-empty. *)
Fixpoint extractJSON (messages : list Message) : exec gostring :=
  match messages with
  | [] => Done []
  | message :: messages' =>
      jsonResponse <- scanBlocks message ;;
      if negb (eqs jsonResponse []) then Done jsonResponse
      else extractJSON messages'
  end.

(** *** [AnalyzeSingleCommit]: reading the payload *)

(** [&CommitAnalysis{}] *)
Definition zeroAnalysis : CommitAnalysis :=
  {| CommitHash := []; CommitMsg := []; Author := []; Date := [];
     Explanation := []; IsLikely := false; Confidence := 0 |}.

(** The [switch key] statement. *)
Definition setField (analysis : CommitAnalysis) (key value : gostring)
  : CommitAnalysis :=
  if eqs key (str "commit_hash") then
    {| CommitHash := value; CommitMsg := CommitMsg analysis;
       Author := Author analysis; Date := Date analysis;
       Explanation := Explanation analysis; IsLikely := IsLikely analysis;
       Confidence := Confidence analysis |}
  else if eqs key (str "commit_message") then
    {| CommitHash := CommitHash analysis; CommitMsg := value;
       Author := Author analysis; Date := Date analysis;
       Explanation := Explanation analysis; IsLikely := IsLikely analysis;
       Confidence := Confidence analysis |}
  else if eqs key (str "author") then
    {| CommitHash := CommitHash analysis; CommitMsg := CommitMsg analysis;
       Author := value; Date := Date analysis;
       Explanation := Explanation analysis; IsLikely := IsLikely analysis;
       Confidence := Confidence analysis |}
  else if eqs key (str "date") then
    {| CommitHash := CommitHash analysis; CommitMsg := CommitMsg analysis;
       Author := Author analysis; Date := value;
       Explanation := Explanation analysis; IsLikely := IsLikely analysis;
       Confidence := Confidence analysis |}
  else if eqs key (str "explanation") then
    {| CommitHash := CommitHash analysis; CommitMsg := CommitMsg analysis;
       Author := Author analysis; Date := Date analysis;
       Explanation := value; IsLikely := IsLikely analysis;
       Confidence := Confidence analysis |}
  else if eqs key (str "is_likely") then
    {| CommitHash := CommitHash analysis; CommitMsg := CommitMsg analysis;
       Author := Author analysis; Date := Date analysis;
       Explanation := Explanation analysis;
       IsLikely := eqs value (str "true");
       Confidence := Confidence analysis |}
  else if eqs key (str "confidence") then
    {| CommitHash := CommitHash analysis; CommitMsg := CommitMsg analysis;
       Author := Author analysis; Date := Date analysis;
       Explanation := Explanation analysis; IsLikely := IsLikely analysis;
       Confidence := match Fmt.SscanfInt value with
                     | Some n => n
                     | None => Confidence analysis
                     end |}
  else analysis.

(** The key and the value the loop body reads off one pair; [None] when
    the pair has no colon ([len(parts) != 2], [continue]). *)
Definition keyValue (pair : gostring) : option (gostring * gostring) :=
  match SplitN2 pair ":" with
  | [k; v] =>
      let key := Trim (TrimSpace k) [quote] in
      let value := TrimSpace v in
      let value := TrimSuffix value (str ",") in
      let value := Trim value [quote] in
      Some (key, value)
  | _ => None
  end.

(** The body of the loop over the pairs. *)
Definition parsePair (analysis : CommitAnalysis) (pair : gostring)
  : CommitAnalysis :=
  match keyValue pair with
  | Some (key, value) => setField analysis key value
  | None => analysis
  end.

Definition parseAnalysis (jsonResponse : gostring) : CommitAnalysis :=
  let jsonResponse := TrimSpace jsonResponse in
  let jsonResponse := Trim jsonResponse (str "{}") in
  fold_left parsePair (splitJSONPairs jsonResponse) zeroAnalysis.

(** *** [AnalyzeSingleCommit]

    [reply] is what [claudecode.QueryWithRequest] returned for the request
    built from this commit.  The result is the pair the Go function
    returns; the run panics when the hash is shorter than the eight bytes
    the log line slices off it. *)
Definition AnalyzeSingleCommit (commit : gostring) (reply : QueryResult)
  : exec (option CommitAnalysis * option error) :=
  let parts := Split commit "|" in
  if (Z.of_nat (List.length parts) <? 4) then
    Done (None, Some InvalidCommitFormat)
  else
    let commitHash := nth 0 parts [] in
    _ <- sliceTo commitHash 8 ;;
    match reply with
    | QueryErr err => Done (None, Some (AnalysisError err))
    | QueryOk messages =>
        jsonResponse <- extractJSON messages ;;
        if eqs jsonResponse [] then Done (None, Some NoJSONResponse)
        else Done (Some (parseAnalysis jsonResponse), None)
    end.

(** *** [AnalyzeBugInCommits]: selection *)

(** The body of the first loop over [analyses]. *)
Definition likelyStep (bestMatch : option CommitAnalysis)
  (analysis : CommitAnalysis) : option CommitAnalysis :=
  if IsLikely analysis then
    match bestMatch with
    | None => Some analysis
    | Some best =>
        if Confidence analysis >? Confidence best then Some analysis
        else bestMatch
    end
  else bestMatch.

(** The body of the second loop, run when the first left [bestMatch] nil. *)
Definition anyStep (bestMatch : option CommitAnalysis)
  (analysis : CommitAnalysis) : option CommitAnalysis :=
  match bestMatch with
  | None => Some analysis
  | Some best =>
      if Confidence analysis >? Confidence best then Some analysis
      else bestMatch
  end.

Definition selectBest (analyses : list CommitAnalysis)
  : option CommitAnalysis :=
  match fold_left likelyStep analyses None with
  | Some best => Some best
  | None => fold_left anyStep analyses None
  end.

(** Everything after the drain loop. *)
Definition conclude (analyses : list CommitAnalysis)
  : option CommitAnalysis * option error :=
  if (Z.of_nat (List.length analyses) =? 0) then (None, Some NoCommitsAnalyzed)
  else (selectBest analyses, None).

(** *** [AnalyzeBugInCommits]: the drain loop

    Each iteration of the loop blocks in [select] until one of its two
    cases fires; [events] lists the cases that fire, in order. *)
Inductive selectCase : Type :=
| Received (result : CommitAnalysisResult)  (* case result := <-resultChan *)
| CtxDone (err : gostring).                 (* case <-ctx.Done() *)

(** The receive case: the new value of [analyses]. *)
Definition collect (analyses : list CommitAnalysis)
  (result : CommitAnalysisResult) : list CommitAnalysis :=
  match Error result with
  | Some _ => analyses
  | None =>
      match Analysis result with
      | Some analysis => analyses ++ [analysis]
      | None => analyses
      end
  end.

(** How the loop ends, with the verdicts gathered until then. *)
Inductive drained : Type :=
| Collected (analyses : list CommitAnalysis)  (* the loop ran to its end *)
| Cancelled (err : gostring) (analyses : list CommitAnalysis)
                                              (* return nil, ctx.Err() *)
| Blocked (analyses : list CommitAnalysis).   (* select never fires again *)

Fixpoint drain (totalCommits completed : nat) (events : list selectCase)
  (analyses : list CommitAnalysis) : drained :=
  if (completed <? totalCommits)%nat then
    match events with
    | [] => Blocked analyses
    | Received result :: events' =>
        drain totalCommits (S completed) events' (collect analyses result)
    | CtxDone err :: _ => Cancelled err analyses
    end
  else Collected analyses.

(** [AnalyzeBugInCommits] as seen from its caller, for [totalCommits]
    dispatched commits and the given sequence of [select] outcomes;
    [None] when the call never returns. *)
Definition AnalyzeBugInCommits (totalCommits : nat) (events : list selectCase)
  : option (option CommitAnalysis * option error) :=
  match drain totalCommits 0 events [] with
  | Collected analyses => Some (conclude analyses)
  | Cancelled err _ => Some (None, Some (ContextError err))
  | Blocked _ => None
  end.

End Agent.

(* ===================================================================== *)
(** ** The fan-out of [AnalyzeBugInCommits] as a transition system

    One goroutine per commit runs [AnalyzeSingleCommit] and sends its
    result on [resultChan], a channel buffered for [len(commits)] values;
    the calling goroutine drains the channel in its [select] loop.  The
    steps of the goroutines interleave in any order.  An unrecovered panic
    in a goroutine ends the whole process.

    The step of a goroutine stands for the return of its oracle call
    followed by its send.  Nothing obliges a goroutine to take its step:
    a goroutine whose call has not returned, or never returns, is one
    that stays in [pending].  The relation says which states can be
    reached, not that a step will be taken. *)
(* ===================================================================== *)

Module FanOut.

Import Agent.

Inductive coordinator : Type :=
| Draining                                             (* in the select loop *)
| Returned (r : option CommitAnalysis * option error)  (* the call returned *)
| Crashed.                                             (* the process died *)

Record world : Type := {
  pending : list nat;                      (* goroutines that have not sent *)
  resultChan : list CommitAnalysisResult;  (* the channel's buffer, oldest first *)
  completed : nat;
  analyses : list CommitAnalysis;
  observed : list CommitAnalysisResult;    (* what the loop received so far *)
  coord : coordinator
}.

Section Run.

Variable commits : list gostring.

(** The oracle's reply to the request of the [i]-th commit. *)
Variable reply : nat -> QueryResult.

Definition totalCommits : nat := List.length commits.

(** All goroutines launched, nothing sent yet. *)
Definition initial : world :=
  {| pending := seq 0 totalCommits; resultChan := []; completed := 0%nat;
     analyses := []; observed := []; coord := Draining |}.

(** The body of the [i]-th goroutine up to its send. *)
Definition task (i : nat) : exec CommitAnalysisResult :=
  let c := nth i commits [] in
  r <- AnalyzeSingleCommit c (reply i) ;;
  Done {| Commit := c; Analysis := fst r; Error := snd r |}.

Inductive step : world -> world -> Prop :=
| task_send (w : world) (i : nat) (result : CommitAnalysisResult) :
    coord w <> Crashed ->
    In i (pending w) ->
    task i = Done result ->
    (List.length (resultChan w) < totalCommits)%nat ->
    step w {| pending := remove Nat.eq_dec i (pending w);
              resultChan := resultChan w ++ [result];
              completed := completed w; analyses := analyses w;
              observed := observed w; coord := coord w |}
| task_panic (w : world) (i : nat) :
    coord w <> Crashed ->
    In i (pending w) ->
    task i = Panic ->
    step w {| pending := pending w; resultChan := resultChan w;
              completed := completed w; analyses := analyses w;
              observed := observed w; coord := Crashed |}
| select_receive (w : world) (result : CommitAnalysisResult)
    (buffered : list CommitAnalysisResult) :
    coord w = Draining ->
    (completed w < totalCommits)%nat ->
    resultChan w = result :: buffered ->
    step w {| pending := pending w; resultChan := buffered;
              completed := S (completed w);
              analyses := collect (analyses w) result;
              observed := observed w ++ [result]; coord := Draining |}
| select_done (w : world) (err : gostring) :
    coord w = Draining ->
    (completed w < totalCommits)%nat ->
    step w {| pending := pending w; resultChan := resultChan w;
              completed := completed w; analyses := analyses w;
              observed := observed w;
              coord := Returned (None, Some (ContextError err)) |}
| loop_exit (w : world) :
    coord w = Draining ->
    ~ (completed w < totalCommits)%nat ->
    step w {| pending := pending w; resultChan := resultChan w;
              completed := completed w; analyses := analyses w;
              observed := observed w;
              coord := Returned (conclude (analyses w)) |}.

Inductive reachable : world -> Prop :=
| reach_initial : reachable initial
| reach_step (w w' : world) : reachable w -> step w w' -> reachable w'.

(** The call was left through the [ctx.Done()] case. *)
Definition cancelled (w : world) : Prop :=
  exists err, coord w = Returned (None, Some (ContextError err)).

(** Every goroutine is accounted for exactly once: [senders], the ones
    that have sent, in the order of their sends, have produced what was
    received followed by what is buffered, and together with the pending
    ones they are the goroutines [0 .. len(commits) - 1]. *)
Definition accounted (w : world) : Prop :=
  exists senders,
    Permutation (senders ++ pending w) (seq 0 totalCommits)
    /\ Forall2 (fun i result => task i = Done result)
         senders (observed w ++ resultChan w).

(** The variables of the loop agree with what it received, and the call
    returns either through the [ctx.Done()] case or, with the loop run to
    its end, what [conclude] makes of the collected verdicts. *)
Definition consistent (w : world) : Prop :=
  accounted w
  /\ completed w = List.length (observed w)
  /\ analyses w = fold_left collect (observed w) []
  /\ match coord w with
     | Returned r =>
         cancelled w
         \/ (completed w = totalCommits /\ r = conclude (analyses w))
     | _ => True
     end.

(** A bound on the number of steps still possible. *)
Definition stepsLeft (w : world) : nat :=
  2 * List.length (pending w) + List.length (resultChan w)
  + match coord w with
    | Draining => 2
    | Returned _ => 1
    | Crashed => 0
    end.

End Run.

End FanOut.

(* ===================================================================== *)
(** ** The properties, in the words of the specification *)
(* ===================================================================== *)

Module Spec.

Import Strings Agent.

(** [pat] occurs in [s] at byte offset [i]. *)
Definition occursAt (s pat : gostring) (i : nat) : Prop :=
  exists pre post, s = pre ++ pat ++ post /\ List.length pre = i.

Definition firstAt (s pat : gostring) (i : nat) : Prop :=
  occursAt s pat i /\ forall j, (j < i)%nat -> ~ occursAt s pat j.

Definition lastAt (s pat : gostring) (i : nat) : Prop :=
  occursAt s pat i /\ forall j, (i < j)%nat -> ~ occursAt s pat j.

Definition occurs (s pat : gostring) : Prop := exists i, occursAt s pat i.

(** A byte below 0x80 that is not white space: it neither is nor ends nor
    begins the encoding of a white-space rune. *)
Definition plainByte (c : ascii) : Prop :=
  (N_of_ascii c < 128)%N /\ isASCIISpace c = false.

(** Strategy 1: [body] is what stands between the first opening fence and
    the next closing fence, the latter not directly at the former. *)
Definition fencedBlock (text body : gostring) : Prop :=
  exists i e,
    firstAt text fenceOpen i
    /\ firstAt (skipn (i + 7) text) fenceClose e
    /\ (0 < e)%nat
    /\ body = firstn e (skipn (i + 7) text).

(** Strategy 2, for an object and for an array. *)
Definition braced (text : gostring) : Prop :=
  exists inner, text = str "{" ++ inner ++ str "}".

Definition bracketed (text : gostring) : Prop :=
  exists inner, text = str "[" ++ inner ++ str "]".

(** Strategy 3: from the first opening brace to the last closing one. *)
Definition braceSpan (text span : gostring) : Prop :=
  exists i j,
    firstAt text (str "{") i
    /\ lastAt text (str "}") j
    /\ (i < j)%nat
    /\ span = firstn (S j - i) (skipn i text).

(** The three strategies in priority order; [whole] says which trimmed
    texts the second strategy takes as they are. *)
Inductive locatedWith (whole : gostring -> Prop) (text : gostring)
  : option gostring -> Prop :=
| ByFence (body : gostring) :
    fencedBlock text body ->
    locatedWith whole text (Some (TrimSpace body))
| ByBrackets :
    ~ (exists body, fencedBlock text body) ->
    whole text ->
    locatedWith whole text (Some text)
| BySpan (span : gostring) :
    ~ (exists body, fencedBlock text body) ->
    ~ whole text ->
    braceSpan text span ->
    locatedWith whole text (Some span)
| NotLocated :
    ~ (exists body, fencedBlock text body) ->
    ~ whole text ->
    ~ (exists span, braceSpan text span) ->
    locatedWith whole text None.

(** The reading of the three strategies with arrays taken whole as well. *)
Definition bracedOrBracketed (text : gostring) : Prop :=
  braced text \/ bracketed text.

(** A text block that carries no brace and no opening fence. *)
Definition noPayloadMarks (Text : gostring) : Prop :=
  ~ In "{"%char Text /\ ~ In "}"%char Text /\ ~ occurs Text fenceOpen.

(** A commit record with its four fields and a hash long enough for the
    log line, so that the task gets as far as the oracle. *)
Definition wellFormedCommit (commit : gostring) : Prop :=
  (4 <= List.length (Split commit "|"))%nat
  /\ (8 <= List.length (nth 0 (Split commit "|") []))%nat.

(** White space that [Sscanf] passes over before a number: white-space
    runes other than the newline. *)
Inductive blanks : gostring -> Prop :=
| blanks_nil : blanks []
| blanks_ascii (c : ascii) (ws : gostring) :
    isASCIISpace c = true -> byteIs c 10 = false ->
    blanks ws -> blanks (c :: ws)
| blanks_two (c1 c2 : ascii) (ws : gostring) :
    isSpace2 c1 c2 = true -> blanks ws -> blanks (c1 :: c2 :: ws)
| blanks_three (c1 c2 c3 : ascii) (ws : gostring) :
    isSpace3 c1 c2 c3 = true -> blanks ws -> blanks (c1 :: c2 :: c3 :: ws).

(** An optional sign applied to a magnitude. *)
Inductive signed : gostring -> Z -> Z -> Prop :=
| signed_none (m : Z) : signed [] m m
| signed_plus (m : Z) : signed (str "+") m m
| signed_minus (m : Z) : signed (str "-") m (- m).

Definition startsWithDigit (s : gostring) : bool :=
  match s with
  | c :: _ => Fmt.isDigit c
  | [] => false
  end.

(** [value] begins, after white space, with the decimal integer [n],
    which fits an [int]: an optional sign and the longest run of digits
    that follows it. *)
Definition integerPrefix (value : gostring) (n : Z) : Prop :=
  exists ws sign digits rest,
    value = ws ++ sign ++ digits ++ rest
    /\ blanks ws
    /\ digits <> []
    /\ Forall (fun c => Fmt.isDigit c = true) digits
    /\ startsWithDigit rest = false
    /\ signed sign (Fmt.decimalValue digits) n
    /\ Fmt.minInt <= n <= Fmt.maxInt.

(** The keys the [switch] statement knows. *)
Definition recognizedKeys : list gostring :=
  [str "commit_hash"; str "commit_message"; str "author"; str "date";
   str "explanation"; str "is_likely"; str "confidence"].

(** A pair whose key the [switch] statement knows. *)
Definition recognizedPair (pair : gostring) : bool :=
  match keyValue pair with
  | Some (key, _) => existsb (eqs key) recognizedKeys
  | None => false
  end.

(** [best] stands in [analyses] before every other verdict that satisfies
    [P] and has the same confidence, and none that satisfies [P] has a
    higher one. *)
Definition firstBest (P : CommitAnalysis -> Prop)
  (analyses : list CommitAnalysis) (best : CommitAnalysis) : Prop :=
  exists before after,
    analyses = before ++ best :: after
    /\ P best
    /\ (forall a, In a before -> P a -> Confidence a < Confidence best)
    /\ (forall a, In a after -> P a -> Confidence a <= Confidence best).

Definition likely (a : CommitAnalysis) : Prop := IsLikely a = true.

Definition anyVerdict (a : CommitAnalysis) : Prop := True.

(** What a scan of [seen] with the comparison of the two selection loops
    has in [bestMatch], when it looks at the verdicts that satisfy [p]. *)
Definition scanned (p : CommitAnalysis -> bool) (seen : list CommitAnalysis)
  (bestMatch : option CommitAnalysis) : Prop :=
  match bestMatch with
  | None => forall a, In a seen -> p a = false
  | Some best => firstBest (fun a => p a = true) seen best
  end.

(** The verdicts gathered when the drain loop ends. *)
Definition collectedVerdicts (totalCommits : nat) (events : list selectCase)
  : list CommitAnalysis :=
  match drain totalCommits 0 events [] with
  | Collected analyses => analyses
  | Cancelled _ analyses => analyses
  | Blocked analyses => analyses
  end.

(** The call returns an error and no verdict. *)
Definition returnsError (totalCommits : nat) (events : list selectCase)
  : Prop :=
  exists e, AnalyzeBugInCommits totalCommits events = Some (None, Some e).

End Spec.

(* ===================================================================== *)
(** ** Concrete inputs used to instantiate the theorems *)
(* ===================================================================== *)

Module Examples.

Import Agent.

(** JSON text, written with ['] for the quotation mark. *)
Definition json (text : string) : gostring :=
  map (fun c => if Ascii.eqb c "'" then quote else c) (str text).

Definition verdict (hash : string) (isLikely : bool) (confidence : Z)
  : CommitAnalysis :=
  {| CommitHash := str hash; CommitMsg := []; Author := []; Date := [];
     Explanation := []; IsLikely := isLikely; Confidence := confidence |}.

Definition arrived (a : CommitAnalysis) : selectCase :=
  Received {| Commit := CommitHash a; Analysis := Some a; Error := None |}.

Definition failed (commit : string) : selectCase :=
  Received {| Commit := str commit; Analysis := None;
              Error := Some NoJSONResponse |}.

End Examples.

(* ===================================================================== *)
(** ** Further notions used to state what the code guarantees *)
(* ===================================================================== *)

Module Notions.

Import Strings Agent FanOut.

(** The verdict a received result contributes to [analyses], if any. *)
Definition verdictOf (result : CommitAnalysisResult) : list CommitAnalysis :=
  match Error result with
  | Some _ => []
  | None =>
      match Analysis result with
      | Some analysis => [analysis]
      | None => []
      end
  end.

(** No two different verdicts of the same likeliness have the same
    confidence. *)
Definition noTies (analyses : list CommitAnalysis) : Prop :=
  forall a b,
    In a analyses -> In b analyses ->
    IsLikely a = IsLikely b -> Confidence a = Confidence b -> a = b.

(** The case of [select] that fires is a receive. *)
Definition isReceived (e : selectCase) : Prop :=
  match e with
  | Received _ => True
  | CtxDone _ => False
  end.

(** The number of separators in a commit record, and what stands before
    the first of them. *)
Definition separators (commit : gostring) : nat :=
  count_occ ascii_dec commit "|"%char.

Fixpoint upTo (sep : ascii) (s : gostring) : gostring :=
  match s with
  | [] => []
  | c :: s' => if Ascii.eqb c sep then [] else c :: upTo sep s'
  end.

Definition hashField (commit : gostring) : gostring := upTo "|" commit.

(** [part] is a contiguous part of [s]. *)
Definition infixOf (part s : gostring) : Prop :=
  exists before after, s = before ++ part ++ after.

(** A content block the scan of a message passes over. *)
Definition passedOver (block : ContentBlock) : Prop :=
  match block with
  | TextBlock Text => locateJSON (TrimSpace Text) = Done None
  | OtherBlock => True
  end.

(** The bytes [splitJSONPairs] gives a meaning to, and the others. *)
Definition opener (c : ascii) : bool := isByte c "{" || isByte c "[".

Definition closer (c : ascii) : bool := isByte c "}" || isByte c "]".

Definition plainChar (c : ascii) : bool :=
  negb (Ascii.eqb c quote || opener c || closer c || isByte c ","
        || Ascii.eqb c backslash).

(** A byte that may stand inside a quoted string written without
    escapes. *)
Definition stringChar (c : ascii) : bool :=
  negb (Ascii.eqb c quote || Ascii.eqb c backslash).

(** Text in which every quotation mark and every bracket is closed:
    bytes without meaning, quoted strings without escapes, and groups in
    braces or brackets; [balanced true] allows commas outside of them,
    [balanced false] does not. *)
Inductive balanced : bool -> gostring -> Prop :=
| balanced_nil (commas : bool) : balanced commas []
| balanced_plain (commas : bool) (c : ascii) (s : gostring) :
    plainChar c = true -> balanced commas s -> balanced commas (c :: s)
| balanced_comma (s : gostring) :
    balanced true s -> balanced true (","%char :: s)
| balanced_quoted (commas : bool) (body s : gostring) :
    Forall (fun c => stringChar c = true) body ->
    balanced commas s ->
    balanced commas (quote :: body ++ quote :: s)
| balanced_group (commas : bool) (o c : ascii) (inner s : gostring) :
    opener o = true -> closer c = true ->
    balanced true inner -> balanced commas s ->
    balanced commas (o :: inner ++ c :: s).

(** [strings.Join(pieces, sep)] for a one-byte separator. *)
Fixpoint joinWith (sep : ascii) (pieces : list gostring) : gostring :=
  match pieces with
  | [] => []
  | [piece] => piece
  | piece :: rest => piece ++ sep :: joinWith sep rest
  end.

(** The pieces, without the last one when it is empty. *)
Definition withoutEmptyLast (pieces : list gostring) : list gostring :=
  match rev pieces with
  | [] :: before => rev before
  | _ => pieces
  end.

(** The last byte read so far. *)
Definition lastOr (prev : option ascii) (s : gostring) : option ascii :=
  match rev s with
  | c :: _ => Some c
  | [] => prev
  end.

(** The byte before the one being read does not escape it. *)
Definition okPrev (prev : option ascii) : Prop := prev <> Some backslash.

(** The state of the scan with [s] added to the pair in the making. *)
Definition extend (st : splitState) (s : gostring) : splitState :=
  {| pairs := pairs st; current := current st ++ s;
     inQuotes := inQuotes st; depth := depth st |}.

(** The decimal digits of a natural number, most significant first. *)
Definition digitChar (d : Z) : ascii := ascii_of_N (Z.to_N (48 + d)).

Fixpoint digitsAcc (fuel : nat) (n : Z) (acc : gostring) : gostring :=
  match fuel with
  | O => acc
  | S fuel' =>
      let acc' := digitChar (n mod 10) :: acc in
      if n <? 10 then acc' else digitsAcc fuel' (n / 10) acc'
  end.

Definition decimal (n : Z) : gostring :=
  digitsAcc (S (Z.to_nat (Z.log2 n))) n [].

(** A verdict written as the JSON object the prompt asks for: the five
    texts in quotation marks, the flag as [true] or [false], the
    confidence in decimal digits. *)
Definition quoted (s : gostring) : gostring := quote :: s ++ [quote].

Definition member (key : string) (value : gostring) : gostring :=
  quote :: str key ++ quote :: str ": " ++ value.

Definition boolText (b : bool) : gostring :=
  if b then str "true" else str "false".

Definition members (a : CommitAnalysis) : list gostring :=
  [member "commit_hash" (quoted (CommitHash a));
   str " " ++ member "commit_message" (quoted (CommitMsg a));
   str " " ++ member "author" (quoted (Author a));
   str " " ++ member "date" (quoted (Date a));
   str " " ++ member "explanation" (quoted (Explanation a));
   str " " ++ member "is_likely" (boolText (IsLikely a));
   str " " ++ member "confidence" (decimal (Confidence a))].

Definition render (a : CommitAnalysis) : gostring :=
  str "{" ++ joinWith "," (members a) ++ str "}".

(** Text that can stand between quotation marks without escapes. *)
Definition cleanText (s : gostring) : Prop :=
  Forall (fun c => stringChar c = true) s.

Definition cleanVerdict (a : CommitAnalysis) : Prop :=
  cleanText (CommitHash a) /\ cleanText (CommitMsg a)
  /\ cleanText (Author a) /\ cleanText (Date a)
  /\ cleanText (Explanation a)
  /\ 0 <= Confidence a <= Fmt.maxInt.

(** Runs of the fan-out of a given number of steps. *)
Inductive stepsN (commits : list gostring) (reply : nat -> QueryResult)
  : nat -> world -> world -> Prop :=
| steps_none (w : world) : stepsN commits reply 0 w w
| steps_more (n : nat) (w w' w'' : world) :
    step commits reply w w' ->
    stepsN commits reply n w' w'' ->
    stepsN commits reply (S n) w w''.

End Notions.

(** Two commits, their replies, and the states of two runs that receive
    the two results in opposite orders. *)
Module RunExamples.

Import Agent FanOut Examples.

Definition twoCommits : list gostring :=
  [str "1a2b3c4d|Ann|2024-01-01|fix"; str "5e6f7a8b|Bob|2024-01-02|cache"].

Definition twoReplies (i : nat) : QueryResult :=
  match i with
  | O => QueryOk [[TextBlock (json "{'commit_hash': '1a2b3c4d', 'is_likely': true, 'confidence': 40}")]]
  | _ => QueryOk [[TextBlock (json "{'commit_hash': '5e6f7a8b', 'is_likely': true, 'confidence': 70}")]]
  end.

Definition firstVerdict : CommitAnalysis := verdict "1a2b3c4d" true 40.
Definition secondVerdict : CommitAnalysis := verdict "5e6f7a8b" true 70.

Definition firstResult : CommitAnalysisResult :=
  {| Commit := str "1a2b3c4d|Ann|2024-01-01|fix";
     Analysis := Some firstVerdict; Error := None |}.

Definition secondResult : CommitAnalysisResult :=
  {| Commit := str "5e6f7a8b|Bob|2024-01-02|cache";
     Analysis := Some secondVerdict; Error := None |}.

(** The state in which the goroutines [pending] have not sent, the
    channel holds [chan] and the loop has received [seen]. *)
Definition draining (pending : list nat)
  (chan seen : list CommitAnalysisResult) : world :=
  {| pending := pending; resultChan := chan;
     completed := List.length seen;
     analyses := fold_left collect seen [];
     observed := seen; coord := Draining |}.

(** The state after the call has returned from the selection. *)
Definition concluded (seen : list CommitAnalysisResult) : world :=
  {| pending := []; resultChan := [];
     completed := List.length seen;
     analyses := fold_left collect seen [];
     observed := seen;
     coord := Returned (conclude (fold_left collect seen [])) |}.

End RunExamples.

(* ===================================================================== *)
(** ** Package [git]: the commits of a date range *)
(* ===================================================================== *)

Module Git.

Import Strings.

Definition newline : ascii := ascii_of_nat 10.

Inductive gitError : Type :=
| RepoNotCloned    (* "repository not cloned" *)
| GetwdFailed      (* "failed to get current directory: ..." *)
| ChdirFailed      (* "failed to change directory: ..." *)
| GitLogFailed.    (* "failed to get git log: ..." *)

(** What the operating system and [git log] do during one call: the
    first of [os.Getwd], [os.Chdir] and [cmd.Output] that fails, or the
    bytes [git log] wrote. *)
Inductive logRun : Type :=
| GetwdError
| ChdirError
| LogError
| LogOutput (output : gostring).

(** The body of the loop over [lines]. *)
Definition keepLine (commits : list gostring) (line : gostring)
  : list gostring :=
  if negb (eqs line []) then commits ++ [line] else commits.

(** [GetCommitsBetweenDates], for the [localPath] of the repository.  A
    nil slice and an empty one are both the empty list: the callers only
    take the length. *)
Definition GetCommitsBetweenDates (localPath : gostring) (run : logRun)
  : list gostring * option gitError :=
  if eqs localPath [] then ([], Some RepoNotCloned)
  else
    match run with
    | GetwdError => ([], Some GetwdFailed)
    | ChdirError => ([], Some ChdirFailed)
    | LogError => ([], Some GitLogFailed)
    | LogOutput output =>
        if (len output =? 0) then ([], None)
        else
          let lines := Split (TrimSpace output) newline in
          (fold_left keepLine lines [], None)
    end.

(** One commit as [git log] shows it. *)
Record logEntry : Type := {
  hash : gostring;         (* %H *)
  authorName : gostring;   (* %an *)
  authorDate : gostring;   (* %ai *)
  subject : gostring       (* %s *)
}.

(** The line the format ["%H|%an|%ai|%s"] makes of a commit. *)
Definition logLine (e : logEntry) : gostring :=
  hash e ++ str "|" ++ authorName e ++ str "|" ++ authorDate e
  ++ str "|" ++ subject e.

End Git.

(* ===================================================================== *)
(** ** Package [main]: the debug mode and the list of topics *)
(* ===================================================================== *)

Module Main.

Import Strings Agent Git.

(** The body of the loop of [parseTopics]. *)
Definition keepTopic (topics : list gostring) (part : gostring)
  : list gostring :=
  let trimmed := TrimSpace part in
  if negb (eqs trimmed []) then topics ++ [trimmed] else topics.

Definition parseTopics (topicsStr : gostring) : list gostring :=
  let parts := Split topicsStr "," in
  fold_left keepTopic parts [].

(** How [runDebugMode] ends: the error it returns, or what it prints
    before it returns nil. *)
Inductive report : Type :=
| CommitsFailed (err : gitError)     (* "failed to get commits: ..." *)
| NoCommitsFound                     (* "No commits found in the specified
                                        date range" *)
| AgentFailed                        (* "failed to create agent: ..." *)
| AnalysisFailed (err : error)       (* "failed to analyze commits: ..." *)
| NotIdentified (explanation : gostring)
                                     (* "Could not definitively identify
                                        the bug-causing commit" and the
                                        explanation *)
| Identified (analysis : CommitAnalysis).
                                     (* "Likely bug-causing commit
                                        identified:" and its fields *)

(** [runDebugMode].  [agentCreated] tells whether [agent.New] succeeded
    and [events] lists the cases that fire in the [select] loop of
    [AnalyzeBugInCommits].  The result is [None] when that call never
    returns, and a panic when [analysis.IsLikely] is read through a nil
    pointer. *)
Definition runDebugMode (localPath : gostring) (run : logRun)
  (agentCreated : bool) (events : list selectCase) : option (exec report) :=
  match GetCommitsBetweenDates localPath run with
  | (_, Some err) => Some (Done (CommitsFailed err))
  | (commits, None) =>
      if (Z.of_nat (List.length commits) =? 0) then Some (Done NoCommitsFound)
      else if negb agentCreated then Some (Done AgentFailed)
      else
        match AnalyzeBugInCommits (List.length commits) events with
        | None => None
        | Some (_, Some err) => Some (Done (AnalysisFailed err))
        | Some (None, None) => Some Panic
        | Some (Some analysis, None) =>
            if negb (IsLikely analysis)
            then Some (Done (NotIdentified (Explanation analysis)))
            else Some (Done (Identified analysis))
        end
  end.

End Main.

(** Notions used to state what the two packages guarantee. *)
Module LogNotions.

Import Strings Agent Git Notions.

(** The first rune of [s] is white space. *)
Definition startsWithSpace (s : gostring) : bool :=
  match s with
  | [] => false
  | c1 :: r1 =>
      isASCIISpace c1
      || match r1 with
         | [] => false
         | c2 :: r2 =>
             isSpace2 c1 c2
             || match r2 with
                | [] => false
                | c3 :: _ => isSpace3 c1 c2 c3
                end
         end
  end.

(** The same for the last rune, on the reversed string. *)
Definition startsWithSpaceRev (r : gostring) : bool :=
  match r with
  | [] => false
  | c1 :: r1 =>
      isASCIISpace c1
      || match r1 with
         | [] => false
         | c2 :: r2 =>
             isSpace2 c2 c1
             || match r2 with
                | [] => false
                | c3 :: _ => isSpace3 c3 c2 c1
                end
         end
  end.

Definition endsWithSpace (s : gostring) : bool := startsWithSpaceRev (rev s).

(** Text without white space at either end. *)
Definition trimmed (s : gostring) : Prop :=
  startsWithSpace s = false /\ endsWithSpace s = false.

(** What [git log] writes for the commits [entries] with the format of
    [GetCommitsBetweenDates]: their lines, with a newline between two. *)
Definition logText (entries : list logEntry) : gostring :=
  joinWith newline (map logLine entries).

(** A commit whose hash has the eight bytes the task slices off it and
    no separator, and whose line has no newline. *)
Definition listedEntry (e : logEntry) : Prop :=
  (8 <= List.length (hash e))%nat
  /\ ~ In "|"%char (hash e)
  /\ ~ In newline (logLine e).

(** The task gets as far as the oracle with [commit]: it returns, and
    not with the error "invalid commit format". *)
Definition analysed (commit : gostring) : Prop :=
  forall reply, exists a e,
    AnalyzeSingleCommit commit reply = Done (a, e)
    /\ e <> Some InvalidCommitFormat.

(** [best] has the highest confidence among the verdicts of [analyses]
    that satisfy [p]. *)
Definition highest (p : CommitAnalysis -> bool)
  (analyses : list CommitAnalysis) (best : CommitAnalysis) : Prop :=
  In best analyses /\ p best = true
  /\ forall a, In a analyses -> p a = true -> Confidence a <= Confidence best.

End LogNotions.

(* ===================================================================== *)
(** ** The members of a payload *)
(* ===================================================================== *)

Module Reading.

Import Strings Fmt Agent Spec.

(** The pairs of a payload: what [splitJSONPairs] makes of the payload
    without the white space and the braces around it. *)
Definition pairsOf (payload : gostring) : list gostring :=
  splitJSONPairs (Trim (TrimSpace payload) (str "{}")).

(** The member a pair stands for.  Its key is what stands before the
    first colon of the pair, without the white space and then the
    quotation marks around it; its value is what stands after that colon,
    without the white space, then one final comma, then the quotation
    marks around it.  A pair without a colon stands for no member. *)
Definition memberOf (pair key value : gostring) : Prop :=
  exists k v,
    pair = k ++ ":"%char :: v
    /\ ~ In ":"%char k
    /\ key = Trim (TrimSpace k) [quote]
    /\ value = Trim (TrimSuffix (TrimSpace v) (str ",")) [quote].

Definition anyValue (value : gostring) : Prop := True.

(** A value that begins with an integer. *)
Definition numeric (value : gostring) : Prop :=
  exists n, integerPrefix value n.

(** [value] is the value of the last pair of [pairs] that stands for a
    member with the key [key] and a value that satisfies [P]. *)
Definition lastMember (P : gostring -> Prop) (pairs : list gostring)
  (key value : gostring) : Prop :=
  exists before pair after,
    pairs = before ++ pair :: after
    /\ memberOf pair key value
    /\ P value
    /\ forall pair' value',
         In pair' after -> memberOf pair' key value' -> ~ P value'.

(** No pair of [pairs] stands for such a member. *)
Definition noMember (P : gostring -> Prop) (pairs : list gostring)
  (key : gostring) : Prop :=
  forall pair value, In pair pairs -> memberOf pair key value -> ~ P value.

(** The keys of the five text fields, with the fields. *)
Definition textFields : list (gostring * (CommitAnalysis -> gostring)) :=
  [(str "commit_hash", CommitHash); (str "commit_message", CommitMsg);
   (str "author", Author); (str "date", Date);
   (str "explanation", Explanation)].

End Reading.

(* ===================================================================== *)
(** * Proofs *)
(* ===================================================================== *)

(** ** Selection: both loops keep the first verdict of highest confidence *)

Module Selection.

Import Agent Spec.

Section Pick.

(** Both loops are instances of one scan, which differs in the verdicts
    it looks at. *)
Variable p : CommitAnalysis -> bool.
Variable pick : option CommitAnalysis -> CommitAnalysis -> option CommitAnalysis.

Hypothesis pick_eq : forall bestMatch analysis,
  pick bestMatch analysis =
  if p analysis then
    match bestMatch with
    | None => Some analysis
    | Some best =>
        if Confidence analysis >? Confidence best then Some analysis
        else bestMatch
    end
  else bestMatch.

Lemma scanned_step (seen : list CommitAnalysis)
  (bestMatch : option CommitAnalysis) (a : CommitAnalysis) :
  scanned p seen bestMatch -> scanned p (seen ++ [a]) (pick bestMatch a).
Proof.
  intros Hs. rewrite pick_eq. destruct (p a) eqn:Hpa.
  - destruct bestMatch as [best|]; simpl in *.
    + destruct Hs as (before & after & Hseen & Hbest & Hlt & Hle).
      destruct (Z.gtb_spec (Confidence a) (Confidence best)) as [Hgt|Hngt].
      * exists seen, []. repeat split; auto.
        -- intros x Hx Px. subst seen. apply in_app_or in Hx.
           destruct Hx as [Hx|[Hx|Hx]].
           ++ specialize (Hlt x Hx Px). lia.
           ++ subst x. lia.
           ++ specialize (Hle x Hx Px). lia.
        -- intros x [].
      * exists before, (after ++ [a]). repeat split; auto.
        -- subst seen. rewrite <- app_assoc. reflexivity.
        -- intros x Hx Px. apply in_app_or in Hx. destruct Hx as [Hx|[Hx|[]]].
           ++ auto.
           ++ subst x. lia.
    + exists seen, []. repeat split; auto.
      * intros x Hx Px. rewrite (Hs x Hx) in Px. discriminate.
      * intros x [].
  - destruct bestMatch as [best|]; simpl in *.
    + destruct Hs as (before & after & Hseen & Hbest & Hlt & Hle).
      exists before, (after ++ [a]). repeat split; auto.
      * subst seen. rewrite <- app_assoc. reflexivity.
      * intros x Hx Px. apply in_app_or in Hx. destruct Hx as [Hx|[Hx|[]]].
        -- auto.
        -- subst x. congruence.
    + intros x Hx. apply in_app_or in Hx. destruct Hx as [Hx|[Hx|[]]]; auto.
      subst x. assumption.
Qed.

Lemma scanned_fold (rest seen : list CommitAnalysis)
  (bestMatch : option CommitAnalysis) :
  scanned p seen bestMatch ->
  scanned p (seen ++ rest) (fold_left pick rest bestMatch).
Proof.
  revert seen bestMatch.
  induction rest as [|a rest IH]; intros seen bestMatch Hs; simpl.
  - rewrite app_nil_r. assumption.
  - replace (seen ++ a :: rest) with ((seen ++ [a]) ++ rest)
      by (rewrite <- app_assoc; reflexivity).
    apply IH. apply scanned_step. assumption.
Qed.

Lemma scanned_all (analyses : list CommitAnalysis) :
  scanned p analyses (fold_left pick analyses None).
Proof.
  apply (scanned_fold analyses [] None). intros a [].
Qed.

End Pick.

Lemma likely_scan (analyses : list CommitAnalysis) :
  scanned IsLikely analyses (fold_left likelyStep analyses None).
Proof.
  apply scanned_all. intros bestMatch analysis. reflexivity.
Qed.

Lemma any_scan (analyses : list CommitAnalysis) :
  scanned (fun _ => true) analyses (fold_left anyStep analyses None).
Proof.
  apply scanned_all. intros bestMatch analysis. reflexivity.
Qed.

(** With a likely verdict among them, [selectBest] is decided by the first
    loop. *)
Lemma selectBest_likely (analyses : list CommitAnalysis) :
  (exists a, In a analyses /\ IsLikely a = true) ->
  exists best, selectBest analyses = Some best /\ firstBest likely analyses best.
Proof.
  intros (a & Ha & La). unfold selectBest.
  pose proof (likely_scan analyses) as Hs.
  destruct (fold_left likelyStep analyses None) as [best|]; simpl in Hs.
  - exists best. split; [reflexivity | exact Hs].
  - rewrite (Hs a Ha) in La. discriminate.
Qed.

(** With none, by the second. *)
Lemma selectBest_fallback (analyses : list CommitAnalysis) :
  analyses <> [] ->
  (forall a, In a analyses -> IsLikely a = false) ->
  exists best,
    selectBest analyses = Some best /\ firstBest anyVerdict analyses best.
Proof.
  intros Hne Hnone. unfold selectBest.
  pose proof (likely_scan analyses) as Hl.
  destruct (fold_left likelyStep analyses None) as [b|]; simpl in Hl.
  - destruct Hl as (before & after & Hseen & Hb & _).
    rewrite Hnone in Hb; [discriminate|].
    subst analyses. apply in_or_app. right. left. reflexivity.
  - pose proof (any_scan analyses) as Ha.
    destruct (fold_left anyStep analyses None) as [best|]; simpl in Ha.
    + exists best. split; [reflexivity|].
      destruct Ha as (before & after & Hseen & _ & Hlt & Hle).
      exists before, after. repeat split; auto.
    + destruct analyses as [|a l]; [congruence|].
      specialize (Ha a (or_introl eq_refl)). discriminate.
Qed.

Lemma firstBest_In (P : CommitAnalysis -> Prop)
  (analyses : list CommitAnalysis) (best : CommitAnalysis) :
  firstBest P analyses best -> In best analyses.
Proof.
  intros (before & after & Hseen & _). subst analyses.
  apply in_or_app. right. left. reflexivity.
Qed.

Lemma firstBest_max (P : CommitAnalysis -> Prop)
  (analyses : list CommitAnalysis) (best : CommitAnalysis) :
  firstBest P analyses best ->
  forall a, In a analyses -> P a -> Confidence a <= Confidence best.
Proof.
  intros (before & after & Hseen & _ & Hlt & Hle) a Ha Pa. subst analyses.
  apply in_app_or in Ha. destruct Ha as [Ha|[Ha|Ha]].
  - specialize (Hlt a Ha Pa). lia.
  - subst a. lia.
  - auto.
Qed.

(** [conclude] on a non-empty list is the selection, without error. *)
Lemma conclude_nonempty (analyses : list CommitAnalysis) :
  analyses <> [] -> conclude analyses = (selectBest analyses, None).
Proof.
  intros Hne. unfold conclude. destruct analyses; [congruence|]. reflexivity.
Qed.

End Selection.

(** ** The drain loop *)

Module Drain.

Import Agent.

(** Once [totalCommits] results have been received the loop is over. *)
Lemma drain_complete (totalCommits : nat) (events : list selectCase)
  (analyses : list CommitAnalysis) :
  drain totalCommits totalCommits events analyses = Collected analyses.
Proof.
  destruct events as [|e events]; simpl; rewrite Nat.ltb_irrefl; reflexivity.
Qed.

(** Receiving the results [results], as many as are outstanding, ends the
    loop with the verdicts among them, in the order of arrival; what
    [select] would do afterwards is never looked at. *)
Lemma drain_received (totalCommits : nat) (results : list CommitAnalysisResult)
  (later : list selectCase) (completed : nat)
  (analyses : list CommitAnalysis) :
  (completed + List.length results = totalCommits)%nat ->
  drain totalCommits completed (map Received results ++ later) analyses
  = Collected (fold_left collect results analyses).
Proof.
  revert completed analyses.
  induction results as [|r results IH]; intros completed analyses Hlen;
    simpl in *.
  - replace completed with totalCommits by lia. apply drain_complete.
  - destruct (Nat.ltb_spec completed totalCommits) as [_|Hge]; [|lia].
    apply IH. lia.
Qed.

(** No commit dispatched: the loop body never runs. *)
Lemma drain_none (events : list selectCase) :
  drain 0 0 events [] = Collected [].
Proof. apply drain_complete. Qed.

End Drain.

(** ** The claims on selection *)

Import Agent Spec Examples.

(** C1.  When the drain loop has run to its end and a likely verdict is
    among the collected ones, [AnalyzeBugInCommits] returns, without
    error, a likely verdict whose confidence no likely verdict exceeds,
    and every likely verdict that arrived before it has a strictly lower
    confidence: among likely verdicts of the highest confidence the first
    one drained is kept. *)
Theorem likely_verdict_of_highest_confidence
  (totalCommits : nat) (events : list selectCase)
  (analyses : list CommitAnalysis) :
  drain totalCommits 0 events [] = Collected analyses ->
  (exists a, In a analyses /\ IsLikely a = true) ->
  exists best,
    AnalyzeBugInCommits totalCommits events = Some (Some best, None)
    /\ IsLikely best = true
    /\ (forall a, In a analyses -> IsLikely a = true ->
                  Confidence a <= Confidence best)
    /\ firstBest likely analyses best.
Proof.
  intros Hdrain Hlikely.
  destruct (Selection.selectBest_likely analyses Hlikely) as (best & Hsel & Hfb).
  exists best. unfold AnalyzeBugInCommits. rewrite Hdrain.
  assert (Hne : analyses <> []).
  { destruct Hlikely as (a & Ha & _). destruct analyses; [destruct Ha|congruence]. }
  rewrite (Selection.conclude_nonempty analyses Hne), Hsel.
  repeat split.
  - destruct Hfb as (_ & _ & _ & Hb & _). exact Hb.
  - intros a Ha La. exact (Selection.firstBest_max likely analyses best Hfb a Ha La).
  - exact Hfb.
Qed.

Lemma likely_verdict_of_highest_confidence_witness :
  exists best,
    AnalyzeBugInCommits 3
      [arrived (verdict "aaaaaaaa" false 95);
       arrived (verdict "bbbbbbbb" true 70);
       arrived (verdict "cccccccc" true 70)]
    = Some (Some best, None)
    /\ IsLikely best = true
    /\ (forall a,
          In a [verdict "aaaaaaaa" false 95; verdict "bbbbbbbb" true 70;
                verdict "cccccccc" true 70] ->
          IsLikely a = true -> Confidence a <= Confidence best)
    /\ firstBest likely
         [verdict "aaaaaaaa" false 95; verdict "bbbbbbbb" true 70;
          verdict "cccccccc" true 70] best.
Proof.
  apply (likely_verdict_of_highest_confidence 3).
  - reflexivity.
  - exists (verdict "bbbbbbbb" true 70). split; [simpl; auto | reflexivity].
Defined.

(** C2.  When the drain loop has run to its end with at least one verdict
    collected and none of them likely, [AnalyzeBugInCommits] returns,
    without error, one of the collected verdicts whose confidence none of
    them exceeds, whatever its [IsLikely] flag. *)
Theorem fallback_verdict_of_highest_confidence
  (totalCommits : nat) (events : list selectCase)
  (analyses : list CommitAnalysis) :
  drain totalCommits 0 events [] = Collected analyses ->
  analyses <> [] ->
  (forall a, In a analyses -> IsLikely a = false) ->
  exists best,
    AnalyzeBugInCommits totalCommits events = Some (Some best, None)
    /\ In best analyses
    /\ (forall a, In a analyses -> Confidence a <= Confidence best).
Proof.
  intros Hdrain Hne Hnone.
  destruct (Selection.selectBest_fallback analyses Hne Hnone)
    as (best & Hsel & Hfb).
  exists best. unfold AnalyzeBugInCommits.
  rewrite Hdrain, (Selection.conclude_nonempty analyses Hne), Hsel.
  repeat split.
  - exact (Selection.firstBest_In anyVerdict analyses best Hfb).
  - intros a Ha.
    exact (Selection.firstBest_max anyVerdict analyses best Hfb a Ha I).
Qed.

Lemma fallback_verdict_of_highest_confidence_witness :
  exists best,
    AnalyzeBugInCommits 3
      [arrived (verdict "aaaaaaaa" false 30); failed "bbbbbbbb|b|c|d";
       arrived (verdict "cccccccc" false 55)]
    = Some (Some best, None)
    /\ In best [verdict "aaaaaaaa" false 30; verdict "cccccccc" false 55]
    /\ (forall a,
          In a [verdict "aaaaaaaa" false 30; verdict "cccccccc" false 55] ->
          Confidence a <= Confidence best).
Proof.
  apply (fallback_verdict_of_highest_confidence 3).
  - reflexivity.
  - discriminate.
  - intros a [Ha|[Ha|[]]]; subst a; reflexivity.
Defined.

(** C10.  In the fallback tier too the first arrival wins a tie: with no
    likely verdict collected, the verdict returned stands in the order of
    arrival before every other verdict of the same confidence. *)
Theorem fallback_tie_keeps_first_arrival
  (totalCommits : nat) (events : list selectCase)
  (analyses : list CommitAnalysis) :
  drain totalCommits 0 events [] = Collected analyses ->
  analyses <> [] ->
  (forall a, In a analyses -> IsLikely a = false) ->
  exists best before after,
    AnalyzeBugInCommits totalCommits events = Some (Some best, None)
    /\ analyses = before ++ best :: after
    /\ (forall a, In a before -> Confidence a < Confidence best)
    /\ (forall a, In a after -> Confidence a <= Confidence best).
Proof.
  intros Hdrain Hne Hnone.
  destruct (Selection.selectBest_fallback analyses Hne Hnone)
    as (best & Hsel & before & after & Hseen & _ & Hlt & Hle).
  exists best, before, after. unfold AnalyzeBugInCommits.
  rewrite Hdrain, (Selection.conclude_nonempty analyses Hne), Hsel.
  repeat split; auto.
  - intros a Ha. apply Hlt; [assumption | exact I].
  - intros a Ha. apply Hle; [assumption | exact I].
Qed.

Lemma fallback_tie_keeps_first_arrival_witness :
  exists best before after,
    AnalyzeBugInCommits 3
      [arrived (verdict "aaaaaaaa" false 20);
       arrived (verdict "bbbbbbbb" false 55);
       arrived (verdict "cccccccc" false 55)]
    = Some (Some best, None)
    /\ [verdict "aaaaaaaa" false 20; verdict "bbbbbbbb" false 55;
        verdict "cccccccc" false 55] = before ++ best :: after
    /\ (forall a, In a before -> Confidence a < Confidence best)
    /\ (forall a, In a after -> Confidence a <= Confidence best).
Proof.
  apply (fallback_tie_keeps_first_arrival 3).
  - reflexivity.
  - discriminate.
  - intros a [Ha|[Ha|[Ha|[]]]]; subst a; reflexivity.
Defined.

(** On the run above the verdict returned is the second one, not the
    third. *)
Example fallback_tie_example :
  AnalyzeBugInCommits 3
    [arrived (verdict "aaaaaaaa" false 20);
     arrived (verdict "bbbbbbbb" false 55);
     arrived (verdict "cccccccc" false 55)]
  = Some (Some (verdict "bbbbbbbb" false 55), None).
Proof. reflexivity. Qed.

Example likely_tie_example :
  AnalyzeBugInCommits 3
    [arrived (verdict "aaaaaaaa" false 95);
     arrived (verdict "bbbbbbbb" true 70);
     arrived (verdict "cccccccc" true 70)]
  = Some (Some (verdict "bbbbbbbb" true 70), None).
Proof. reflexivity. Qed.

(** ** The claim on errors *)

(** A run in which the context is cancelled after one verdict has been
    collected and before the second result arrives. *)
Example cancelled_run :
  drain 2 0 [arrived (verdict "aaaaaaaa" true 80);
             CtxDone (str "context canceled")] []
  = Cancelled (str "context canceled") [verdict "aaaaaaaa" true 80].
Proof. reflexivity. Qed.

(** C3, as stated, fails: on that run an error is returned although a
    verdict had been collected. *)
Lemma error_with_a_verdict_collected :
  ~ (returnsError 2 [arrived (verdict "aaaaaaaa" true 80);
                     CtxDone (str "context canceled")]
     <-> collectedVerdicts 2 [arrived (verdict "aaaaaaaa" true 80);
                              CtxDone (str "context canceled")] = []).
Proof.
  intros [Hyes _].
  assert (Herr : returnsError 2 [arrived (verdict "aaaaaaaa" true 80);
                                 CtxDone (str "context canceled")]).
  { exists (ContextError (str "context canceled")). reflexivity. }
  specialize (Hyes Herr). discriminate Hyes.
Qed.

(** C3, amended.  When the drain loop runs to its end, the call returns
    an error exactly when no verdict was collected: then the result is no
    verdict and the error "no commits could be analyzed", and otherwise
    it is one of the collected verdicts and no error.  When the loop is
    left because the context is done, the result is no verdict and the
    context's error, whatever had been collected. *)
Theorem error_exactly_when_nothing_collected_or_cancelled
  (totalCommits : nat) (events : list selectCase) :
  (forall analyses,
      drain totalCommits 0 events [] = Collected analyses ->
      (analyses = []
       /\ AnalyzeBugInCommits totalCommits events
          = Some (None, Some NoCommitsAnalyzed))
      \/ (analyses <> []
          /\ exists best,
               In best analyses
               /\ AnalyzeBugInCommits totalCommits events
                  = Some (Some best, None)))
  /\ (forall err analyses,
         drain totalCommits 0 events [] = Cancelled err analyses ->
         AnalyzeBugInCommits totalCommits events
         = Some (None, Some (ContextError err))).
Proof.
  split.
  - intros analyses Hdrain. unfold AnalyzeBugInCommits. rewrite Hdrain.
    destruct analyses as [|a analyses].
    + left. split; reflexivity.
    + right. split; [discriminate|].
      rewrite Selection.conclude_nonempty by discriminate.
      destruct (existsb IsLikely (a :: analyses)) eqn:Hex.
      * apply existsb_exists in Hex.
        destruct (Selection.selectBest_likely (a :: analyses) Hex)
          as (best & Hsel & Hfb).
        exists best. rewrite Hsel. split; [|reflexivity].
        exact (Selection.firstBest_In likely _ best Hfb).
      * assert (Hnone : forall x, In x (a :: analyses) -> IsLikely x = false).
        { intros x Hx. destruct (IsLikely x) eqn:Lx; [|reflexivity].
          assert (Hyes : existsb IsLikely (a :: analyses) = true)
            by (apply existsb_exists; exists x; auto).
          congruence. }
        destruct (Selection.selectBest_fallback (a :: analyses)
                    ltac:(discriminate) Hnone) as (best & Hsel & Hfb).
        exists best. rewrite Hsel. split; [|reflexivity].
        exact (Selection.firstBest_In anyVerdict _ best Hfb).
  - intros err analyses Hdrain. unfold AnalyzeBugInCommits.
    rewrite Hdrain. reflexivity.
Qed.

Lemma error_exactly_when_nothing_collected_or_cancelled_witness :
  ((verdict "aaaaaaaa" false 10 :: [verdict "bbbbbbbb" true 70] = []
       /\ AnalyzeBugInCommits 2 [arrived (verdict "aaaaaaaa" false 10);
                                 arrived (verdict "bbbbbbbb" true 70)]
          = Some (None, Some NoCommitsAnalyzed))
   \/ (verdict "aaaaaaaa" false 10 :: [verdict "bbbbbbbb" true 70] <> []
       /\ exists best,
            In best [verdict "aaaaaaaa" false 10; verdict "bbbbbbbb" true 70]
            /\ AnalyzeBugInCommits 2 [arrived (verdict "aaaaaaaa" false 10);
                                      arrived (verdict "bbbbbbbb" true 70)]
               = Some (Some best, None)))
  /\ AnalyzeBugInCommits 2 [arrived (verdict "aaaaaaaa" true 80);
                            CtxDone (str "context canceled")]
     = Some (None, Some (ContextError (str "context canceled"))).
Proof.
  split.
  - apply (proj1 (error_exactly_when_nothing_collected_or_cancelled 2
                    [arrived (verdict "aaaaaaaa" false 10);
                     arrived (verdict "bbbbbbbb" true 70)])).
    reflexivity.
  - apply (proj2 (error_exactly_when_nothing_collected_or_cancelled 2
                    [arrived (verdict "aaaaaaaa" true 80);
                     CtxDone (str "context canceled")])
             (str "context canceled") [verdict "aaaaaaaa" true 80]).
    reflexivity.
Defined.

(** When every task failed, or no commit was dispatched, the loop ends
    with nothing collected and the aggregate error is returned. *)
Example all_tasks_failed :
  AnalyzeBugInCommits 2 [failed "aaaaaaaa|a|d|s"; failed "bbbbbbbb|a|d|s"]
  = Some (None, Some NoCommitsAnalyzed).
Proof. reflexivity. Qed.

Lemma no_commits_short_circuit (events : list selectCase) :
  AnalyzeBugInCommits 0 events = Some (None, Some NoCommitsAnalyzed).
Proof.
  unfold AnalyzeBugInCommits. rewrite Drain.drain_none. reflexivity.
Qed.

(** ** Facts on the [strings] functions *)

Module StringsFacts.

Import Strings Spec.

Lemma eqs_true (a b : gostring) : eqs a b = true <-> a = b.
Proof.
  revert b. induction a as [|x a IH]; intros [|y b]; simpl;
    try (split; [discriminate | congruence]); try tauto.
  rewrite andb_true_iff, Ascii.eqb_eq, IH.
  split; [intros [-> ->]; reflexivity | intros H; inversion H; auto].
Qed.

Lemma eqs_refl (a : gostring) : eqs a a = true.
Proof. apply eqs_true. reflexivity. Qed.

Lemma eqs_false (a b : gostring) : eqs a b = false <-> a <> b.
Proof.
  rewrite <- eqs_true. destruct (eqs a b); split; congruence.
Qed.

Lemma len_app (a b : gostring) : len (a ++ b) = len a + len b.
Proof. unfold len. rewrite length_app. lia. Qed.

Lemma HasPrefix_spec (s prefix : gostring) :
  HasPrefix s prefix = true <-> exists post, s = prefix ++ post.
Proof.
  revert s. induction prefix as [|p prefix IH]; intros s; simpl.
  - split; [intros _; exists s; reflexivity | destruct s; reflexivity].
  - destruct s as [|c s].
    + split; [discriminate | intros (post & H); discriminate].
    + simpl. rewrite andb_true_iff, Ascii.eqb_eq, IH. split.
      * intros (-> & post & ->). exists post. reflexivity.
      * intros (post & H). inversion H. split; [reflexivity | eauto].
Qed.

Lemma HasSuffix_spec (s suffix : gostring) :
  HasSuffix s suffix = true <-> exists pre, s = pre ++ suffix.
Proof.
  unfold HasSuffix. rewrite andb_true_iff, eqs_true, Z.leb_le. unfold len.
  split.
  - intros (Hlen & Hskip).
    exists (firstn (List.length s - List.length suffix) s).
    transitivity (firstn (List.length s - List.length suffix) s
                  ++ skipn (List.length s - List.length suffix) s).
    + symmetry. apply firstn_skipn.
    + f_equal. exact Hskip.
  - intros (pre & ->). rewrite length_app. split; [lia|].
    replace (List.length pre + List.length suffix - List.length suffix)%nat
      with (List.length pre + 0)%nat by lia.
    rewrite skipn_app, skipn_all2 by lia.
    replace (List.length pre + 0 - List.length pre)%nat with 0%nat by lia.
    reflexivity.
Qed.

(** *** Occurrences *)

Lemma occursAt_0 (s pat : gostring) :
  occursAt s pat 0 <-> HasPrefix s pat = true.
Proof.
  rewrite HasPrefix_spec. split.
  - intros (pre & post & -> & Hlen). destruct pre; [|discriminate].
    exists post. reflexivity.
  - intros (post & ->). exists [], post. split; reflexivity.
Qed.

Lemma occursAt_S (c : ascii) (s pat : gostring) (i : nat) :
  occursAt (c :: s) pat (S i) <-> occursAt s pat i.
Proof.
  split.
  - intros (pre & post & Heq & Hlen). destruct pre as [|x pre]; [discriminate|].
    inversion Heq; subst. exists pre, post. split; [reflexivity|].
    simpl in Hlen. lia.
  - intros (pre & post & -> & Hlen). exists (c :: pre), post.
    split; [reflexivity | simpl; lia].
Qed.

Lemma occursAt_nil (pat : gostring) (i : nat) :
  occursAt [] pat i -> pat = [] /\ i = 0%nat.
Proof.
  intros (pre & post & Heq & Hlen). symmetry in Heq.
  apply app_eq_nil in Heq. destruct Heq as (-> & Heq).
  apply app_eq_nil in Heq. destruct Heq as (-> & _).
  simpl in Hlen. auto.
Qed.

Lemma occursAt_bound (s pat : gostring) (i : nat) :
  occursAt s pat i -> (i + List.length pat <= List.length s)%nat.
Proof.
  intros (pre & post & -> & <-). rewrite !length_app. lia.
Qed.

Lemma firstAt_unique (s pat : gostring) (i j : nat) :
  firstAt s pat i -> firstAt s pat j -> i = j.
Proof.
  intros (Hi & Hmin_i) (Hj & Hmin_j).
  destruct (Nat.lt_trichotomy i j) as [Hlt|[Heq|Hgt]]; [|assumption|].
  - exfalso. exact (Hmin_j i Hlt Hi).
  - exfalso. exact (Hmin_i j Hgt Hj).
Qed.

Lemma lastAt_unique (s pat : gostring) (i j : nat) :
  lastAt s pat i -> lastAt s pat j -> i = j.
Proof.
  intros (Hi & Hmax_i) (Hj & Hmax_j).
  destruct (Nat.lt_trichotomy i j) as [Hlt|[Heq|Hgt]]; [|assumption|].
  - exfalso. exact (Hmax_i j Hlt Hj).
  - exfalso. exact (Hmax_j i Hgt Hi).
Qed.

(** [Index] returns the offset of the first occurrence, and -1 exactly
    when there is none. *)
Lemma indexFrom_spec (pat s : gostring) (k : Z) :
  (indexFrom s pat k = -1 /\ forall i, ~ occursAt s pat i)
  \/ (exists i, indexFrom s pat k = k + Z.of_nat i /\ firstAt s pat i).
Proof.
  revert k. induction s as [|c s IH]; intros k.
  - cbn [indexFrom]. destruct (HasPrefix [] pat) eqn:Hp.
    + right. exists 0%nat. split; [simpl; lia|]. split.
      * apply occursAt_0. assumption.
      * intros j Hj. lia.
    + left. split; [reflexivity|]. intros i Hi.
      destruct (occursAt_nil pat i Hi) as (-> & _). discriminate.
  - cbn [indexFrom]. destruct (HasPrefix (c :: s) pat) eqn:Hp.
    + right. exists 0%nat. split; [simpl; lia|]. split.
      * apply occursAt_0. assumption.
      * intros j Hj. lia.
    + destruct (IH (k + 1)) as [(Hr & Hnone)|(i & Hr & Hocc & Hmin)].
      * left. split; [assumption|]. intros [|i] Hi.
        -- apply occursAt_0 in Hi. congruence.
        -- apply occursAt_S in Hi. exact (Hnone i Hi).
      * right. exists (S i). split; [lia|]. split.
        -- apply occursAt_S. assumption.
        -- intros [|j] Hj Hoccj.
           ++ apply occursAt_0 in Hoccj. congruence.
           ++ apply occursAt_S in Hoccj. apply (Hmin j); [lia | assumption].
Qed.

Lemma Index_spec (s pat : gostring) :
  (Index s pat = -1 /\ forall i, ~ occursAt s pat i)
  \/ (exists i, Index s pat = Z.of_nat i /\ firstAt s pat i).
Proof.
  unfold Index. destruct (indexFrom_spec pat s 0) as [H|(i & Hr & Hf)].
  - left. assumption.
  - right. exists i. split; [lia | assumption].
Qed.

Lemma LastIndex_spec (s pat : gostring) :
  (LastIndex s pat = -1 /\ forall i, ~ occursAt s pat i)
  \/ (exists i, LastIndex s pat = Z.of_nat i /\ lastAt s pat i).
Proof.
  induction s as [|c s IH].
  - cbn [LastIndex]. destruct (HasPrefix [] pat) eqn:Hp.
    + right. exists 0%nat. split; [reflexivity|]. split.
      * apply occursAt_0. assumption.
      * intros j Hj Hoccj. apply occursAt_nil in Hoccj. lia.
    + left. split; [reflexivity|]. intros i Hi.
      destruct (occursAt_nil pat i Hi) as (-> & _). discriminate.
  - cbn [LastIndex].
    destruct IH as [(Hr & Hnone)|(i & Hr & Hocc & Hmax)]; rewrite Hr.
    + simpl (0 <=? -1). cbv iota.
      destruct (HasPrefix (c :: s) pat) eqn:Hp.
      * right. exists 0%nat. split; [reflexivity|]. split.
        -- apply occursAt_0. assumption.
        -- intros [|j] Hj Hoccj; [lia|].
           apply occursAt_S in Hoccj. exact (Hnone j Hoccj).
      * left. split; [reflexivity|]. intros [|i] Hi.
        -- apply occursAt_0 in Hi. congruence.
        -- apply occursAt_S in Hi. exact (Hnone i Hi).
    + destruct (Z.leb_spec 0 (Z.of_nat i)) as [_|Hneg]; [|lia].
      right. exists (S i). split; [lia|]. split.
      * apply occursAt_S. assumption.
      * intros [|j] Hj Hoccj; [lia|].
        apply occursAt_S in Hoccj. apply (Hmax j); [lia | assumption].
Qed.

Lemma Contains_spec (s pat : gostring) :
  Contains s pat = true <-> occurs s pat.
Proof.
  unfold Contains, occurs.
  destruct (Index_spec s pat) as [(Hr & Hnone)|(i & Hr & Hocc & _)];
    rewrite Hr.
  - split; [discriminate | intros (i & Hi); destruct (Hnone i Hi)].
  - split; [intros _; exists i; assumption | intros _; apply Z.leb_le; lia].
Qed.

(** An occurrence of a one-byte pattern is a member. *)
Lemma occurs_byte (s : gostring) (c : ascii) :
  occurs s [c] <-> In c s.
Proof.
  split.
  - intros (i & pre & post & -> & _). apply in_or_app. right. left. reflexivity.
  - intros Hin. apply in_split in Hin. destruct Hin as (pre & post & ->).
    exists (List.length pre), pre, post. split; reflexivity.
Qed.

(** *** Slices *)

Lemma slice_ok (s : gostring) (lo hi : nat) :
  (lo <= hi <= List.length s)%nat ->
  slice s (Z.of_nat lo) (Z.of_nat hi) = Done (firstn (hi - lo) (skipn lo s)).
Proof.
  intros Hb. unfold slice, len.
  destruct (Z.leb_spec 0 (Z.of_nat lo)); [|lia].
  destruct (Z.leb_spec (Z.of_nat lo) (Z.of_nat hi)); [|lia].
  destruct (Z.leb_spec (Z.of_nat hi) (Z.of_nat (List.length s))); [|lia].
  simpl. rewrite Nat2Z.id.
  replace (Z.to_nat (Z.of_nat hi - Z.of_nat lo)) with (hi - lo)%nat by lia.
  reflexivity.
Qed.

Lemma sliceFrom_ok (s : gostring) (lo : nat) :
  (lo <= List.length s)%nat ->
  sliceFrom s (Z.of_nat lo) = Done (skipn lo s).
Proof.
  intros Hb. unfold sliceFrom, len. rewrite slice_ok by lia.
  rewrite firstn_all2; [reflexivity|]. rewrite length_skipn. lia.
Qed.

End StringsFacts.

(** ** Facts on [strings.TrimSpace] *)

Module TrimFacts.

Import Strings Spec.

Lemma byteIs_high (c : ascii) (n : N) :
  (N_of_ascii c < 128)%N -> (128 <= n)%N -> byteIs c n = false.
Proof.
  intros Hc Hn. unfold byteIs. apply N.eqb_neq. lia.
Qed.

Lemma isSpace2_plain_first (c1 c2 : ascii) :
  plainByte c1 -> isSpace2 c1 c2 = false.
Proof.
  intros (Hc & _). unfold isSpace2.
  rewrite (byteIs_high c1 194) by (assumption || lia). reflexivity.
Qed.

Lemma isSpace3_plain_first (c1 c2 c3 : ascii) :
  plainByte c1 -> isSpace3 c1 c2 c3 = false.
Proof.
  intros (Hc & _). unfold isSpace3.
  rewrite (byteIs_high c1 225), (byteIs_high c1 226), (byteIs_high c1 227)
    by (assumption || lia).
  reflexivity.
Qed.

Lemma isSpace2_plain_last (c1 c2 : ascii) :
  plainByte c2 -> isSpace2 c1 c2 = false.
Proof.
  intros (Hc & _). unfold isSpace2.
  rewrite (byteIs_high c2 133), (byteIs_high c2 160) by (assumption || lia).
  apply andb_false_r.
Qed.

Lemma isSpace3_plain_last (c1 c2 c3 : ascii) :
  plainByte c3 -> isSpace3 c1 c2 c3 = false.
Proof.
  intros (Hc & _). unfold isSpace3.
  rewrite (byteIs_high c3 128), (byteIs_high c3 168), (byteIs_high c3 169),
    (byteIs_high c3 175), (byteIs_high c3 159) by (assumption || lia).
  destruct (N.leb_spec 128 (N_of_ascii c3)) as [Hge|_]; [lia|].
  simpl. rewrite !andb_false_r. reflexivity.
Qed.

Lemma TrimLeftSpace_plain (c : ascii) (r : gostring) :
  plainByte c -> TrimLeftSpace (c :: r) = c :: r.
Proof.
  intros Hc. cbn [TrimLeftSpace]. rewrite (proj2 Hc).
  destruct r as [|c2 r2]; [reflexivity|].
  rewrite isSpace2_plain_first by assumption.
  destruct r2 as [|c3 r3]; [reflexivity|].
  rewrite isSpace3_plain_first by assumption. reflexivity.
Qed.

Lemma trimRightSpaceRev_plain (c : ascii) (r : gostring) :
  plainByte c -> trimRightSpaceRev (c :: r) = c :: r.
Proof.
  intros Hc. cbn [trimRightSpaceRev]. rewrite (proj2 Hc).
  destruct r as [|c2 r2]; [reflexivity|].
  rewrite isSpace2_plain_last by assumption.
  destruct r2 as [|c3 r3]; [reflexivity|].
  rewrite isSpace3_plain_last by assumption. reflexivity.
Qed.

(** Text that begins and ends with such a byte is left as it is. *)
Lemma TrimSpace_plain (c d : ascii) (inner : gostring) :
  plainByte c -> plainByte d ->
  TrimSpace (c :: inner ++ [d]) = c :: inner ++ [d].
Proof.
  intros Hc Hd. unfold TrimSpace, TrimRightSpace.
  rewrite TrimLeftSpace_plain by assumption.
  replace (rev (c :: inner ++ [d])) with (d :: rev inner ++ [c]).
  - rewrite trimRightSpaceRev_plain by assumption.
    cbn [rev]. rewrite rev_app_distr, rev_involutive. reflexivity.
  - cbn [rev]. rewrite rev_app_distr. reflexivity.
Qed.

Lemma plain_open_brace : plainByte "{".
Proof. split; [vm_compute | ]; reflexivity. Qed.

Lemma plain_close_brace : plainByte "}".
Proof. split; [vm_compute | ]; reflexivity. Qed.

(** What is trimmed off is a prefix and a suffix. *)
Lemma TrimLeftSpace_suffix_bounded (n : nat) (s : gostring) :
  (List.length s <= n)%nat -> exists a, s = a ++ TrimLeftSpace s.
Proof.
  revert s. induction n as [|n IH]; intros s Hn.
  - destruct s; [exists []; reflexivity | simpl in Hn; lia].
  - destruct s as [|c1 r1]; [exists []; reflexivity|].
    cbn [TrimLeftSpace]. simpl in Hn. destruct (isASCIISpace c1).
    + destruct (IH r1 ltac:(lia)) as (a & Ha). exists (c1 :: a).
      simpl. f_equal. exact Ha.
    + destruct r1 as [|c2 r2]; [exists []; reflexivity|].
      simpl in Hn. destruct (isSpace2 c1 c2).
      * destruct (IH r2 ltac:(lia)) as (a & Ha). exists (c1 :: c2 :: a).
        simpl. do 2 f_equal. exact Ha.
      * destruct r2 as [|c3 r3]; [exists []; reflexivity|].
        simpl in Hn. destruct (isSpace3 c1 c2 c3).
        -- destruct (IH r3 ltac:(lia)) as (a & Ha).
           exists (c1 :: c2 :: c3 :: a). simpl. do 3 f_equal. exact Ha.
        -- exists []. reflexivity.
Qed.

Lemma trimRightSpaceRev_suffix_bounded (n : nat) (s : gostring) :
  (List.length s <= n)%nat -> exists a, s = a ++ trimRightSpaceRev s.
Proof.
  revert s. induction n as [|n IH]; intros s Hn.
  - destruct s; [exists []; reflexivity | simpl in Hn; lia].
  - destruct s as [|c1 r1]; [exists []; reflexivity|].
    cbn [trimRightSpaceRev]. simpl in Hn. destruct (isASCIISpace c1).
    + destruct (IH r1 ltac:(lia)) as (a & Ha). exists (c1 :: a).
      simpl. f_equal. exact Ha.
    + destruct r1 as [|c2 r2]; [exists []; reflexivity|].
      simpl in Hn. destruct (isSpace2 c2 c1).
      * destruct (IH r2 ltac:(lia)) as (a & Ha). exists (c1 :: c2 :: a).
        simpl. do 2 f_equal. exact Ha.
      * destruct r2 as [|c3 r3]; [exists []; reflexivity|].
        simpl in Hn. destruct (isSpace3 c3 c2 c1).
        -- destruct (IH r3 ltac:(lia)) as (a & Ha).
           exists (c1 :: c2 :: c3 :: a). simpl. do 3 f_equal. exact Ha.
        -- exists []. reflexivity.
Qed.

Lemma TrimSpace_infix (s : gostring) :
  exists a b, s = a ++ TrimSpace s ++ b.
Proof.
  unfold TrimSpace, TrimRightSpace.
  destruct (TrimLeftSpace_suffix_bounded (List.length s) s (le_n _))
    as (a & Ha).
  set (t := TrimLeftSpace s) in *.
  destruct (trimRightSpaceRev_suffix_bounded (List.length (rev t)) (rev t)
              (le_n _)) as (b & Hb).
  exists a, (rev b). rewrite <- rev_app_distr, <- Hb, rev_involutive.
  exact Ha.
Qed.

Lemma TrimSpace_In (s : gostring) (c : ascii) :
  In c (TrimSpace s) -> In c s.
Proof.
  destruct (TrimSpace_infix s) as (a & b & Hs). intros Hin. rewrite Hs.
  apply in_or_app. right. apply in_or_app. left. assumption.
Qed.

Lemma TrimSpace_occurs (s pat : gostring) :
  occurs (TrimSpace s) pat -> occurs s pat.
Proof.
  destruct (TrimSpace_infix s) as (a & b & Hs).
  intros (i & pre & post & Heq & _).
  exists (List.length (a ++ pre)), (a ++ pre), (post ++ b).
  split; [|reflexivity].
  rewrite Hs, Heq. rewrite <- !app_assoc. reflexivity.
Qed.

End TrimFacts.

(** ** Locating the payload *)

Module Locate.

Import Strings Agent Spec StringsFacts TrimFacts.

(** The first strategy assigns the trimmed body of the fenced block when
    there is one, and nothing otherwise; it never panics. *)
Lemma fencedJSON_spec (text : gostring) :
  (exists body,
      fencedBlock text body /\ fencedJSON text = Done (Some (TrimSpace body)))
  \/ (~ (exists body, fencedBlock text body) /\ fencedJSON text = Done None).
Proof.
  unfold fencedJSON, Contains.
  destruct (Index_spec text fenceOpen) as [(Hr & Hnone)|(i & Hr & Hfirst)];
    rewrite Hr.
  - right. split; [|reflexivity].
    intros (body & i & e & (Hocc & _) & _). exact (Hnone i Hocc).
  - destruct (Z.leb_spec 0 (Z.of_nat i)) as [_|Hneg]; [|lia].
    pose proof (occursAt_bound _ _ _ (proj1 Hfirst)) as Hb.
    change (List.length fenceOpen) with 7%nat in Hb.
    replace (Z.of_nat i + 7) with (Z.of_nat (i + 7)) by lia.
    rewrite sliceFrom_ok by lia. cbn [bind].
    destruct (Index_spec (skipn (i + 7) text) fenceClose)
      as [(Hr2 & Hnone2)|(e & Hr2 & Hfirst2)]; rewrite Hr2.
    + right. split; [|reflexivity].
      intros (body & i' & e' & Hf' & (Hocc' & _) & _).
      rewrite (firstAt_unique _ _ _ _ Hf' Hfirst) in Hocc'.
      exact (Hnone2 e' Hocc').
    + destruct (Z.ltb_spec 0 (Z.of_nat e)) as [Hpos|Hzero]; cbn [andb].
      * left. exists (firstn e (skipn (i + 7) text)). split.
        -- exists i, e. repeat split; try apply Hfirst; try apply Hfirst2. lia.
        -- pose proof (occursAt_bound _ _ _ (proj1 Hfirst2)) as Hb2.
           rewrite length_skipn in Hb2.
           change (List.length fenceClose) with 3%nat in Hb2.
           replace (Z.of_nat (i + 7) + Z.of_nat e)
             with (Z.of_nat (i + 7 + e)) by lia.
           rewrite slice_ok by lia. cbn [bind].
           replace (i + 7 + e - (i + 7))%nat with e by lia. reflexivity.
      * right. split; [|reflexivity].
        intros (body & i' & e' & Hf' & Hf2' & Hpos' & _).
        rewrite (firstAt_unique _ _ _ _ Hf' Hfirst) in Hf2'.
        rewrite (firstAt_unique _ _ _ _ Hf2' Hfirst2) in Hpos'. lia.
Qed.

(** The test of the second strategy. *)
Lemma braced_spec (text : gostring) :
  HasPrefix text (str "{") && HasSuffix text (str "}") = true <-> braced text.
Proof.
  rewrite andb_true_iff, HasPrefix_spec, HasSuffix_spec. split.
  - intros ((post & Hpost) & (pre & Hpre)).
    destruct pre as [|c pre].
    + rewrite Hpre in Hpost. destruct post; discriminate.
    + exists pre. rewrite Hpre in Hpost. inversion Hpost; subst c.
      rewrite Hpre. reflexivity.
  - intros (inner & ->). split.
    + exists (inner ++ str "}"). reflexivity.
    + exists (str "{" ++ inner). rewrite <- app_assoc. reflexivity.
Qed.

(** A slice from an occurrence of an opening brace to a later occurrence
    of a closing one begins and ends with them. *)
Lemma span_shape (text : gostring) (i j : nat) :
  occursAt text (str "{") i -> occursAt text (str "}") j -> (i < j)%nat ->
  exists inner,
    firstn (S j - i) (skipn i text) = "{"%char :: inner ++ ["}"%char].
Proof.
  intros (pre & post & Htext & Hi) (pre' & post' & Htext' & Hj) Hlt.
  rewrite Htext in Htext'. cbn [app str list_ascii_of_string] in Htext'.
  apply app_eq_app in Htext'.
  destruct Htext' as (l & [(Hpre & _)|(Hpre' & Hpost)]).
  - rewrite Hpre, length_app in Hi. lia.
  - destruct l as [|c inner].
    + rewrite app_nil_r in Hpre'. subst pre'. lia.
    + cbn [app] in Hpost. inversion Hpost; subst c post.
      exists inner. rewrite Htext. subst i j pre'.
      rewrite skipn_app, skipn_all, Nat.sub_diag.
      cbn [skipn app str list_ascii_of_string].
      rewrite length_app. cbn [List.length].
      replace (S (List.length pre + S (List.length inner)) - List.length pre)%nat
        with (S (List.length (inner ++ ["}"%char]) + 0))
        by (rewrite length_app; cbn [List.length]; lia).
      cbn [firstn]. f_equal.
      change (inner ++ "}"%char :: post')
        with (inner ++ ["}"%char] ++ post').
      rewrite app_assoc, firstn_app_2. cbn [firstn]. apply app_nil_r.
Qed.

(** The third strategy assigns the span from the first opening brace to
    the last closing one when the former precedes the latter, and nothing
    otherwise; it never panics. *)
Lemma spannedJSON_spec (text : gostring) :
  (exists span, braceSpan text span /\ spannedJSON text = Done (Some span))
  \/ (~ (exists span, braceSpan text span) /\ spannedJSON text = Done None).
Proof.
  unfold spannedJSON.
  destruct (Index_spec text (str "{")) as [(Hr & Hnone)|(i & Hr & Hfirst)];
    rewrite Hr.
  - right. split; [|reflexivity].
    intros (span & i & j & (Hocc & _) & _). exact (Hnone i Hocc).
  - destruct (Z.leb_spec 0 (Z.of_nat i)) as [_|Hneg]; [|lia]. cbn [andb].
    destruct (LastIndex_spec text (str "}")) as [(Hr2 & Hnone2)|(j & Hr2 & Hlast)];
      rewrite Hr2.
    + destruct (Z.ltb_spec (Z.of_nat i) (-1)) as [Hlt|_]; [lia|].
      right. split; [|reflexivity].
      intros (span & i' & j' & _ & (Hocc & _) & _). exact (Hnone2 j' Hocc).
    + destruct (Z.ltb_spec (Z.of_nat i) (Z.of_nat j)) as [Hlt|Hge].
      * left. exists (firstn (S j - i) (skipn i text)). split.
        -- exists i, j. repeat split; try apply Hfirst; try apply Hlast. lia.
        -- pose proof (occursAt_bound _ _ _ (proj1 Hlast)) as Hb.
           change (List.length (str "}")) with 1%nat in Hb.
           replace (Z.of_nat j + 1) with (Z.of_nat (S j)) by lia.
           rewrite slice_ok by lia. cbn [bind].
           destruct (span_shape text i j (proj1 Hfirst) (proj1 Hlast)
                       ltac:(lia)) as (inner & Hspan).
           rewrite Hspan.
           rewrite (TrimSpace_plain _ _ inner plain_open_brace plain_close_brace).
           assert (Hb2 : braced ("{"%char :: inner ++ ["}"%char]))
             by (exists inner; reflexivity).
           apply braced_spec in Hb2. rewrite Hb2. reflexivity.
      * right. split; [|reflexivity].
        intros (span & i' & j' & Hf' & Hl' & Hlt' & _).
        rewrite (firstAt_unique _ _ _ _ Hf' Hfirst) in Hlt'.
        rewrite (lastAt_unique _ _ _ _ Hl' Hlast) in Hlt'. lia.
Qed.

(** The loop body finds what the three strategies find, in their order. *)
Lemma locateJSON_located (text : gostring) :
  exists r, locateJSON text = Done r /\ locatedWith braced text r.
Proof.
  unfold locateJSON.
  destruct (fencedJSON_spec text) as [(body & Hf & ->)|(Hnf & ->)]; cbn [bind].
  - exists (Some (TrimSpace body)). split; [reflexivity|].
    apply ByFence. assumption.
  - destruct (HasPrefix text (str "{") && HasSuffix text (str "}")) eqn:Hb.
    + exists (Some text). split; [reflexivity|].
      apply ByBrackets; [assumption|]. apply braced_spec. assumption.
    + assert (Hnb : ~ braced text).
      { intros Hyes. apply braced_spec in Hyes. congruence. }
      destruct (spannedJSON_spec text) as [(span & Hs & ->)|(Hns & ->)].
      * exists (Some span). split; [reflexivity|]. apply BySpan; assumption.
      * exists None. split; [reflexivity|]. apply NotLocated; assumption.
Qed.

(** The three strategies leave no choice. *)
Lemma fencedBlock_unique (text body body' : gostring) :
  fencedBlock text body -> fencedBlock text body' -> body = body'.
Proof.
  intros (i & e & Hi & He & _ & ->) (i' & e' & Hi' & He' & _ & ->).
  rewrite (firstAt_unique _ _ _ _ Hi' Hi) in *.
  rewrite (firstAt_unique _ _ _ _ He' He). reflexivity.
Qed.

Lemma braceSpan_unique (text span span' : gostring) :
  braceSpan text span -> braceSpan text span' -> span = span'.
Proof.
  intros (i & j & Hi & Hj & _ & ->) (i' & j' & Hi' & Hj' & _ & ->).
  rewrite (firstAt_unique _ _ _ _ Hi' Hi).
  rewrite (lastAt_unique _ _ _ _ Hj' Hj). reflexivity.
Qed.

Lemma located_functional (whole : gostring -> Prop) (text : gostring)
  (r r' : option gostring) :
  locatedWith whole text r -> locatedWith whole text r' -> r = r'.
Proof.
  intros Hr Hr'.
  destruct Hr as [body Hf|Hnf Hw|span Hnf Hnw Hs|Hnf Hnw Hns];
    destruct Hr' as [body' Hf'|Hnf' Hw'|span' Hnf' Hnw' Hs'|Hnf' Hnw' Hns'];
    try reflexivity;
    try (exfalso; eauto; fail).
  - rewrite (fencedBlock_unique text body body' Hf Hf'). reflexivity.
  - rewrite (braceSpan_unique text span span' Hs Hs'). reflexivity.
Qed.

(** Without a fence and without braces nothing is found. *)
Lemma locateJSON_nothing (text : gostring) :
  ~ occurs text fenceOpen -> ~ In "{"%char text -> ~ In "}"%char text ->
  locateJSON text = Done None.
Proof.
  intros Hfence Hopen Hclose.
  destruct (locateJSON_located text) as (r & Hr & Hloc). rewrite Hr.
  f_equal. destruct Hloc as [body Hf|_ Hb|span _ _ Hs|]; [| | |reflexivity];
    exfalso.
  - destruct Hf as (i & e & (Hocc & _) & _). apply Hfence. exists i. assumption.
  - destruct Hb as (inner & ->). apply Hopen. left. reflexivity.
  - destruct Hs as (i & j & (Hocc & _) & _). apply Hopen.
    apply occurs_byte. exists i. assumption.
Qed.

(** Neither loop panics. *)
Lemma scanBlocks_total (blocks : list ContentBlock) :
  exists jsonResponse, scanBlocks blocks = Done jsonResponse.
Proof.
  induction blocks as [|[Text|] blocks IH]; cbn [scanBlocks].
  - exists []. reflexivity.
  - destruct (locateJSON_located (TrimSpace Text)) as (r & -> & _).
    cbn [bind]. destruct r as [jsonResponse|]; [eauto | exact IH].
  - exact IH.
Qed.

Lemma extractJSON_total (messages : list Message) :
  exists jsonResponse, extractJSON messages = Done jsonResponse.
Proof.
  induction messages as [|message messages IH]; cbn [extractJSON].
  - exists []. reflexivity.
  - destruct (scanBlocks_total message) as (j & ->). cbn [bind].
    destruct (negb (eqs j [])); [eauto | exact IH].
Qed.

Lemma scanBlocks_nothing (blocks : list ContentBlock) :
  (forall Text, In (TextBlock Text) blocks -> noPayloadMarks Text) ->
  scanBlocks blocks = Done [].
Proof.
  induction blocks as [|[Text|] blocks IH]; intros Hno; cbn [scanBlocks].
  - reflexivity.
  - destruct (Hno Text (or_introl eq_refl)) as (Hopen & Hclose & Hfence).
    rewrite locateJSON_nothing.
    + cbn [bind]. apply IH. intros T HT. apply Hno. right. assumption.
    + intros Hocc. apply Hfence. apply TrimSpace_occurs. assumption.
    + intros Hin. apply Hopen. apply TrimSpace_In. assumption.
    + intros Hin. apply Hclose. apply TrimSpace_In. assumption.
  - apply IH. intros T HT. apply Hno. right. assumption.
Qed.

Lemma extractJSON_nothing (messages : list Message) :
  (forall message Text,
      In message messages -> In (TextBlock Text) message ->
      noPayloadMarks Text) ->
  extractJSON messages = Done [].
Proof.
  induction messages as [|message messages IH]; intros Hno;
    cbn [extractJSON].
  - reflexivity.
  - rewrite scanBlocks_nothing.
    + cbn [bind eqs negb]. apply IH. intros m T Hm HT.
      apply (Hno m T); [right|]; assumption.
    + intros T HT. apply (Hno message T); [left; reflexivity | assumption].
Qed.

(** A well-formed commit record takes the task to the oracle's reply. *)
Lemma AnalyzeSingleCommit_wellFormed (commit : gostring)
  (messages : list Message) :
  wellFormedCommit commit ->
  AnalyzeSingleCommit commit (QueryOk messages)
  = (jsonResponse <- extractJSON messages ;;
     if eqs jsonResponse [] then Done (None, Some NoJSONResponse)
     else Done (Some (parseAnalysis jsonResponse), None)).
Proof.
  intros (Hparts & Hhash). unfold AnalyzeSingleCommit.
  destruct (Z.ltb_spec (Z.of_nat (List.length (Split commit "|"))) 4)
    as [Hlt|_]; [lia|].
  unfold sliceTo. change 8 with (Z.of_nat 8). change 0 with (Z.of_nat 0).
  rewrite slice_ok by lia. reflexivity.
Qed.

End Locate.

(** ** The claims on locating the payload *)

Import Strings.

(** C5, as stated, fails: a trimmed text that is an array in brackets is
    not taken as the payload; nothing is found in it. *)
Lemma bracketed_array_is_not_taken :
  ~ (exists r,
        locateJSON (str "[1,2]") = Done r
        /\ locatedWith bracedOrBracketed (str "[1,2]") r).
Proof.
  intros (r & Hr & Hloc).
  assert (Hnone : locateJSON (str "[1,2]") = Done None) by reflexivity.
  rewrite Hnone in Hr. inversion Hr; subst r.
  inversion Hloc as [| | |_ Hnot _]. apply Hnot. right.
  exists (str "1,2"). reflexivity.
Qed.

(** C5, amended.  The loop body locates the payload by three strategies
    in priority order, the first that applies deciding: the white-space
    trimmed content between the first opening fence [```json] and the
    next [```] when that content is not empty; else the trimmed text as
    it is when it begins with [{] and ends with [}]; else the span from
    the first [{] to the last [}] when the former precedes the latter;
    else nothing.  The strategies leave no choice, so the outcome of the
    loop body is the one they determine; it never panics. *)
Theorem payload_located_by_three_strategies (text : gostring) :
  exists r,
    locateJSON text = Done r
    /\ locatedWith braced text r
    /\ forall r', locatedWith braced text r' -> r' = r.
Proof.
  destruct (Locate.locateJSON_located text) as (r & Hr & Hloc).
  exists r. repeat split; try assumption.
  intros r' Hloc'. exact (Locate.located_functional braced text r' r Hloc' Hloc).
Qed.

Example located_by_fence :
  locateJSON (json "Here: ```json {'confidence': 70} ``` and {more}")
  = Done (Some (json "{'confidence': 70}")).
Proof. reflexivity. Qed.

Example located_by_braces :
  locateJSON (json "{'confidence': 70}")
  = Done (Some (json "{'confidence': 70}")).
Proof. reflexivity. Qed.

Example located_by_span :
  locateJSON (json "The verdict is {'confidence': 70}, as asked.")
  = Done (Some (json "{'confidence': 70}")).
Proof. reflexivity. Qed.

Example array_of_objects_located_by_span :
  locateJSON (json "[{'confidence': 70}]")
  = Done (Some (json "{'confidence': 70}")).
Proof. reflexivity. Qed.

Example empty_fence_falls_through :
  locateJSON (json "```json``` then {'confidence': 70}")
  = Done (Some (json "{'confidence': 70}")).
Proof. reflexivity. Qed.

(** C9, as stated, fails: a text without any brace but with a fenced
    block is taken as a payload, and the task returns a verdict, all of
    whose fields are zero, and no error. *)
Lemma fenced_text_without_braces_is_found :
  ~ (~ In "{"%char (str "```json hello ```") ->
     ~ In "}"%char (str "```json hello ```") ->
     extractJSON [[TextBlock (str "```json hello ```")]] = Done []).
Proof.
  intros Hclaim.
  assert (Hfound : extractJSON [[TextBlock (str "```json hello ```")]]
                   = Done (str "hello")) by reflexivity.
  rewrite Hfound in Hclaim.
  assert (Hno : forall c, c = "{"%char \/ c = "}"%char ->
                          ~ In c (str "```json hello ```")).
  { intros c Hc Hin. cbn in Hin.
    repeat (destruct Hin as [Hin|Hin];
            [subst c; destruct Hc; discriminate|]).
    exact Hin. }
  specialize (Hclaim (Hno _ (or_introl eq_refl)) (Hno _ (or_intror eq_refl))).
  discriminate Hclaim.
Qed.

Example zero_verdict_from_fenced_prose :
  AnalyzeSingleCommit (str "1a2b3c4d|Ann|2024-01-01|fix")
    (QueryOk [[TextBlock (str "```json hello ```")]])
  = Done (Some zeroAnalysis, None).
Proof. reflexivity. Qed.

(** C9, amended.  Extraction never panics, whatever the reply.  When no
    text block of the reply contains [{], [}] or the opening fence
    [```json], no payload is found, and the task of a well-formed commit
    record returns the error "Claude did not return expected JSON
    response" and no verdict.  The outcome of the task is a function of
    the reply alone: two well-formed commit records given the same reply
    yield identical results. *)
Theorem extraction_total_and_empty_without_marks :
  (forall messages, exists jsonResponse,
      extractJSON messages = Done jsonResponse)
  /\ (forall messages,
         (forall message Text,
             In message messages -> In (TextBlock Text) message ->
             noPayloadMarks Text) ->
         extractJSON messages = Done []
         /\ forall commit,
              wellFormedCommit commit ->
              AnalyzeSingleCommit commit (QueryOk messages)
              = Done (None, Some NoJSONResponse))
  /\ (forall commit commit' messages,
         wellFormedCommit commit -> wellFormedCommit commit' ->
         AnalyzeSingleCommit commit (QueryOk messages)
         = AnalyzeSingleCommit commit' (QueryOk messages)).
Proof.
  split; [exact Locate.extractJSON_total|]. split.
  - intros messages Hno.
    pose proof (Locate.extractJSON_nothing messages Hno) as Hex.
    split; [exact Hex|]. intros commit Hwf.
    rewrite (Locate.AnalyzeSingleCommit_wellFormed commit messages Hwf), Hex.
    reflexivity.
  - intros commit commit' messages Hwf Hwf'.
    rewrite (Locate.AnalyzeSingleCommit_wellFormed commit messages Hwf).
    rewrite (Locate.AnalyzeSingleCommit_wellFormed commit' messages Hwf').
    reflexivity.
Qed.

Lemma extraction_total_and_empty_without_marks_witness :
  extractJSON [[TextBlock (str "The commit looks unrelated."); OtherBlock]]
  = Done []
  /\ AnalyzeSingleCommit (str "1a2b3c4d|Ann|2024-01-01|fix")
       (QueryOk [[TextBlock (str "The commit looks unrelated."); OtherBlock]])
     = Done (None, Some NoJSONResponse).
Proof.
  destruct (proj1 (proj2 extraction_total_and_empty_without_marks)
              [[TextBlock (str "The commit looks unrelated."); OtherBlock]])
    as (Hnone & Htask).
  - intros message Text [<-|[]] [HText|[HText|[]]]; [|discriminate HText].
    inversion HText; subst Text. repeat split.
    + intros Hin. cbn in Hin.
      repeat (destruct Hin as [Hin|Hin]; [discriminate Hin|]). exact Hin.
    + intros Hin. cbn in Hin.
      repeat (destruct Hin as [Hin|Hin]; [discriminate Hin|]). exact Hin.
    + intros Hocc. apply StringsFacts.Contains_spec in Hocc.
      discriminate Hocc.
  - split; [exact Hnone|]. apply Htask. split; vm_compute; lia.
Defined.

(** ** Facts on [fmt.Sscanf] with [%d] *)

Module FmtFacts.

Import Strings Fmt Spec TrimFacts.

Lemma isDigit_range (c : ascii) :
  isDigit c = true <-> (48 <= N_of_ascii c <= 57)%N.
Proof.
  unfold isDigit. rewrite andb_true_iff, !N.leb_le. tauto.
Qed.

Lemma digit_plain (c : ascii) : isDigit c = true -> plainByte c.
Proof.
  rewrite isDigit_range. intros Hc. split; [lia|].
  unfold isASCIISpace. apply orb_false_iff. split.
  - apply andb_false_iff. right. apply N.leb_gt. lia.
  - apply N.eqb_neq. lia.
Qed.

Lemma plain_not_newline (c : ascii) : plainByte c -> byteIs c 10 = false.
Proof.
  intros (_ & Hsp). unfold byteIs. unfold isASCIISpace in Hsp.
  apply orb_false_iff in Hsp. destruct Hsp as (Hr & _).
  apply N.eqb_neq. intros Heq. rewrite Heq in Hr. discriminate.
Qed.

Lemma SkipSpace_plain (c : ascii) (r : gostring) :
  plainByte c -> SkipSpace (c :: r) = Some (c :: r).
Proof.
  intros Hc. cbn [SkipSpace].
  rewrite (plain_not_newline c Hc), (proj2 Hc).
  destruct r as [|c2 r2]; [reflexivity|].
  rewrite isSpace2_plain_first by assumption.
  destruct r2 as [|c3 r3]; [reflexivity|].
  rewrite isSpace3_plain_first by assumption. reflexivity.
Qed.

Lemma isSpace2_first (c1 c2 : ascii) :
  isSpace2 c1 c2 = true -> isASCIISpace c1 = false /\ byteIs c1 10 = false.
Proof.
  unfold isSpace2, byteIs, isASCIISpace.
  rewrite andb_true_iff, N.eqb_eq. intros (-> & _). split; reflexivity.
Qed.

Lemma isSpace3_first (c1 c2 c3 : ascii) :
  isSpace3 c1 c2 c3 = true ->
  isASCIISpace c1 = false /\ byteIs c1 10 = false /\ isSpace2 c1 c2 = false.
Proof.
  unfold isSpace3, isSpace2, byteIs, isASCIISpace.
  rewrite !orb_true_iff, !andb_true_iff, !N.eqb_eq.
  intros [[[((-> & _) & _)|((-> & _) & _)]|((-> & _) & _)]|((-> & _) & _)];
    repeat split; reflexivity.
Qed.

(** Leading blanks are passed over. *)
Lemma SkipSpace_blanks (ws tail : gostring) :
  blanks ws -> SkipSpace (ws ++ tail) = SkipSpace tail.
Proof.
  induction 1 as [|c ws Hsp Hnl _ IH|c1 c2 ws H2 _ IH|c1 c2 c3 ws H3 _ IH].
  - reflexivity.
  - cbn [app SkipSpace]. rewrite Hnl, Hsp. exact IH.
  - cbn [app SkipSpace]. destruct (isSpace2_first c1 c2 H2) as (-> & ->).
    rewrite H2. exact IH.
  - cbn [app SkipSpace].
    destruct (isSpace3_first c1 c2 c3 H3) as (-> & -> & ->).
    rewrite H3. exact IH.
Qed.

(** What was passed over were blanks. *)
Lemma SkipSpace_inv_bounded (n : nat) (s tail : gostring) :
  (List.length s <= n)%nat -> SkipSpace s = Some tail ->
  exists ws, blanks ws /\ s = ws ++ tail.
Proof.
  revert s. induction n as [|n IH]; intros s Hn Hskip.
  - destruct s; [|simpl in Hn; lia]. inversion Hskip.
    exists []. split; [constructor | reflexivity].
  - destruct s as [|c1 r1].
    { inversion Hskip. exists []. split; [constructor | reflexivity]. }
    cbn [SkipSpace] in Hskip. simpl in Hn.
    destruct (byteIs c1 10) eqn:Hnl; [discriminate|].
    destruct (isASCIISpace c1) eqn:Hsp.
    { destruct (IH r1 ltac:(lia) Hskip) as (ws & Hws & ->).
      exists (c1 :: ws). split; [constructor; assumption | reflexivity]. }
    destruct r1 as [|c2 r2].
    { inversion Hskip. exists []. split; [constructor | reflexivity]. }
    simpl in Hn. destruct (isSpace2 c1 c2) eqn:H2.
    { destruct (IH r2 ltac:(lia) Hskip) as (ws & Hws & ->).
      exists (c1 :: c2 :: ws). split; [constructor; assumption | reflexivity]. }
    destruct r2 as [|c3 r3].
    { inversion Hskip. exists []. split; [constructor | reflexivity]. }
    simpl in Hn. destruct (isSpace3 c1 c2 c3) eqn:H3.
    { destruct (IH r3 ltac:(lia) Hskip) as (ws & Hws & ->).
      exists (c1 :: c2 :: c3 :: ws).
      split; [constructor; assumption | reflexivity]. }
    inversion Hskip. exists []. split; [constructor | reflexivity].
Qed.

Lemma scanNumber_run (digits rest : gostring) :
  Forall (fun c => isDigit c = true) digits ->
  startsWithDigit rest = false ->
  scanNumber (digits ++ rest) = digits.
Proof.
  intros Hd Hrest. induction Hd as [|c digits Hc _ IH]; cbn [app scanNumber].
  - destruct rest as [|c rest]; [reflexivity|].
    simpl in Hrest. cbn [scanNumber]. rewrite Hrest. reflexivity.
  - rewrite Hc, IH. reflexivity.
Qed.

Lemma scanNumber_inv (s : gostring) :
  exists rest,
    s = scanNumber s ++ rest
    /\ Forall (fun c => isDigit c = true) (scanNumber s)
    /\ startsWithDigit rest = false.
Proof.
  induction s as [|c s (rest & Hs & Hd & Hrest)]; cbn [scanNumber].
  - exists []. repeat split. constructor.
  - destruct (isDigit c) eqn:Hc.
    + exists rest. repeat split; [cbn [app]; f_equal; exact Hs| |exact Hrest].
      constructor; assumption.
    + exists (c :: s). repeat split; [constructor | exact Hc].
Qed.

Lemma acceptSign_inv (s : gostring) :
  exists sign,
    s = sign ++ snd (acceptSign s)
    /\ (forall m, signed sign m (if fst (acceptSign s) then - m else m)).
Proof.
  destruct s as [|c s]; cbn [acceptSign].
  - exists []. split; [reflexivity | constructor].
  - destruct (byteIs c 45) eqn:Hminus.
    + apply N.eqb_eq in Hminus. exists (str "-"). split; [|constructor].
      cbn. f_equal. rewrite <- (ascii_N_embedding c), Hminus. reflexivity.
    + destruct (byteIs c 43) eqn:Hplus.
      * apply N.eqb_eq in Hplus. exists (str "+"). split; [|constructor].
        cbn. f_equal. rewrite <- (ascii_N_embedding c), Hplus. reflexivity.
      * exists []. split; [reflexivity | constructor].
Qed.

Lemma acceptSign_signed (sign tail : gostring) (m n : Z) :
  signed sign m n -> startsWithDigit tail = true ->
  exists negative,
    acceptSign (sign ++ tail) = (negative, tail)
    /\ n = if negative then - m else m.
Proof.
  intros Hs Ht. destruct tail as [|d tail]; [discriminate|]. simpl in Ht.
  apply isDigit_range in Ht.
  assert (H45 : byteIs d 45 = false) by (apply N.eqb_neq; lia).
  assert (H43 : byteIs d 43 = false) by (apply N.eqb_neq; lia).
  destruct Hs; cbn [app str list_ascii_of_string acceptSign].
  - exists false. rewrite H45, H43. auto.
  - exists false. split; reflexivity.
  - exists true. split; reflexivity.
Qed.

(** [Sscanf] stores [n] exactly when the value has the integer prefix
    [n]. *)
Lemma SscanfInt_prefix (value : gostring) (n : Z) :
  SscanfInt value = Some n <-> integerPrefix value n.
Proof.
  split.
  - unfold SscanfInt. intros Hscan.
    destruct (SkipSpace value) as [tail|] eqn:Hskip; [|discriminate].
    destruct (SkipSpace_inv_bounded _ value tail (le_n _) Hskip)
      as (ws & Hws & Hvalue).
    destruct (acceptSign_inv tail) as (sign & Htail & Hsigned).
    destruct (acceptSign tail) as (negative, tail') eqn:Hsign.
    cbn [fst snd] in Htail, Hsigned.
    destruct (scanNumber_inv tail') as (rest & Htail' & Hdigits & Hrest).
    destruct (scanNumber tail') as [|d tok] eqn:Htok; [discriminate|].
    set (m := decimalValue (d :: tok)) in *.
    destruct ((minInt <=? (if negative then - m else m))
              && ((if negative then - m else m) <=? maxInt)) eqn:Hrange;
      [|discriminate].
    inversion Hscan; subst n.
    apply andb_true_iff in Hrange. destruct Hrange as (Hlo & Hhi).
    apply Z.leb_le in Hlo, Hhi.
    exists ws, sign, (d :: tok), rest. repeat split; auto.
    + rewrite Hvalue, Htail, Htail'. reflexivity.
    + discriminate.
  - intros (ws & sign & digits & rest & -> & Hws & Hne & Hd & Hrest & Hs
            & Hrange).
    unfold SscanfInt. rewrite (SkipSpace_blanks ws _ Hws).
    assert (Hstart : startsWithDigit (digits ++ rest) = true).
    { destruct Hd as [|c digits Hc _]; [congruence | exact Hc]. }
    assert (Hskip : SkipSpace (sign ++ digits ++ rest)
                    = Some (sign ++ digits ++ rest)).
    { destruct Hs; cbn [app str list_ascii_of_string].
      - destruct Hd as [|c digits Hc _]; [congruence|].
        apply SkipSpace_plain. apply digit_plain. exact Hc.
      - apply SkipSpace_plain. split; [vm_compute|]; reflexivity.
      - apply SkipSpace_plain. split; [vm_compute|]; reflexivity. }
    rewrite Hskip.
    destruct (acceptSign_signed sign _ _ n Hs Hstart) as (negative & -> & Hn).
    rewrite (scanNumber_run digits rest Hd Hrest).
    destruct digits as [|d tok]; [congruence|].
    rewrite <- Hn.
    destruct (Z.leb_spec minInt n); [|lia].
    destruct (Z.leb_spec n maxInt); [|lia].
    reflexivity.
Qed.

Lemma SscanfInt_none (value : gostring) :
  SscanfInt value = None <-> forall n, ~ integerPrefix value n.
Proof.
  split.
  - intros Hnone n Hp. apply SscanfInt_prefix in Hp. congruence.
  - intros Hno. destruct (SscanfInt value) as [n|] eqn:Hscan; [|reflexivity].
    apply SscanfInt_prefix in Hscan. destruct (Hno n Hscan).
Qed.

End FmtFacts.

(** ** Reading the payload *)

Module Parse.

Import Strings Agent Spec Reading StringsFacts FmtFacts.

(** A key outside the recognized ones falls through the [switch]. *)
Lemma setField_unrecognized (analysis : CommitAnalysis)
  (key value : gostring) :
  ~ In key recognizedKeys -> setField analysis key value = analysis.
Proof.
  intros Hnot. unfold setField.
  repeat match goal with
         | |- context [eqs key ?k] =>
             let E := fresh "E" in
             destruct (eqs key k) eqn:E;
             [apply eqs_true in E; exfalso; apply Hnot; rewrite E;
              cbn; tauto|]
         end.
  reflexivity.
Qed.

Lemma recognizedKeys_existsb (key : gostring) :
  existsb (eqs key) recognizedKeys = false -> ~ In key recognizedKeys.
Proof.
  intros Hex Hin.
  assert (Hyes : existsb (eqs key) recognizedKeys = true).
  { apply existsb_exists. exists key. split; [assumption | apply eqs_refl]. }
  congruence.
Qed.

Lemma parsePair_unrecognized (analysis : CommitAnalysis) (pair : gostring) :
  recognizedPair pair = false -> parsePair analysis pair = analysis.
Proof.
  unfold recognizedPair, parsePair.
  destruct (keyValue pair) as [[key value]|]; [|reflexivity].
  intros Hex. apply setField_unrecognized.
  apply recognizedKeys_existsb. assumption.
Qed.

(** The pairs with an unrecognized key, or without a colon, may as well
    be absent. *)
Lemma unrecognized_pairs_ignored (pairs : list gostring)
  (analysis : CommitAnalysis) :
  fold_left parsePair (filter recognizedPair pairs) analysis
  = fold_left parsePair pairs analysis.
Proof.
  revert analysis. induction pairs as [|pair pairs IH]; intros analysis.
  - reflexivity.
  - cbn [filter fold_left]. destruct (recognizedPair pair) eqn:Hrec.
    + cbn [fold_left]. apply IH.
    + rewrite (parsePair_unrecognized analysis pair Hrec). apply IH.
Qed.

Lemma setField_is_likely (analysis : CommitAnalysis) (value : gostring) :
  IsLikely (setField analysis (str "is_likely") value) = eqs value (str "true").
Proof. reflexivity. Qed.

Lemma setField_confidence (analysis : CommitAnalysis) (value : gostring) :
  Confidence (setField analysis (str "confidence") value)
  = match Fmt.SscanfInt value with
    | Some n => n
    | None => Confidence analysis
    end.
Proof. reflexivity. Qed.

Lemma setField_confidence_failed (analysis : CommitAnalysis)
  (value : gostring) :
  Fmt.SscanfInt value = None ->
  setField analysis (str "confidence") value = analysis.
Proof.
  intros Hnone. destruct analysis. cbv [setField]. cbn. rewrite Hnone.
  reflexivity.
Qed.

(** Only the key [confidence] touches the confidence. *)
Lemma setField_other_key (analysis : CommitAnalysis) (key value : gostring) :
  key <> str "confidence" ->
  Confidence (setField analysis key value) = Confidence analysis.
Proof.
  intros Hkey. unfold setField.
  repeat match goal with
         | |- context [eqs key ?k] =>
             let E := fresh "E" in
             destruct (eqs key k) eqn:E;
             [first [reflexivity | apply eqs_true in E; contradiction]|]
         end.
  reflexivity.
Qed.

Lemma confidence_untouched (pairs : list gostring)
  (analysis : CommitAnalysis) :
  (forall pair value,
      In pair pairs -> keyValue pair = Some (str "confidence", value) ->
      forall n, ~ integerPrefix value n) ->
  Confidence (fold_left parsePair pairs analysis) = Confidence analysis.
Proof.
  revert analysis. induction pairs as [|pair pairs IH]; intros analysis Hno.
  - reflexivity.
  - cbn [fold_left]. rewrite IH.
    + unfold parsePair.
      destruct (keyValue pair) as [[key value]|] eqn:Hkv; [|reflexivity].
      destruct (eqs key (str "confidence")) eqn:Hkey.
      * apply eqs_true in Hkey. subst key.
        rewrite setField_confidence_failed; [reflexivity|].
        apply SscanfInt_none. apply (Hno pair value); [left; reflexivity|].
        assumption.
      * apply setField_other_key. apply eqs_false. assumption.
    + intros p v Hp. apply Hno. right. assumption.
Qed.

(** *** The member a pair stands for *)

Lemma cutFirst_first (k rest acc : gostring) :
  ~ In ":"%char k ->
  cutFirst (k ++ ":"%char :: rest) ":" acc = [rev acc ++ k; rest].
Proof.
  revert acc. induction k as [|c k IH]; intros acc Hno.
  - cbn [app cutFirst]. rewrite app_nil_r. reflexivity.
  - cbn [app cutFirst]. destruct (Ascii.eqb_spec c ":"%char) as [->|Hne].
    + exfalso. apply Hno. left. reflexivity.
    + rewrite IH by (intros Hin; apply Hno; right; assumption).
      cbn [rev]. rewrite <- app_assoc. reflexivity.
Qed.

Lemma cutFirst_none (s acc : gostring) :
  ~ In ":"%char s -> cutFirst s ":" acc = [rev acc ++ s].
Proof.
  revert acc. induction s as [|c s IH]; intros acc Hno.
  - cbn [cutFirst]. rewrite app_nil_r. reflexivity.
  - cbn [cutFirst]. destruct (Ascii.eqb_spec c ":"%char) as [->|Hne].
    + exfalso. apply Hno. left. reflexivity.
    + rewrite IH by (intros Hin; apply Hno; right; assumption).
      cbn [rev]. rewrite <- app_assoc. reflexivity.
Qed.

Lemma colon_cases (s : gostring) :
  (exists k v, s = k ++ ":"%char :: v /\ ~ In ":"%char k)
  \/ ~ In ":"%char s.
Proof.
  induction s as [|c s IH].
  - right. intros [].
  - destruct (Ascii.eqb_spec c ":"%char) as [->|Hne].
    + left. exists [], s. split; [reflexivity | intros []].
    + destruct IH as [(k & v & -> & Hno)|Hno].
      * left. exists (c :: k), v. split; [reflexivity|].
        intros [Heq|Hin]; [congruence | exact (Hno Hin)].
      * right. intros [Heq|Hin]; [congruence | exact (Hno Hin)].
Qed.

(** The loop body reads off a pair exactly the member it stands for. *)
Lemma keyValue_memberOf (pair key value : gostring) :
  keyValue pair = Some (key, value) <-> memberOf pair key value.
Proof.
  split.
  - intros Hkv. destruct (colon_cases pair) as [(k & v & -> & Hno)|Hno].
    + unfold keyValue, SplitN2 in Hkv. rewrite cutFirst_first in Hkv
        by assumption.
      cbn [rev app] in Hkv. inversion Hkv; subst.
      exists k, v. repeat split; assumption.
    + unfold keyValue, SplitN2 in Hkv. rewrite cutFirst_none in Hkv
        by assumption.
      discriminate Hkv.
  - intros (k & v & -> & Hno & -> & ->).
    unfold keyValue, SplitN2. rewrite cutFirst_first by assumption.
    reflexivity.
Qed.

(** *** A field of the verdict, read off the pairs *)

Section Field.

Context {T : Type}.
Variable f : CommitAnalysis -> T.
Variable K : gostring.
Variable P : gostring -> Prop.
Variable g : gostring -> T.

Hypothesis other_key :
  forall a key value, key <> K -> f (setField a key value) = f a.
Hypothesis stored :
  forall a value, P value -> f (setField a K value) = g value.
Hypothesis kept :
  forall a value, ~ P value -> f (setField a K value) = f a.

Lemma parsePair_keeps (a : CommitAnalysis) (pair : gostring) :
  (forall value, memberOf pair K value -> ~ P value) ->
  f (parsePair a pair) = f a.
Proof.
  intros Hno. unfold parsePair.
  destruct (keyValue pair) as [[key value]|] eqn:Hkv; [|reflexivity].
  destruct (eqs key K) eqn:Hkey.
  - apply eqs_true in Hkey. subst key. apply kept. apply Hno.
    apply keyValue_memberOf. assumption.
  - apply other_key. apply eqs_false. assumption.
Qed.

Lemma fold_keeps (pairs : list gostring) (a : CommitAnalysis) :
  noMember P pairs K -> f (fold_left parsePair pairs a) = f a.
Proof.
  revert a. induction pairs as [|pair pairs IH]; intros a Hno.
  - reflexivity.
  - cbn [fold_left]. rewrite IH.
    + apply parsePair_keeps. intros value. apply Hno. left. reflexivity.
    + intros p v Hp. apply Hno. right. assumption.
Qed.

Lemma fold_last (pairs : list gostring) (a : CommitAnalysis)
  (value : gostring) :
  lastMember P pairs K value -> f (fold_left parsePair pairs a) = g value.
Proof.
  intros (before & pair & after & -> & Hmember & HP & Hafter).
  rewrite fold_left_app. cbn [fold_left].
  rewrite fold_keeps by exact Hafter.
  unfold parsePair. apply keyValue_memberOf in Hmember. rewrite Hmember.
  apply stored. assumption.
Qed.

End Field.

(** Either some pair stands for a member with the key, or none does. *)
Lemma last_or_none (pairs : list gostring) (K : gostring) :
  (exists value, lastMember anyValue pairs K value)
  \/ noMember anyValue pairs K.
Proof.
  induction pairs as [|pair pairs IH] using rev_ind.
  - right. intros pair value [].
  - assert (Hcase : (exists value, memberOf pair K value)
                    \/ forall value, ~ memberOf pair K value).
    { destruct (keyValue pair) as [[key value]|] eqn:Hkv.
      - destruct (eqs key K) eqn:Hkey.
        + apply eqs_true in Hkey. subst key. left. exists value.
          apply keyValue_memberOf. assumption.
        + apply eqs_false in Hkey. right. intros value' Hm.
          apply keyValue_memberOf in Hm. rewrite Hkv in Hm.
          inversion Hm. congruence.
      - right. intros value' Hm. apply keyValue_memberOf in Hm.
        rewrite Hkv in Hm. discriminate Hm. }
    destruct Hcase as [(value & Hm)|Hnot].
    + left. exists value, pairs, pair, []. repeat split.
      * assumption.
      * intros pair' value' [].
    + destruct IH as [(v & before & p & after & -> & Hm & HP & Hafter)|Hno].
      * left. exists v, before, p, (after ++ [pair]).
        rewrite <- app_assoc. repeat split; try assumption.
        intros pair' value' Hin Hm'. apply in_app_or in Hin.
        destruct Hin as [Hin|[<-|[]]];
          [exact (Hafter pair' value' Hin Hm') | destruct (Hnot _ Hm')].
      * right. intros pair' value' Hin Hm'. apply in_app_or in Hin.
        destruct Hin as [Hin|[<-|[]]];
          [exact (Hno pair' value' Hin Hm') | destruct (Hnot _ Hm')].
Qed.

(** *** What the [switch] statement leaves alone *)

Ltac other_key :=
  let Hkey := fresh "Hkey" in
  intros ? ? ? Hkey; unfold setField;
  repeat match goal with
         | |- context [eqs ?key ?k] =>
             let E := fresh "E" in
             destruct (eqs key k) eqn:E;
             [first [reflexivity | apply eqs_true in E; contradiction]|]
         end;
  reflexivity.

Lemma CommitHash_other_key (a : CommitAnalysis) (key value : gostring) :
  key <> str "commit_hash" -> CommitHash (setField a key value) = CommitHash a.
Proof. revert a key value. other_key. Qed.

Lemma CommitMsg_other_key (a : CommitAnalysis) (key value : gostring) :
  key <> str "commit_message" -> CommitMsg (setField a key value) = CommitMsg a.
Proof. revert a key value. other_key. Qed.

Lemma Author_other_key (a : CommitAnalysis) (key value : gostring) :
  key <> str "author" -> Author (setField a key value) = Author a.
Proof. revert a key value. other_key. Qed.

Lemma Date_other_key (a : CommitAnalysis) (key value : gostring) :
  key <> str "date" -> Date (setField a key value) = Date a.
Proof. revert a key value. other_key. Qed.

Lemma Explanation_other_key (a : CommitAnalysis) (key value : gostring) :
  key <> str "explanation" ->
  Explanation (setField a key value) = Explanation a.
Proof. revert a key value. other_key. Qed.

Lemma IsLikely_other_key (a : CommitAnalysis) (key value : gostring) :
  key <> str "is_likely" -> IsLikely (setField a key value) = IsLikely a.
Proof. revert a key value. other_key. Qed.

Lemma anyValue_kept {T : Type} (f : CommitAnalysis -> T) (K : gostring)
  (a : CommitAnalysis) (value : gostring) :
  ~ anyValue value -> f (setField a K value) = f a.
Proof. intros Hnot. destruct (Hnot I). Qed.

(** A text field is the value of the last member with its key. *)
Lemma text_field (key : gostring) (field : CommitAnalysis -> gostring)
  (pairs : list gostring) :
  In (key, field) textFields ->
  (forall value,
      lastMember anyValue pairs key value ->
      field (fold_left parsePair pairs zeroAnalysis) = value)
  /\ (noMember anyValue pairs key ->
      field (fold_left parsePair pairs zeroAnalysis) = []).
Proof.
  intros Hin.
  assert (Hfield : (forall a k v, k <> key -> field (setField a k v) = field a)
                   /\ (forall a v, field (setField a key v) = v)
                   /\ field zeroAnalysis = []).
  { cbn in Hin.
    destruct Hin as [Heq|[Heq|[Heq|[Heq|[Heq|[]]]]]]; inversion Heq; subst;
      (split; [|split; [intros a v; reflexivity | reflexivity]]).
    - exact CommitHash_other_key.
    - exact CommitMsg_other_key.
    - exact Author_other_key.
    - exact Date_other_key.
    - exact Explanation_other_key. }
  destruct Hfield as (Hother & Hstored & Hzero). split.
  - intros value Hlast.
    apply (fold_last field key anyValue (fun v => v) Hother
             (fun a v _ => Hstored a v) (anyValue_kept field key)
             pairs zeroAnalysis value Hlast).
  - intros Hno.
    rewrite (fold_keeps field key anyValue Hother (anyValue_kept field key)
               pairs zeroAnalysis Hno).
    exact Hzero.
Qed.

Lemma likely_field (pairs : list gostring) :
  IsLikely (fold_left parsePair pairs zeroAnalysis) = true
  <-> lastMember anyValue pairs (str "is_likely") (str "true").
Proof.
  split.
  - intros Htrue.
    destruct (last_or_none pairs (str "is_likely")) as [(value & Hlast)|Hno].
    + rewrite (fold_last IsLikely _ anyValue
                 (fun v => eqs v (str "true")) IsLikely_other_key
                 (fun a v _ => setField_is_likely a v)
                 (anyValue_kept IsLikely _) pairs zeroAnalysis
                 value Hlast) in Htrue.
      apply eqs_true in Htrue. subst value. exact Hlast.
    + rewrite (fold_keeps IsLikely _ anyValue IsLikely_other_key
                 (anyValue_kept IsLikely _) pairs zeroAnalysis Hno) in Htrue.
      discriminate Htrue.
  - intros Hlast.
    rewrite (fold_last IsLikely _ anyValue
               (fun v => eqs v (str "true")) IsLikely_other_key
               (fun a v _ => setField_is_likely a v)
               (anyValue_kept IsLikely _) pairs zeroAnalysis
               _ Hlast).
    apply eqs_refl.
Qed.

Lemma confidence_stored (a : CommitAnalysis) (value : gostring) :
  numeric value ->
  Confidence (setField a (str "confidence") value)
  = match Fmt.SscanfInt value with
    | Some n => n
    | None => 0
    end.
Proof.
  intros (n & Hn). rewrite setField_confidence.
  apply SscanfInt_prefix in Hn. rewrite Hn. reflexivity.
Qed.

Lemma confidence_kept (a : CommitAnalysis) (value : gostring) :
  ~ numeric value ->
  Confidence (setField a (str "confidence") value) = Confidence a.
Proof.
  intros Hnot. rewrite setField_confidence_failed; [reflexivity|].
  apply SscanfInt_none. intros n Hn. apply Hnot. exists n. assumption.
Qed.

Lemma confidence_field (pairs : list gostring) :
  (forall value n,
      lastMember numeric pairs (str "confidence") value ->
      integerPrefix value n ->
      Confidence (fold_left parsePair pairs zeroAnalysis) = n)
  /\ (noMember numeric pairs (str "confidence") ->
      Confidence (fold_left parsePair pairs zeroAnalysis) = 0).
Proof.
  split.
  - intros value n Hlast Hn.
    rewrite (fold_last Confidence _ numeric
               (fun v => match Fmt.SscanfInt v with
                         | Some n => n
                         | None => 0
                         end)
               (fun a key v Hkey => setField_other_key a key v Hkey)
               confidence_stored confidence_kept pairs zeroAnalysis
               value Hlast).
    apply SscanfInt_prefix in Hn. rewrite Hn. reflexivity.
  - intros Hno.
    rewrite (fold_keeps Confidence _ numeric
               (fun a key v Hkey => setField_other_key a key v Hkey)
               confidence_kept pairs zeroAnalysis Hno).
    reflexivity.
Qed.

(** A pair that stands for no member with a recognized key can be left
    out. *)
Lemma unrecognized_pair_dropped (before after : list gostring)
  (pair : gostring) (a : CommitAnalysis) :
  (forall key value, memberOf pair key value -> ~ In key recognizedKeys) ->
  fold_left parsePair (before ++ pair :: after) a
  = fold_left parsePair (before ++ after) a.
Proof.
  intros Hno. rewrite !fold_left_app. cbn [fold_left]. f_equal.
  unfold parsePair.
  destruct (keyValue pair) as [[key value]|] eqn:Hkv; [|reflexivity].
  apply setField_unrecognized. apply (Hno key value).
  apply keyValue_memberOf. assumption.
Qed.

End Parse.

(** ** The claims on reading the payload *)

Import Reading.

(** C6, as stated, fails: a confidence value that is not a number does
    not yield confidence 0 when an earlier member of the payload gave a
    number; the number stays. *)
Lemma non_numeric_confidence_keeps_earlier_number :
  ~ (forall pair value,
        In pair (pairsOf (json "{'confidence': 85, 'confidence': 'high'}")) ->
        memberOf pair (str "confidence") value ->
        (forall n, ~ integerPrefix value n) ->
        Confidence
          (parseAnalysis (json "{'confidence': 85, 'confidence': 'high'}"))
        = 0).
Proof.
  intros Hclaim.
  specialize (Hclaim (json "'confidence': 'high'") (str "high")).
  assert (Hkept : Confidence
                    (parseAnalysis
                       (json "{'confidence': 85, 'confidence': 'high'}"))
                  = 85) by (vm_compute; reflexivity).
  rewrite Hkept in Hclaim.
  assert (Hzero : 85 = 0); [|discriminate Hzero].
  apply Hclaim.
  - assert (Hpairs : pairsOf (json "{'confidence': 85, 'confidence': 'high'}")
                     = [json "'confidence': 85"; json "'confidence': 'high'"])
      by (vm_compute; reflexivity).
    rewrite Hpairs. right. left. reflexivity.
  - apply Parse.keyValue_memberOf. vm_compute. reflexivity.
  - apply FmtFacts.SscanfInt_none. vm_compute. reflexivity.
Qed.

(** C6, amended.  Reading a payload never fails, and every field of the
    verdict is read off the pairs into which the payload, without the
    white space and the braces around it, is split:
    - each of the five text fields is the unquoted value of the last
      member with its key, and empty when there is none;
    - the flag is true exactly when the last member with the key
      [is_likely] has, unquoted, the value [true];
    - the confidence is the integer with which the value of the last
      member with the key [confidence] that begins with an integer
      begins, and 0 when no such member begins with one: a value that is
      not a number leaves the confidence as it was;
    - a pair that stands for no member with one of the seven keys can be
      left out without changing the verdict;
    - the task of a commit record that reaches the oracle returns, for a
      non-empty payload, this verdict and no error. *)
Theorem verdict_read_off_last_members (payload : gostring) :
  (forall key field,
      In (key, field) textFields ->
      (forall value,
          lastMember anyValue (pairsOf payload) key value ->
          field (parseAnalysis payload) = value)
      /\ (noMember anyValue (pairsOf payload) key ->
          field (parseAnalysis payload) = []))
  /\ (IsLikely (parseAnalysis payload) = true
      <-> lastMember anyValue (pairsOf payload) (str "is_likely") (str "true"))
  /\ (forall value n,
         lastMember numeric (pairsOf payload) (str "confidence") value ->
         integerPrefix value n ->
         Confidence (parseAnalysis payload) = n)
  /\ (noMember numeric (pairsOf payload) (str "confidence") ->
      Confidence (parseAnalysis payload) = 0)
  /\ (forall before pair after,
         pairsOf payload = before ++ pair :: after ->
         (forall key value,
             memberOf pair key value -> ~ In key recognizedKeys) ->
         parseAnalysis payload
         = fold_left parsePair (before ++ after) zeroAnalysis)
  /\ (forall commit messages,
         wellFormedCommit commit ->
         extractJSON messages = Done payload ->
         payload <> [] ->
         AnalyzeSingleCommit commit (QueryOk messages)
         = Done (Some (parseAnalysis payload), None)).
Proof.
  change (parseAnalysis payload)
    with (fold_left parsePair (pairsOf payload) zeroAnalysis).
  split; [|split; [|split; [|split; [|split]]]].
  - intros key field Hin. apply Parse.text_field. assumption.
  - apply Parse.likely_field.
  - apply Parse.confidence_field.
  - apply Parse.confidence_field.
  - intros before pair after Hpairs Hno. rewrite Hpairs.
    apply Parse.unrecognized_pair_dropped. assumption.
  - intros commit messages Hcommit Hfound Hne.
    rewrite Locate.AnalyzeSingleCommit_wellFormed by assumption.
    rewrite Hfound. cbn [bind].
    rewrite (proj2 (StringsFacts.eqs_false payload []) Hne). reflexivity.
Qed.

Example is_likely_bare_true :
  IsLikely (parsePair zeroAnalysis (json "'is_likely': true")) = true.
Proof. reflexivity. Qed.

Example is_likely_quoted_true :
  IsLikely (parsePair zeroAnalysis (json "'is_likely': 'true'")) = true.
Proof. reflexivity. Qed.

Example is_likely_capitalised :
  IsLikely (parsePair (verdict "aaaaaaaa" true 0) (json "'is_likely': True"))
  = false.
Proof. reflexivity. Qed.

Example is_likely_quoted_false :
  IsLikely (parsePair (verdict "aaaaaaaa" true 0)
              (json "'is_likely': 'false'"))
  = false.
Proof. reflexivity. Qed.

Example confidence_integer_prefix :
  Confidence (parseAnalysis (json "{'confidence': 85%, 'note': 1}")) = 85.
Proof. reflexivity. Qed.

Example confidence_non_numeric :
  parseAnalysis (json "{'commit_hash': 'abc', 'confidence': 'high', 'extra': [1, 2]}")
  = {| CommitHash := str "abc"; CommitMsg := []; Author := []; Date := [];
       Explanation := []; IsLikely := false; Confidence := 0 |}.
Proof. reflexivity. Qed.

Example confidence_kept_from_earlier_member :
  parseAnalysis (json "{'confidence': 85, 'confidence': 'high'}")
  = {| CommitHash := []; CommitMsg := []; Author := []; Date := [];
       Explanation := []; IsLikely := false; Confidence := 85 |}.
Proof. reflexivity. Qed.

Lemma verdict_read_off_last_members_witness :
  CommitHash
    (parseAnalysis
       (json "{'commit_hash': 'abc', 'severity': 'high', 'is_likely': 'true', 'confidence': 85%, 'confidence': 'high'}"))
  = str "abc"
  /\ IsLikely
       (parseAnalysis
          (json "{'commit_hash': 'abc', 'severity': 'high', 'is_likely': 'true', 'confidence': 85%, 'confidence': 'high'}"))
     = true
  /\ Confidence
       (parseAnalysis
          (json "{'commit_hash': 'abc', 'severity': 'high', 'is_likely': 'true', 'confidence': 85%, 'confidence': 'high'}"))
     = 85
  /\ parseAnalysis
       (json "{'commit_hash': 'abc', 'severity': 'high', 'is_likely': 'true', 'confidence': 85%, 'confidence': 'high'}")
     = fold_left parsePair
         ([json "'commit_hash': 'abc'"]
          ++ [json "'is_likely': 'true'"; json "'confidence': 85%";
              json "'confidence': 'high'"])
         zeroAnalysis.
Proof.
  destruct (verdict_read_off_last_members
              (json "{'commit_hash': 'abc', 'severity': 'high', 'is_likely': 'true', 'confidence': 85%, 'confidence': 'high'}"))
    as (Htext & Hlikely & Hconfidence & _ & Hdrop & _).
  assert (Hpairs :
            pairsOf (json "{'commit_hash': 'abc', 'severity': 'high', 'is_likely': 'true', 'confidence': 85%, 'confidence': 'high'}")
            = [json "'commit_hash': 'abc'"; json "'severity': 'high'";
               json "'is_likely': 'true'"; json "'confidence': 85%";
               json "'confidence': 'high'"])
    by (vm_compute; reflexivity).
  rewrite Hpairs in Htext, Hlikely, Hconfidence, Hdrop.
  assert (Hhash : keyValue (json "'commit_hash': 'abc'")
                  = Some (str "commit_hash", str "abc"))
    by (vm_compute; reflexivity).
  assert (Hseverity : keyValue (json "'severity': 'high'")
                      = Some (str "severity", str "high"))
    by (vm_compute; reflexivity).
  assert (Hflag : keyValue (json "'is_likely': 'true'")
                  = Some (str "is_likely", str "true"))
    by (vm_compute; reflexivity).
  assert (Hnumber : keyValue (json "'confidence': 85%")
                    = Some (str "confidence", str "85%"))
    by (vm_compute; reflexivity).
  assert (Hword : keyValue (json "'confidence': 'high'")
                  = Some (str "confidence", str "high"))
    by (vm_compute; reflexivity).
  assert (Hscan : Fmt.SscanfInt (str "85%") = Some 85)
    by (vm_compute; reflexivity).
  assert (Hfail : Fmt.SscanfInt (str "high") = None)
    by (vm_compute; reflexivity).
  split; [|split; [|split]].
  - apply (proj1 (Htext (str "commit_hash") CommitHash
                    (or_introl eq_refl))).
    exists [], (json "'commit_hash': 'abc'"),
      [json "'severity': 'high'"; json "'is_likely': 'true'";
       json "'confidence': 85%"; json "'confidence': 'high'"].
    split; [reflexivity|]. split; [|split; [exact I|]].
    + apply Parse.keyValue_memberOf. exact Hhash.
    + intros pair' value' Hin Hm _. apply Parse.keyValue_memberOf in Hm.
      cbn [In] in Hin.
      destruct Hin as [<-|[<-|[<-|[<-|[]]]]];
        [rewrite Hseverity in Hm | rewrite Hflag in Hm
        | rewrite Hnumber in Hm | rewrite Hword in Hm];
        discriminate Hm.
  - apply Hlikely.
    exists [json "'commit_hash': 'abc'"; json "'severity': 'high'"],
      (json "'is_likely': 'true'"),
      [json "'confidence': 85%"; json "'confidence': 'high'"].
    split; [reflexivity|]. split; [|split; [exact I|]].
    + apply Parse.keyValue_memberOf. exact Hflag.
    + intros pair' value' Hin Hm _. apply Parse.keyValue_memberOf in Hm.
      cbn [In] in Hin.
      destruct Hin as [<-|[<-|[]]];
        [rewrite Hnumber in Hm | rewrite Hword in Hm]; discriminate Hm.
  - apply (Hconfidence (str "85%")).
    + exists [json "'commit_hash': 'abc'"; json "'severity': 'high'";
              json "'is_likely': 'true'"],
        (json "'confidence': 85%"), [json "'confidence': 'high'"].
      split; [reflexivity|]. split; [|split].
      * apply Parse.keyValue_memberOf. exact Hnumber.
      * exists 85. apply FmtFacts.SscanfInt_prefix. exact Hscan.
      * intros pair' value' Hin Hm (n & Hn). cbn [In] in Hin.
        destruct Hin as [<-|[]].
        apply Parse.keyValue_memberOf in Hm. rewrite Hword in Hm.
        assert (Hvalue : str "high" = value') by congruence.
        apply FmtFacts.SscanfInt_prefix in Hn.
        rewrite <- Hvalue, Hfail in Hn. discriminate Hn.
    + apply FmtFacts.SscanfInt_prefix. exact Hscan.
  - apply (Hdrop [json "'commit_hash': 'abc'"] (json "'severity': 'high'")).
    + reflexivity.
    + intros key value Hm Hin. apply Parse.keyValue_memberOf in Hm.
      rewrite Hseverity in Hm.
      assert (Hkey : str "severity" = key) by congruence.
      rewrite <- Hkey in Hin. cbn in Hin.
      repeat (destruct Hin as [Hin|Hin]; [discriminate Hin|]). exact Hin.
Defined.

(** C7.  The confidence the oracle states is stored as it is: a value
    outside 0..100 is neither clamped nor replaced by 0. *)
Theorem confidence_outside_range_is_kept :
  AnalyzeSingleCommit (str "1a2b3c4d|Ann|2024-01-01|fix")
    (QueryOk [[TextBlock (json "{'is_likely': true, 'confidence': 150}")]])
  = Done (Some {| CommitHash := []; CommitMsg := []; Author := [];
                  Date := []; Explanation := []; IsLikely := true;
                  Confidence := 150 |}, None)
  /\ AnalyzeSingleCommit (str "1a2b3c4d|Ann|2024-01-01|fix")
       (QueryOk [[TextBlock (json "{'is_likely': true, 'confidence': -5}")]])
     = Done (Some {| CommitHash := []; CommitMsg := []; Author := [];
                     Date := []; Explanation := []; IsLikely := true;
                     Confidence := -5 |}, None).
Proof. split; reflexivity. Qed.

(** Such a verdict is then selected like any other. *)
Example confidence_outside_range_wins :
  AnalyzeBugInCommits 2
    [arrived (verdict "aaaaaaaa" true 100); arrived (verdict "bbbbbbbb" true 150)]
  = Some (Some (verdict "bbbbbbbb" true 150), None).
Proof. reflexivity. Qed.

(** C8.  A quotation mark that follows a backslash never toggles
    [inQuotes], also when the backslash is itself escaped: after a value
    that ends in an escaped backslash the scanner is out of step, and the
    comma inside the next quoted value splits the pair. *)
Theorem comma_in_quoted_value_splits_after_escaped_backslash :
  splitJSONPairs
    (json "'commit_message': 'fix C:\\', 'explanation': 'fixed bug, added test'")
  = [json "'commit_message': 'fix C:\\', 'explanation': 'fixed bug";
     json "added test'"].
Proof. reflexivity. Qed.

(** The verdict read off such a payload: the explanation, the flag and
    the confidence are lost. *)
Example verdict_after_escaped_backslash :
  parseAnalysis
    (json "{'commit_hash': 'abc', 'commit_message': 'fix C:\\', 'explanation': 'fixed bug, added test', 'is_likely': true, 'confidence': 90}")
  = {| CommitHash := str "abc";
       CommitMsg := json "fix C:\\', 'explanation': 'fixed bug";
       Author := []; Date := []; Explanation := []; IsLikely := false;
       Confidence := 0 |}.
Proof. reflexivity. Qed.

(** Without the backslash the same pairs are split as intended. *)
Example comma_in_quoted_value_kept :
  splitJSONPairs
    (json "'commit_message': 'fix C:', 'explanation': 'fixed bug, added test', 'files': [1, 2]")
  = [json "'commit_message': 'fix C:'";
     json "'explanation': 'fixed bug, added test'";
     json "'files': [1, 2]"].
Proof. reflexivity. Qed.

(** ** What the fan-out guarantees when no goroutine panics, and in
    general up to a crash *)

Module FanOutFacts.

Import FanOut.

Section Run.

Variable commits : list gostring.
Variable reply : nat -> QueryResult.

Lemma remove_one (i : nat) (l : list nat) :
  NoDup l -> In i l -> Permutation l (i :: remove Nat.eq_dec i l).
Proof.
  induction 1 as [|x l Hx Hnd IH]; intros Hin; [destruct Hin|].
  cbn [remove]. destruct (Nat.eq_dec i x) as [->|Hne].
  - rewrite notin_remove by assumption. reflexivity.
  - destruct Hin as [->|Hin]; [congruence|].
    rewrite perm_swap. constructor. apply IH. assumption.
Qed.

Lemma accounted_lengths (w : world) :
  accounted commits reply w ->
  (List.length (observed w) + List.length (resultChan w)
   + List.length (pending w) = totalCommits commits)%nat.
Proof.
  intros (senders & Hperm & Hsent).
  apply Permutation_length in Hperm. apply Forall2_length in Hsent.
  rewrite length_app in Hperm, Hsent. rewrite length_seq in Hperm.
  lia.
Qed.

Lemma accounted_pending_NoDup (w : world) :
  accounted commits reply w -> NoDup (pending w).
Proof.
  intros (senders & Hperm & _).
  assert (Hnd : NoDup (senders ++ pending w)).
  { apply (Permutation_NoDup (Permutation_sym Hperm)). apply seq_NoDup. }
  apply NoDup_app_remove_l in Hnd. assumption.
Qed.

(** Every step keeps the books. *)
Lemma step_consistent (w w' : world) :
  consistent commits reply w -> step commits reply w w' ->
  consistent commits reply w'.
Proof.
  intros (Hacc & Hcompleted & Hanalyses & Hcoord) Hstep.
  destruct Hstep as [w i result Halive Hin Hdone Hroom|w i Halive Hin Hpanic
                    |w result buffered Hdraining Hless Hchan
                    |w err Hdraining Hless|w Hdraining Hexit];
    unfold consistent, accounted, cancelled in *;
    cbn [pending resultChan observed completed analyses coord] in *.
  - repeat split; try assumption.
    destruct Hacc as (senders & Hperm & Hsent).
    exists (senders ++ [i]). split.
    + rewrite <- app_assoc. cbn [app].
      rewrite <- Hperm. apply Permutation_app_head. symmetry.
      apply remove_one; [|assumption].
      apply accounted_pending_NoDup. exists senders. split; assumption.
    + rewrite app_assoc. apply Forall2_app; [assumption|].
      constructor; [assumption | constructor].
  - repeat split; assumption.
  - repeat split.
    + destruct Hacc as (senders & Hperm & Hsent). exists senders.
      split; [assumption|]. rewrite <- app_assoc. cbn [app].
      rewrite <- Hchan. assumption.
    + rewrite length_app. cbn [List.length]. lia.
    + rewrite fold_left_app. cbn [fold_left]. rewrite Hanalyses. reflexivity.
  - repeat split; try assumption. left. exists err. reflexivity.
  - repeat split; try assumption. right. split; [|reflexivity].
    pose proof (accounted_lengths w Hacc) as Hlen.
    cbn [pending resultChan observed] in Hlen. lia.
Qed.

Lemma reachable_consistent (w : world) :
  reachable commits reply w -> consistent commits reply w.
Proof.
  induction 1 as [|w w' _ IH Hstep].
  - unfold consistent, accounted, initial.
    cbn [pending resultChan observed completed analyses coord].
    repeat split; try reflexivity.
    exists []. split; [reflexivity | constructor].
  - exact (step_consistent w w' IH Hstep).
Qed.

(** The channel has room for every goroutine that has not sent yet: a
    send never blocks. *)
Lemma send_never_blocks (w : world) (i : nat) :
  reachable commits reply w -> In i (pending w) ->
  (List.length (resultChan w) < totalCommits commits)%nat.
Proof.
  intros Hreach Hin.
  destruct (reachable_consistent w Hreach) as (Hacc & _).
  pose proof (accounted_lengths w Hacc) as Hlen.
  destruct (pending w); [destruct Hin|]. cbn [List.length] in Hlen. lia.
Qed.

(** No goroutine is accounted for twice. *)
Lemma no_duplicate_outcome (w : world) :
  reachable commits reply w ->
  exists senders,
    NoDup senders
    /\ Forall2 (fun i result => task commits reply i = Done result)
         senders (observed w ++ resultChan w).
Proof.
  intros Hreach.
  destruct (reachable_consistent w Hreach) as ((senders & Hperm & Hsent) & _).
  exists senders. split; [|assumption].
  assert (Hnd : NoDup (senders ++ pending w)).
  { apply (Permutation_NoDup (Permutation_sym Hperm)). apply seq_NoDup. }
  apply NoDup_app_remove_r in Hnd. assumption.
Qed.

(** When the call returns other than through [ctx.Done()], the loop has
    received the outcome of every goroutine, each once, nothing is
    pending or buffered, and the result is the one [AnalyzeBugInCommits]
    computes from the outcomes in the order of their arrival. *)
Lemma selection_after_all_outcomes (w : world)
  (r : option CommitAnalysis * option error) :
  reachable commits reply w -> coord w = Returned r ->
  ~ cancelled w ->
  pending w = [] /\ resultChan w = []
  /\ (exists senders,
         Permutation senders (seq 0 (totalCommits commits))
         /\ Forall2 (fun i result => task commits reply i = Done result)
              senders (observed w))
  /\ AnalyzeBugInCommits (totalCommits commits) (map Received (observed w)) = Some r.
Proof.
  intros Hreach Hret Hnot.
  destruct (reachable_consistent w Hreach)
    as (Hacc & Hcompleted & Hanalyses & Hcoord).
  rewrite Hret in Hcoord. destruct Hcoord as [Hc|(Hall & Hr)]; [contradiction|].
  pose proof (accounted_lengths w Hacc) as Hlen.
  assert (Hp : pending w = []) by (destruct (pending w); [reflexivity|simpl in Hlen; lia]).
  assert (Hc : resultChan w = []) by (destruct (resultChan w); [reflexivity|simpl in Hlen; lia]).
  repeat split; try assumption.
  - destruct Hacc as (senders & Hperm & Hsent). exists senders.
    rewrite Hp, Hc, !app_nil_r in *. split; assumption.
  - unfold AnalyzeBugInCommits.
    rewrite <- (app_nil_r (map Received (observed w))).
    rewrite Drain.drain_received by (cbn; lia).
    rewrite <- Hanalyses, Hr. reflexivity.
Qed.

(** Every step uses up the bound: no run goes on for ever. *)
Lemma step_decreases (w w' : world) :
  step commits reply w w' -> (stepsLeft w' < stepsLeft w)%nat.
Proof.
  intros Hstep.
  destruct Hstep as [w i result Halive Hin Hdone Hroom|w i Halive Hin Hpanic
                    |w result buffered Hdraining Hless Hchan
                    |w err Hdraining Hless|w Hdraining Hexit];
    unfold stepsLeft; cbn [pending resultChan coord].
  - pose proof (remove_length_lt Nat.eq_dec (pending w) i Hin) as Hlt.
    rewrite length_app. cbn [List.length]. lia.
  - destruct (coord w); [lia | lia | congruence].
  - rewrite Hchan, Hdraining. cbn [List.length]. lia.
  - rewrite Hdraining. lia.
  - rewrite Hdraining. lia.
Qed.

(** Without a panicking goroutine the process never crashes. *)
Lemma no_panic_no_crash (w : world) :
  (forall i, (i < totalCommits commits)%nat -> task commits reply i <> Panic) ->
  reachable commits reply w -> coord w <> Crashed.
Proof.
  intros Hsafe Hreach.
  induction Hreach as [|w w' Hreach IH Hstep]; [discriminate|].
  destruct Hstep as [w i result Halive Hin Hdone Hroom|w i Halive Hin Hpanic
                    |w result buffered Hdraining Hless Hchan
                    |w err Hdraining Hless|w Hdraining Hexit];
    cbn [coord]; try assumption; try discriminate.
  exfalso. apply (Hsafe i); [|assumption].
  destruct (reachable_consistent w Hreach) as ((senders & Hperm & _) & _).
  assert (Hi : In i (seq 0 (totalCommits commits))).
  { apply (Permutation_in _ Hperm). apply in_or_app. right. assumption. }
  apply in_seq in Hi. lia.
Qed.

End Run.

End FanOutFacts.

(** ** The fan-out *)

Import FanOut.

(** C4.  A commit record with its four fields and a hash of fewer than
    eight bytes makes its goroutine panic at [commitHash[:8]] before
    anything is sent: the task has no outcome, the channel stays empty,
    the loop never receives a result nor reaches the selection, and the
    process can only be cancelled or crash. *)
Theorem short_hash_yields_no_outcome (reply : nat -> QueryResult) :
  task [str "1a2b3c4|Ann|2024-01-01|fix"] reply 0 = Panic
  /\ (forall w,
         reachable [str "1a2b3c4|Ann|2024-01-01|fix"] reply w ->
         pending w = [0%nat] /\ resultChan w = [] /\ observed w = []
         /\ completed w = 0%nat
         /\ (coord w = Draining \/ coord w = Crashed
             \/ exists err, coord w = Returned (None, Some (ContextError err))))
  /\ reachable [str "1a2b3c4|Ann|2024-01-01|fix"] reply
       {| pending := [0%nat]; resultChan := []; completed := 0%nat;
          analyses := []; observed := []; coord := Crashed |}.
Proof.
  assert (Htask : task [str "1a2b3c4|Ann|2024-01-01|fix"] reply 0 = Panic)
    by reflexivity.
  split; [exact Htask|]. split.
  - intros w Hreach.
    induction Hreach as [|w w' _ (Hp & Hc & Ho & Hn & Hco) Hstep].
    + cbn. repeat split; auto.
    + destruct Hstep as [w i result _ Hin Hdone _|w i _ Hin _
                        |w result buffered _ _ Hchan|w err _ _|w _ Hexit];
        cbn [pending resultChan observed completed coord].
      * rewrite Hp in Hin. destruct Hin as [<-|[]]. congruence.
      * repeat split; auto.
      * congruence.
      * repeat split; eauto.
      * exfalso. apply Hexit. rewrite Hn. cbv. lia.
  - eapply reach_step; [apply reach_initial|].
    apply (task_panic _ reply (initial [str "1a2b3c4|Ann|2024-01-01|fix"]) 0%nat).
    + discriminate.
    + left. reflexivity.
    + exact Htask.
Qed.

(** ** The end-to-end examples of the specification *)

(** Two candidates, the first not likely with confidence 10, the second
    likely with confidence 70, whatever the order of arrival. *)
Example end_to_end_likely_wins :
  AnalyzeSingleCommit (str "aaaaaaaa1111|Ann|2024-01-01|refactor")
    (QueryOk [[TextBlock (json "{'commit_hash': 'aaaaaaaa1111', 'is_likely': false, 'confidence': 10}")]])
  = Done (Some (verdict "aaaaaaaa1111" false 10), None)
  /\ AnalyzeSingleCommit (str "bbbbbbbb2222|Bob|2024-01-02|cache")
       (QueryOk [[TextBlock (json "```json {'commit_hash': 'bbbbbbbb2222', 'is_likely': true, 'confidence': 70} ```")]])
     = Done (Some (verdict "bbbbbbbb2222" true 70), None)
  /\ AnalyzeBugInCommits 2
       [arrived (verdict "aaaaaaaa1111" false 10);
        arrived (verdict "bbbbbbbb2222" true 70)]
     = Some (Some (verdict "bbbbbbbb2222" true 70), None)
  /\ AnalyzeBugInCommits 2
       [arrived (verdict "bbbbbbbb2222" true 70);
        arrived (verdict "aaaaaaaa1111" false 10)]
     = Some (Some (verdict "bbbbbbbb2222" true 70), None).
Proof. repeat split; reflexivity. Qed.

(** Two candidates, neither likely, confidences 30 and 55. *)
Example end_to_end_fallback :
  AnalyzeBugInCommits 2
    [arrived (verdict "aaaaaaaa1111" false 30);
     arrived (verdict "bbbbbbbb2222" false 55)]
  = Some (Some (verdict "bbbbbbbb2222" false 55), None).
Proof. reflexivity. Qed.

(** Three candidates, two of which fail. *)
Example end_to_end_one_success :
  AnalyzeSingleCommit (str "aaaaaaaa1111|Ann|2024-01-01|refactor")
    (QueryErr (str "exit status 1"))
  = Done (None, Some (AnalysisError (str "exit status 1")))
  /\ AnalyzeBugInCommits 3
       [failed "aaaaaaaa1111|Ann|2024-01-01|refactor";
        arrived (verdict "cccccccc3333" true 40);
        failed "bbbbbbbb2222|Bob|2024-01-02|cache"]
     = Some (Some (verdict "cccccccc3333" true 40), None).
Proof. split; reflexivity. Qed.

(** One candidate, answered in plain prose. *)
Example end_to_end_prose :
  AnalyzeSingleCommit (str "aaaaaaaa1111|Ann|2024-01-01|refactor")
    (QueryOk [[TextBlock (str "This commit does not look related.")]])
  = Done (None, Some NoJSONResponse)
  /\ AnalyzeBugInCommits 1 [failed "aaaaaaaa1111|Ann|2024-01-01|refactor"]
     = Some (None, Some NoCommitsAnalyzed).
Proof. split; reflexivity. Qed.

(** A malformed record is a failure of its task alone. *)
Example malformed_record :
  AnalyzeSingleCommit (str "aaaaaaaa1111|Ann|2024-01-01")
    (QueryOk [[TextBlock (str "irrelevant")]])
  = Done (None, Some InvalidCommitFormat).
Proof. reflexivity. Qed.

(* ===================================================================== *)
(** * Further properties of the code *)
(* ===================================================================== *)

(** ** [AnalyzeBugInCommits] as a function of what its loop receives *)

Module DrainFacts.

Import Agent Spec Notions.

Lemma collect_verdictOf (analyses : list CommitAnalysis)
  (result : CommitAnalysisResult) :
  collect analyses result = analyses ++ verdictOf result.
Proof.
  unfold collect, verdictOf.
  destruct (Error result); [symmetry; apply app_nil_r|].
  destruct (Analysis result); [reflexivity | symmetry; apply app_nil_r].
Qed.

Lemma collect_all (results : list CommitAnalysisResult)
  (analyses : list CommitAnalysis) :
  fold_left collect results analyses = analyses ++ flat_map verdictOf results.
Proof.
  revert analyses. induction results as [|r results IH]; intros analyses.
  - symmetry. apply app_nil_r.
  - cbn [fold_left flat_map]. rewrite IH, collect_verdictOf.
    rewrite <- app_assoc. reflexivity.
Qed.

(** How the loop ends, read off the cases that fire. *)
Lemma drain_blocked (totalCommits : nat) (events : list selectCase)
  (completed : nat) (analyses : list CommitAnalysis) :
  (exists gathered,
      drain totalCommits completed events analyses = Blocked gathered)
  <-> (Forall isReceived events
       /\ (completed + List.length events < totalCommits)%nat).
Proof.
  revert completed analyses.
  induction events as [|e events IH]; intros completed analyses;
    cbn [drain List.length].
  - destruct (Nat.ltb_spec completed totalCommits) as [Hlt|Hge].
    + split; [intros _; split; [constructor | lia] | eauto].
    + split; [intros (g & Hg); discriminate | intros (_ & Hlt); lia].
  - destruct (Nat.ltb_spec completed totalCommits) as [Hlt|Hge].
    + destruct e as [result|err].
      * rewrite IH. split.
        -- intros (Hall & Hlen). split; [constructor; [exact I | assumption] | lia].
        -- intros (Hall & Hlen). inversion Hall; subst. split; [assumption | lia].
      * split; [intros (g & Hg); discriminate|].
        intros (Hall & _). inversion Hall as [|x l Hx]. destruct Hx.
    + split; [intros (g & Hg); discriminate | intros (_ & Hlt); lia].
Qed.

(** The choice between two permutations of the collected verdicts. *)
Lemma selectBest_permutation (analyses analyses' : list CommitAnalysis) :
  Permutation analyses analyses' -> noTies analyses ->
  selectBest analyses = selectBest analyses'.
Proof.
  intros Hperm Hties.
  assert (Hin : forall a, In a analyses <-> In a analyses').
  { intros a. split; apply Permutation_in;
      [assumption | apply Permutation_sym; assumption]. }
  destruct (existsb IsLikely analyses) eqn:Hex.
  - apply existsb_exists in Hex.
    assert (Hex' : exists a, In a analyses' /\ IsLikely a = true).
    { destruct Hex as (a & Ha & La). exists a. split; [apply Hin|]; assumption. }
    destruct (Selection.selectBest_likely analyses Hex) as (b & -> & Hb).
    destruct (Selection.selectBest_likely analyses' Hex') as (b' & -> & Hb').
    f_equal. apply Hties.
    + exact (Selection.firstBest_In likely _ _ Hb).
    + apply Hin. exact (Selection.firstBest_In likely _ _ Hb').
    + destruct Hb as (_ & _ & _ & Lb & _). destruct Hb' as (_ & _ & _ & Lb' & _).
      unfold likely in *. congruence.
    + apply Z.le_antisymm.
      * apply (Selection.firstBest_max likely _ _ Hb').
        -- apply Hin. exact (Selection.firstBest_In likely _ _ Hb).
        -- destruct Hb as (_ & _ & _ & Lb & _). exact Lb.
      * apply (Selection.firstBest_max likely _ _ Hb).
        -- apply Hin. exact (Selection.firstBest_In likely _ _ Hb').
        -- destruct Hb' as (_ & _ & _ & Lb' & _). exact Lb'.
  - assert (Hnone : forall a, In a analyses -> IsLikely a = false).
    { intros a Ha. destruct (IsLikely a) eqn:La; [|reflexivity].
      assert (existsb IsLikely analyses = true)
        by (apply existsb_exists; exists a; auto).
      congruence. }
    assert (Hnone' : forall a, In a analyses' -> IsLikely a = false).
    { intros a Ha. apply Hnone. apply Hin. assumption. }
    destruct analyses as [|a0 l].
    + apply Permutation_nil in Hperm. subst analyses'. reflexivity.
    + assert (Hne' : analyses' <> []).
      { intros ->. apply Permutation_sym, Permutation_nil in Hperm.
        discriminate. }
      destruct (Selection.selectBest_fallback (a0 :: l) ltac:(discriminate)
                  Hnone) as (b & -> & Hb).
      destruct (Selection.selectBest_fallback analyses' Hne' Hnone')
        as (b' & -> & Hb').
      f_equal. apply Hties.
      * exact (Selection.firstBest_In anyVerdict _ _ Hb).
      * apply Hin. exact (Selection.firstBest_In anyVerdict _ _ Hb').
      * rewrite Hnone by exact (Selection.firstBest_In anyVerdict _ _ Hb).
        rewrite Hnone'; [reflexivity|].
        exact (Selection.firstBest_In anyVerdict _ _ Hb').
      * apply Z.le_antisymm.
        -- apply (Selection.firstBest_max anyVerdict _ _ Hb'); [|exact I].
           apply Hin. exact (Selection.firstBest_In anyVerdict _ _ Hb).
        -- apply (Selection.firstBest_max anyVerdict _ _ Hb); [|exact I].
           apply Hin. exact (Selection.firstBest_In anyVerdict _ _ Hb').
Qed.

Lemma conclude_permutation (analyses analyses' : list CommitAnalysis) :
  Permutation analyses analyses' -> noTies analyses ->
  conclude analyses = conclude analyses'.
Proof.
  intros Hperm Hties. unfold conclude.
  rewrite (Permutation_length Hperm).
  rewrite (selectBest_permutation analyses analyses' Hperm Hties).
  reflexivity.
Qed.

(** The run in which exactly the results [results] arrive. *)
Lemma all_received (results : list CommitAnalysisResult)
  (later : list selectCase) :
  AnalyzeBugInCommits (List.length results) (map Received results ++ later)
  = Some (conclude (flat_map verdictOf results)).
Proof.
  unfold AnalyzeBugInCommits.
  rewrite Drain.drain_received by reflexivity.
  rewrite collect_all. reflexivity.
Qed.

End DrainFacts.

Import Notions.

(** X1.  Once as many results as commits have been received the call
    returns what [conclude] makes of the verdicts of the successful
    results, in the order of their arrival: the failed results, and
    whatever [select] would do after the last result, cancellation
    included, have no part in it. *)
Theorem outcome_after_all_results
  (results : list CommitAnalysisResult) (later : list selectCase) :
  AnalyzeBugInCommits (List.length results) (map Received results ++ later)
  = Some (conclude (flat_map verdictOf results)).
Proof.
  unfold AnalyzeBugInCommits.
  rewrite Drain.drain_received by reflexivity.
  rewrite DrainFacts.collect_all. reflexivity.
Qed.

(** X2.  When no two different verdicts of the same likeliness have the
    same confidence, the order in which the results arrive does not
    change what the call returns. *)
Theorem arrival_order_irrelevant_without_ties
  (results results' : list CommitAnalysisResult)
  (later later' : list selectCase) :
  Permutation results results' ->
  noTies (flat_map verdictOf results) ->
  AnalyzeBugInCommits (List.length results) (map Received results ++ later)
  = AnalyzeBugInCommits (List.length results) (map Received results' ++ later').
Proof.
  intros Hperm Hties.
  rewrite DrainFacts.all_received.
  rewrite (Permutation_length Hperm), DrainFacts.all_received.
  f_equal. apply DrainFacts.conclude_permutation; [|assumption].
  apply Permutation_flat_map. assumption.
Qed.

Lemma arrival_order_irrelevant_without_ties_witness :
  AnalyzeBugInCommits 2
    (map Received
       [{| Commit := str "aaaaaaaa"; Analysis := Some (verdict "aaaaaaaa" true 40);
           Error := None |};
        {| Commit := str "bbbbbbbb"; Analysis := Some (verdict "bbbbbbbb" true 70);
           Error := None |}] ++ [])
  = AnalyzeBugInCommits 2
      (map Received
         [{| Commit := str "bbbbbbbb"; Analysis := Some (verdict "bbbbbbbb" true 70);
             Error := None |};
          {| Commit := str "aaaaaaaa"; Analysis := Some (verdict "aaaaaaaa" true 40);
             Error := None |}] ++ [CtxDone (str "context canceled")]).
Proof.
  apply (arrival_order_irrelevant_without_ties
           [{| Commit := str "aaaaaaaa";
               Analysis := Some (verdict "aaaaaaaa" true 40); Error := None |};
            {| Commit := str "bbbbbbbb";
               Analysis := Some (verdict "bbbbbbbb" true 70); Error := None |}]).
  - apply perm_swap.
  - intros a b Ha Hb _ Hconf. cbn in Ha, Hb.
    destruct Ha as [<-|[<-|[]]]; destruct Hb as [<-|[<-|[]]];
      try reflexivity; discriminate Hconf.
Defined.

(** X3.  The call never returns exactly when fewer results than commits
    arrive and the context is never done: the loop then waits in its
    [select] for ever. *)
Theorem never_returns_exactly_when_starved
  (totalCommits : nat) (events : list selectCase) :
  AnalyzeBugInCommits totalCommits events = None
  <-> (Forall isReceived events
       /\ (List.length events < totalCommits)%nat).
Proof.
  rewrite <- (DrainFacts.drain_blocked totalCommits events 0 []).
  unfold AnalyzeBugInCommits.
  destruct (drain totalCommits 0 events []) as [a|err a|a].
  - split; [discriminate | intros (g & Hg); discriminate].
  - split; [discriminate | intros (g & Hg); discriminate].
  - split; [eauto | reflexivity].
Qed.

(** ** The fan-out: what every interleaving guarantees *)

Module RunFacts.

Import FanOut Notions.

Section Related.

Variables (A B : Type) (R : A -> B -> Prop).

Hypothesis R_functional : forall a b b', R a b -> R a b' -> b = b'.

Lemma Forall2_functional (l : list A) (o o' : list B) :
  Forall2 R l o -> Forall2 R l o' -> o = o'.
Proof.
  intros H. revert o'. induction H as [|a b l o Hab _ IH]; intros o' H'.
  - inversion H'. reflexivity.
  - inversion H' as [|a' b' l' o'' Hab' Hrest]; subst.
    f_equal; [exact (R_functional a b b' Hab Hab') | apply IH; assumption].
Qed.

Lemma Forall2_permute (l l' : list A) (o : list B) :
  Permutation l l' -> Forall2 R l o ->
  exists o', Forall2 R l' o' /\ Permutation o o'.
Proof.
  intros Hperm. revert o.
  induction Hperm as [|x l l' _ IH|x y l|l l' l'' _ IH1 _ IH2]; intros o Ho.
  - inversion Ho. exists []. split; constructor.
  - inversion Ho as [|a b t ot Hab Hrest]; subst.
    destruct (IH ot Hrest) as (ot' & Hot' & Hp).
    exists (b :: ot'). split; constructor; assumption.
  - inversion Ho as [|a b t ot Hab Hrest]; subst.
    inversion Hrest as [|a' b' t' ot' Hab' Hrest']; subst.
    exists (b' :: b :: ot'). split; [repeat constructor; assumption|].
    apply perm_swap.
  - destruct (IH1 o Ho) as (o' & Ho' & Hp1).
    destruct (IH2 o' Ho') as (o'' & Ho'' & Hp2).
    exists o''. split; [assumption|]. eapply perm_trans; eassumption.
Qed.

Lemma Forall2_permutation (l l' : list A) (o o' : list B) :
  Permutation l l' -> Forall2 R l o -> Forall2 R l' o' -> Permutation o o'.
Proof.
  intros Hperm Ho Ho'.
  destruct (Forall2_permute l l' o Hperm Ho) as (o'' & Ho'' & Hp).
  rewrite (Forall2_functional l' o' o'' Ho' Ho''). assumption.
Qed.

End Related.

Section Run.

Variable commits : list gostring.
Variable reply : nat -> QueryResult.

Lemma stepsN_bound (n : nat) (w w' : world) :
  stepsN commits reply n w w' -> (n + stepsLeft w' <= stepsLeft w)%nat.
Proof.
  induction 1 as [w|n w w' w'' Hstep _ IH]; [lia|].
  pose proof (FanOutFacts.step_decreases commits reply w w' Hstep). lia.
Qed.

Lemma stepsLeft_initial :
  stepsLeft (initial commits) = (2 * List.length commits + 2)%nat.
Proof.
  unfold stepsLeft, initial, totalCommits. cbn [pending resultChan coord].
  rewrite length_seq. cbn [List.length]. lia.
Qed.

Lemma stepsN_reachable (n : nat) (w w' : world) :
  stepsN commits reply n w w' ->
  reachable commits reply w -> reachable commits reply w'.
Proof.
  induction 1 as [w|n w w' w'' Hstep _ IH]; intros Hreach; [assumption|].
  apply IH. eapply reach_step; eassumption.
Qed.

(** Two runs that went through the selection received the same results,
    up to their order. *)
Lemma complete_runs_permuted (w1 w2 : world)
  (r1 r2 : option CommitAnalysis * option error) :
  reachable commits reply w1 -> reachable commits reply w2 ->
  coord w1 = Returned r1 -> coord w2 = Returned r2 ->
  ~ cancelled w1 -> ~ cancelled w2 ->
  Permutation (observed w1) (observed w2).
Proof.
  intros Hreach1 Hreach2 Hret1 Hret2 Hnot1 Hnot2.
  destruct (FanOutFacts.selection_after_all_outcomes commits reply w1 r1
              Hreach1 Hret1 Hnot1) as (_ & _ & (s1 & Hp1 & Hs1) & _).
  destruct (FanOutFacts.selection_after_all_outcomes commits reply w2 r2
              Hreach2 Hret2 Hnot2) as (_ & _ & (s2 & Hp2 & Hs2) & _).
  apply (Forall2_permutation _ _
           (fun i result => task commits reply i = Done result)) with s1 s2.
  - intros i b b' Hb Hb'. congruence.
  - eapply perm_trans; [exact Hp1 | apply Permutation_sym; exact Hp2].
  - assumption.
  - assumption.
Qed.

End Run.

End RunFacts.

Import FanOut.

(** X4.  When the call returns other than through [ctx.Done()], every
    goroutine has sent, the channel is empty, the loop has received the
    result of each goroutine exactly once, and what is returned is what
    [conclude] makes of the verdicts among them in the order of their
    arrival. *)
Theorem complete_run_returns_conclusion_of_all_results
  (commits : list gostring) (reply : nat -> QueryResult) (w : world)
  (r : option CommitAnalysis * option error) :
  reachable commits reply w -> coord w = Returned r -> ~ cancelled w ->
  pending w = [] /\ resultChan w = []
  /\ (exists senders,
         Permutation senders (seq 0 (List.length commits))
         /\ Forall2 (fun i result => task commits reply i = Done result)
              senders (observed w))
  /\ r = conclude (flat_map verdictOf (observed w)).
Proof.
  intros Hreach Hret Hnot.
  destruct (FanOutFacts.selection_after_all_outcomes commits reply w r
              Hreach Hret Hnot) as (Hp & Hc & (senders & Hperm & Hsent) & Hr).
  repeat split; try assumption.
  - exists senders. split; assumption.
  - assert (Hlen : List.length (observed w) = totalCommits commits).
    { apply Forall2_length in Hsent. apply Permutation_length in Hperm.
      rewrite length_seq in Hperm. unfold totalCommits in *. lia. }
    rewrite <- Hlen in Hr.
    rewrite <- (app_nil_r (map Received (observed w))) in Hr.
    rewrite DrainFacts.all_received in Hr. congruence.
Qed.

(** Two runs over two commits: in the first the goroutines send and the
    loop receives in the order of the commits, in the second in the
    opposite order. *)
Module RunExampleFacts.

Import Notions RunExamples.

Lemma first_task : task twoCommits twoReplies 0 = Done firstResult.
Proof. reflexivity. Qed.

Lemma second_task : task twoCommits twoReplies 1 = Done secondResult.
Proof. reflexivity. Qed.

Lemma run_in_order :
  stepsN twoCommits twoReplies 5 (initial twoCommits)
    (concluded [firstResult; secondResult]).
Proof.
  apply steps_more with (draining [1%nat] [firstResult] []).
  { apply (task_send twoCommits twoReplies (initial twoCommits) 0 firstResult);
      [discriminate | left; reflexivity | exact first_task | cbn; lia]. }
  apply steps_more with (draining [] [firstResult; secondResult] []).
  { apply (task_send twoCommits twoReplies
             (draining [1%nat] [firstResult] []) 1 secondResult);
      [discriminate | left; reflexivity | exact second_task | cbn; lia]. }
  apply steps_more with (draining [] [secondResult] [firstResult]).
  { apply (select_receive twoCommits twoReplies
             (draining [] [firstResult; secondResult] []) firstResult
             [secondResult]); [reflexivity | cbn; lia | reflexivity]. }
  apply steps_more with (draining [] [] [firstResult; secondResult]).
  { apply (select_receive twoCommits twoReplies
             (draining [] [secondResult] [firstResult]) secondResult []);
      [reflexivity | cbn; lia | reflexivity]. }
  apply steps_more with (concluded [firstResult; secondResult]).
  { apply (loop_exit twoCommits twoReplies
             (draining [] [] [firstResult; secondResult]));
      [reflexivity | cbn; lia]. }
  apply steps_none.
Qed.

Lemma run_in_reverse :
  stepsN twoCommits twoReplies 5 (initial twoCommits)
    (concluded [secondResult; firstResult]).
Proof.
  apply steps_more with (draining [0%nat] [secondResult] []).
  { apply (task_send twoCommits twoReplies (initial twoCommits) 1 secondResult);
      [discriminate | right; left; reflexivity | exact second_task | cbn; lia]. }
  apply steps_more with (draining [0%nat] [] [secondResult]).
  { apply (select_receive twoCommits twoReplies
             (draining [0%nat] [secondResult] []) secondResult []);
      [reflexivity | cbn; lia | reflexivity]. }
  apply steps_more with (draining [] [firstResult] [secondResult]).
  { apply (task_send twoCommits twoReplies
             (draining [0%nat] [] [secondResult]) 0 firstResult);
      [discriminate | left; reflexivity | exact first_task | cbn; lia]. }
  apply steps_more with (draining [] [] [secondResult; firstResult]).
  { apply (select_receive twoCommits twoReplies
             (draining [] [firstResult] [secondResult]) firstResult []);
      [reflexivity | cbn; lia | reflexivity]. }
  apply steps_more with (concluded [secondResult; firstResult]).
  { apply (loop_exit twoCommits twoReplies
             (draining [] [] [secondResult; firstResult]));
      [reflexivity | cbn; lia]. }
  apply steps_none.
Qed.

Lemma reached_in_order :
  reachable twoCommits twoReplies (concluded [firstResult; secondResult]).
Proof.
  exact (RunFacts.stepsN_reachable _ _ _ _ _ run_in_order
           (reach_initial _ _)).
Qed.

Lemma reached_in_reverse :
  reachable twoCommits twoReplies (concluded [secondResult; firstResult]).
Proof.
  exact (RunFacts.stepsN_reachable _ _ _ _ _ run_in_reverse
           (reach_initial _ _)).
Qed.

Lemma reached_half_way :
  reachable twoCommits twoReplies (draining [0%nat] [] [secondResult]).
Proof.
  eapply reach_step; [eapply reach_step; [apply reach_initial|]|].
  - apply (task_send twoCommits twoReplies (initial twoCommits) 1 secondResult);
      [discriminate | right; left; reflexivity | exact second_task | cbn; lia].
  - apply (select_receive twoCommits twoReplies
             (draining [0%nat] [secondResult] []) secondResult []);
      [reflexivity | cbn; lia | reflexivity].
Qed.

Lemma not_cancelled_concluded (seen : list CommitAnalysisResult) :
  ~ cancelled (concluded seen).
Proof.
  intros (err & Herr). cbn [coord concluded] in Herr.
  inversion Herr as [Hc]. unfold conclude in Hc.
  destruct (Z.of_nat (List.length (fold_left collect seen [])) =? 0);
    discriminate Hc.
Qed.

End RunExampleFacts.

Import RunExamples.

Lemma complete_run_returns_conclusion_of_all_results_witness :
  pending (concluded [secondResult; firstResult]) = []
  /\ resultChan (concluded [secondResult; firstResult]) = []
  /\ (exists senders,
         Permutation senders (seq 0 (List.length twoCommits))
         /\ Forall2 (fun i result => task twoCommits twoReplies i = Done result)
              senders (observed (concluded [secondResult; firstResult])))
  /\ conclude (fold_left collect [secondResult; firstResult] [])
     = conclude
         (flat_map verdictOf (observed (concluded [secondResult; firstResult]))).
Proof.
  apply (complete_run_returns_conclusion_of_all_results twoCommits twoReplies
           (concluded [secondResult; firstResult])).
  - exact RunExampleFacts.reached_in_reverse.
  - reflexivity.
  - apply RunExampleFacts.not_cancelled_concluded.
Defined.

(** X5.  The channel always has room for the results still to come.  In
    every reachable state the results in the buffer and the goroutines
    that have not sent are together no more than the [len(commits)]
    values the channel is made for, so that the buffer is never full
    while a goroutine has still to send: a goroutine that comes to its
    send finds a free slot, also after the call has returned. *)
Theorem channel_has_room_for_every_pending_send
  (commits : list gostring) (reply : nat -> QueryResult) (w : world) :
  reachable commits reply w ->
  (List.length (resultChan w) + List.length (pending w)
   <= List.length commits)%nat
  /\ (forall i,
         In i (pending w) ->
         (List.length (resultChan w) < List.length commits)%nat).
Proof.
  intros Hreach.
  destruct (FanOutFacts.reachable_consistent commits reply w Hreach)
    as (Hacc & _).
  pose proof (FanOutFacts.accounted_lengths commits reply w Hacc) as Hlen.
  unfold totalCommits in Hlen. split; [lia|].
  intros i Hin.
  exact (FanOutFacts.send_never_blocks commits reply w i Hreach Hin).
Qed.

Lemma channel_has_room_for_every_pending_send_witness :
  (List.length (resultChan (draining [0%nat] [] [secondResult]))
   + List.length (pending (draining [0%nat] [] [secondResult]))
   <= List.length twoCommits)%nat
  /\ (forall i,
         In i (pending (draining [0%nat] [] [secondResult])) ->
         (List.length (resultChan (draining [0%nat] [] [secondResult]))
          < List.length twoCommits)%nat).
Proof.
  apply (channel_has_room_for_every_pending_send twoCommits twoReplies
           (draining [0%nat] [] [secondResult])).
  exact RunExampleFacts.reached_half_way.
Defined.

(** X6.  No run goes on for ever: from the launch of the goroutines, at
    most two steps per commit and two more can be taken, whatever the
    interleaving and whether or not the context is cancelled. *)
Theorem runs_are_bounded
  (commits : list gostring) (reply : nat -> QueryResult) (n : nat)
  (w : world) :
  stepsN commits reply n (initial commits) w ->
  (n <= 2 * List.length commits + 2)%nat.
Proof.
  intros Hrun.
  pose proof (RunFacts.stepsN_bound commits reply n _ _ Hrun) as Hbound.
  rewrite RunFacts.stepsLeft_initial in Hbound. lia.
Qed.

Lemma runs_are_bounded_witness :
  (5 <= 2 * List.length twoCommits + 2)%nat.
Proof.
  exact (runs_are_bounded twoCommits twoReplies 5
           (concluded [firstResult; secondResult])
           RunExampleFacts.run_in_order).
Defined.

(** X7.  The loop never waits for a result that was lost.  In every
    reachable state in which the loop has still results to receive and
    the channel is empty, some goroutine has not yet sent; and once every
    goroutine has sent and the channel is empty, the loop has received
    as many results as there are commits. *)
Theorem waiting_loop_has_a_goroutine_at_work
  (commits : list gostring) (reply : nat -> QueryResult) (w : world) :
  reachable commits reply w ->
  ((completed w < List.length commits)%nat ->
   resultChan w = [] -> pending w <> [])
  /\ (pending w = [] -> resultChan w = [] ->
      completed w = List.length commits).
Proof.
  intros Hreach.
  destruct (FanOutFacts.reachable_consistent commits reply w Hreach)
    as (Hacc & Hcompleted & _).
  pose proof (FanOutFacts.accounted_lengths commits reply w Hacc) as Hlen.
  unfold totalCommits in Hlen. split.
  - intros Hless Hchan Hpending. rewrite Hchan, Hpending in Hlen.
    cbn [List.length] in Hlen. lia.
  - intros Hpending Hchan. rewrite Hchan, Hpending in Hlen.
    cbn [List.length] in Hlen. lia.
Qed.

Lemma waiting_loop_has_a_goroutine_at_work_witness :
  ((completed (draining [0%nat] [] [secondResult])
    < List.length twoCommits)%nat ->
   resultChan (draining [0%nat] [] [secondResult]) = [] ->
   pending (draining [0%nat] [] [secondResult]) <> [])
  /\ (pending (draining [0%nat] [] [secondResult]) = [] ->
      resultChan (draining [0%nat] [] [secondResult]) = [] ->
      completed (draining [0%nat] [] [secondResult])
      = List.length twoCommits).
Proof.
  apply (waiting_loop_has_a_goroutine_at_work twoCommits twoReplies
           (draining [0%nat] [] [secondResult])).
  exact RunExampleFacts.reached_half_way.
Defined.

(** X8.  The interleaving decides nothing but ties: when no two different
    verdicts of the same likeliness have the same confidence, any two
    runs that return from the selection return the same result. *)
Theorem result_independent_of_interleaving
  (commits : list gostring) (reply : nat -> QueryResult) (w1 w2 : world)
  (r1 r2 : option CommitAnalysis * option error) :
  reachable commits reply w1 -> reachable commits reply w2 ->
  coord w1 = Returned r1 -> coord w2 = Returned r2 ->
  ~ cancelled w1 -> ~ cancelled w2 ->
  noTies (flat_map verdictOf (observed w1)) ->
  r1 = r2.
Proof.
  intros Hreach1 Hreach2 Hret1 Hret2 Hnot1 Hnot2 Hties.
  pose proof (RunFacts.complete_runs_permuted commits reply w1 w2 r1 r2
                Hreach1 Hreach2 Hret1 Hret2 Hnot1 Hnot2) as Hperm.
  destruct (FanOutFacts.selection_after_all_outcomes commits reply w1 r1
              Hreach1 Hret1 Hnot1) as (_ & _ & (s1 & Hp1 & Hs1) & Hr1).
  destruct (FanOutFacts.selection_after_all_outcomes commits reply w2 r2
              Hreach2 Hret2 Hnot2) as (_ & _ & _ & Hr2).
  assert (Hlen : List.length (observed w1) = totalCommits commits).
  { apply Forall2_length in Hs1. apply Permutation_length in Hp1.
    rewrite length_seq in Hp1. lia. }
  rewrite <- Hlen in Hr1, Hr2.
  rewrite <- (app_nil_r (map Received (observed w1))) in Hr1.
  rewrite <- (app_nil_r (map Received (observed w2))) in Hr2.
  rewrite DrainFacts.all_received in Hr1.
  rewrite (Permutation_length Hperm), DrainFacts.all_received in Hr2.
  rewrite (DrainFacts.conclude_permutation _ _
             (Permutation_flat_map verdictOf Hperm) Hties) in Hr1.
  congruence.
Qed.

Lemma result_independent_of_interleaving_witness :
  conclude (fold_left collect [firstResult; secondResult] [])
  = conclude (fold_left collect [secondResult; firstResult] []).
Proof.
  apply (result_independent_of_interleaving twoCommits twoReplies
           (concluded [firstResult; secondResult])
           (concluded [secondResult; firstResult])).
  - exact RunExampleFacts.reached_in_order.
  - exact RunExampleFacts.reached_in_reverse.
  - reflexivity.
  - reflexivity.
  - apply RunExampleFacts.not_cancelled_concluded.
  - apply RunExampleFacts.not_cancelled_concluded.
  - intros a b Ha Hb _ Hconf. cbn in Ha, Hb.
    destruct Ha as [<-|[<-|[]]]; destruct Hb as [<-|[<-|[]]];
      try reflexivity; discriminate Hconf.
Defined.

(** ** [AnalyzeSingleCommit]: the commit record and the reply *)

Module RecordFacts.

Import Strings Agent Spec Notions.

Lemma splitByte_length (sep : ascii) (s current : gostring) :
  List.length (splitByte s sep current) = S (count_occ ascii_dec s sep).
Proof.
  revert current. induction s as [|c s IH]; intros current; cbn [splitByte].
  - reflexivity.
  - cbn [count_occ]. destruct (Ascii.eqb_spec c sep) as [->|Hne].
    + destruct (ascii_dec sep sep) as [_|Hn]; [|congruence].
      cbn [List.length]. rewrite IH. reflexivity.
    + destruct (ascii_dec c sep) as [He|_]; [congruence|]. apply IH.
Qed.

Lemma splitByte_first (sep : ascii) (s current : gostring) :
  nth 0 (splitByte s sep current) [] = rev current ++ upTo sep s.
Proof.
  revert current. induction s as [|c s IH]; intros current;
    cbn [splitByte upTo].
  - cbn [nth]. symmetry. apply app_nil_r.
  - destruct (Ascii.eqb c sep).
    + cbn [nth]. symmetry. apply app_nil_r.
    + rewrite IH. cbn [rev]. rewrite <- app_assoc. reflexivity.
Qed.

Lemma parts_length (commit : gostring) :
  List.length (Split commit "|") = S (separators commit).
Proof. apply splitByte_length. Qed.

Lemma parts_first (commit : gostring) :
  nth 0 (Split commit "|") [] = hashField commit.
Proof. unfold Split. rewrite splitByte_first. reflexivity. Qed.

Lemma sliceTo_8 (s : gostring) :
  (sliceTo s 8 = Panic <-> (List.length s < 8)%nat)
  /\ ((8 <= List.length s)%nat -> sliceTo s 8 = Done (firstn 8 s)).
Proof.
  unfold sliceTo, slice, len. cbn [Z.leb andb].
  destruct (Z.leb_spec 8 (Z.of_nat (List.length s))) as [Hle|Hgt]; cbn.
  - split; [split; [discriminate | lia] | reflexivity].
  - split; [split; [lia | reflexivity] | lia].
Qed.

(** What the task does with the reply once the record has let it
    through. *)
Lemma afterRecord_cases (reply : QueryResult) :
  exists a e,
    (match reply with
     | QueryErr err => Done (None, Some (AnalysisError err))
     | QueryOk messages =>
         jsonResponse <- extractJSON messages ;;
         if eqs jsonResponse [] then Done (None, Some NoJSONResponse)
         else Done (Some (parseAnalysis jsonResponse), None)
     end) = Done (a, e)
    /\ e <> Some InvalidCommitFormat
    /\ ((a = None /\ e <> None) \/ (a <> None /\ e = None)).
Proof.
  destruct reply as [messages|err].
  - destruct (Locate.extractJSON_total messages) as (j & ->). cbn [bind].
    destruct (eqs j []).
    + exists None, (Some NoJSONResponse).
      repeat split; try discriminate. left. split; [reflexivity|discriminate].
    + exists (Some (parseAnalysis j)), None.
      repeat split; try discriminate. right. split; [discriminate|reflexivity].
  - exists None, (Some (AnalysisError err)).
    repeat split; try discriminate. left. split; [reflexivity|discriminate].
Qed.

(** The three ways the task can go, by the shape of the record. *)
Lemma AnalyzeSingleCommit_cases (commit : gostring) (reply : QueryResult) :
  ((separators commit < 3)%nat
   /\ AnalyzeSingleCommit commit reply = Done (None, Some InvalidCommitFormat))
  \/ ((3 <= separators commit)%nat
      /\ (List.length (hashField commit) < 8)%nat
      /\ AnalyzeSingleCommit commit reply = Panic)
  \/ ((3 <= separators commit)%nat
      /\ (8 <= List.length (hashField commit))%nat
      /\ exists a e,
           AnalyzeSingleCommit commit reply = Done (a, e)
           /\ e <> Some InvalidCommitFormat
           /\ ((a = None /\ e <> None) \/ (a <> None /\ e = None))).
Proof.
  unfold AnalyzeSingleCommit. rewrite parts_length, parts_first.
  destruct (Z.ltb_spec (Z.of_nat (S (separators commit))) 4) as [Hlt|Hge].
  - left. split; [lia | reflexivity].
  - right. destruct (sliceTo_8 (hashField commit)) as (Hpanic & Hok).
    destruct (Nat.lt_ge_cases (List.length (hashField commit)) 8)
      as [Hshort|Hlong].
    + left. repeat split; [lia | assumption|].
      rewrite (proj2 Hpanic Hshort). reflexivity.
    + right. repeat split; [lia | assumption|].
      rewrite (Hok Hlong). cbn [bind]. apply afterRecord_cases.
Qed.

Lemma infixOf_refl (s : gostring) : infixOf s s.
Proof. exists [], []. rewrite app_nil_r. reflexivity. Qed.

Lemma infixOf_trans (a b c : gostring) :
  infixOf a b -> infixOf b c -> infixOf a c.
Proof.
  intros (x & y & ->) (x' & y' & ->).
  exists (x' ++ x), (y ++ y'). rewrite <- !app_assoc. reflexivity.
Qed.

Lemma infixOf_slice (s : gostring) (lo n : nat) :
  infixOf (firstn n (skipn lo s)) s.
Proof.
  exists (firstn lo s), (skipn n (skipn lo s)).
  rewrite firstn_skipn, firstn_skipn. reflexivity.
Qed.

Lemma infixOf_TrimSpace (s : gostring) : infixOf (TrimSpace s) s.
Proof. exact (TrimFacts.TrimSpace_infix s). Qed.

End RecordFacts.

Import Strings.

(** X9.  The task rejects a commit record as "invalid commit format"
    exactly when the record has fewer than three [|], and it panics
    exactly when the record has at least three and fewer than eight bytes
    before the first; the reply of the oracle plays no part in either. *)
Theorem commit_record_rejected_or_fatal
  (commit : gostring) (reply : QueryResult) :
  (AnalyzeSingleCommit commit reply = Done (None, Some InvalidCommitFormat)
   <-> (separators commit < 3)%nat)
  /\ (AnalyzeSingleCommit commit reply = Panic
      <-> ((3 <= separators commit)%nat
           /\ (List.length (hashField commit) < 8)%nat)).
Proof.
  destruct (RecordFacts.AnalyzeSingleCommit_cases commit reply)
    as [(Hfew & Hr)|[(Hmany & Hshort & Hr)|(Hmany & Hlong & a & e & Hr & He & _)]];
    rewrite Hr.
  - split.
    + split; auto.
    + split; [discriminate | intros (Hmany & _); lia].
  - split.
    + split; [discriminate | lia].
    + split; auto.
  - split.
    + split; [intros Heq; inversion Heq; subst; congruence | lia].
    + split; [discriminate | intros (_ & Hshort); lia].
Qed.

(** X10.  Whenever the task returns, it returns either a verdict and no
    error or an error and no verdict, never both and never neither: the
    loop of [AnalyzeBugInCommits] collects the verdict of exactly the
    results without an error. *)
Theorem task_returns_verdict_or_error
  (commit : gostring) (reply : QueryResult)
  (a : option CommitAnalysis) (e : option error) :
  AnalyzeSingleCommit commit reply = Done (a, e) ->
  ((a = None /\ e <> None) \/ (a <> None /\ e = None))
  /\ verdictOf {| Commit := commit; Analysis := a; Error := e |}
     = match a with
       | Some analysis => [analysis]
       | None => []
       end.
Proof.
  intros Hdone.
  assert (Hone : (a = None /\ e <> None) \/ (a <> None /\ e = None)).
  { destruct (RecordFacts.AnalyzeSingleCommit_cases commit reply)
      as [(_ & Hr)|[(_ & _ & Hr)|(_ & _ & a' & e' & Hr & _ & Hone)]];
      rewrite Hr in Hdone.
    - inversion Hdone; subst. left. split; [reflexivity | discriminate].
    - discriminate.
    - inversion Hdone; subst. assumption. }
  split; [assumption|]. unfold verdictOf. cbn [Error Analysis].
  destruct Hone as [(-> & He)|(Ha & ->)].
  - destruct e; reflexivity.
  - destruct a; [reflexivity | congruence].
Qed.

Lemma task_returns_verdict_or_error_witness :
  ((Some (verdict "1a2b3c4d" true 40) = None
    /\ (None : option error) <> None)
   \/ (Some (verdict "1a2b3c4d" true 40) <> None
       /\ (None : option error) = None))
  /\ verdictOf {| Commit := str "1a2b3c4d|Ann|2024-01-01|fix";
                  Analysis := Some (verdict "1a2b3c4d" true 40);
                  Error := None |}
     = [verdict "1a2b3c4d" true 40].
Proof.
  apply (task_returns_verdict_or_error
           (str "1a2b3c4d|Ann|2024-01-01|fix")
           (RunExamples.twoReplies 0)).
  reflexivity.
Defined.

(** ** [AnalyzeSingleCommit]: which payload is taken *)

Module ExtractFacts.

Import Strings Agent Spec Notions StringsFacts.

Lemma extractJSON_cons (message : Message) (messages : list Message)
  (found : gostring) :
  scanBlocks message = Done found ->
  extractJSON (message :: messages)
  = if eqs found [] then extractJSON messages else Done found.
Proof.
  intros Hscan. cbn [extractJSON]. rewrite Hscan. cbn [bind].
  destruct (eqs found []); reflexivity.
Qed.

(** A located payload is a contiguous part of the text, and outside a
    fenced block it begins and ends with a brace. *)
Lemma located_shape (text found : gostring) :
  locatedWith braced text (Some found) ->
  infixOf found text
  /\ ((exists body, fencedBlock text body /\ found = TrimSpace body)
      \/ braced found).
Proof.
  intros Hloc. inversion Hloc as [body Hf|Hnf Hb|span Hnf Hnb Hs|]; subst.
  - split.
    + apply RecordFacts.infixOf_trans with body.
      * apply RecordFacts.infixOf_TrimSpace.
      * destruct Hf as (i & e & _ & _ & _ & ->).
        apply RecordFacts.infixOf_slice.
    + left. exists body. split; [assumption | reflexivity].
  - split; [apply RecordFacts.infixOf_refl | right; assumption].
  - destruct Hs as (i & j & (Hi & _) & (Hj & _) & Hlt & ->). split.
    + apply RecordFacts.infixOf_slice.
    + right. destruct (Locate.span_shape text i j Hi Hj Hlt) as (inner & ->).
      exists inner. reflexivity.
Qed.

End ExtractFacts.

(** X11.  Of the messages of a reply the first whose scan leaves a
    non-empty payload decides, and nothing after it is looked at; within
    a message the first text block in which a payload is located decides,
    even when that payload is empty, blocks that are not text being
    passed over. *)
Theorem first_payload_decides :
  (forall messages j,
      j <> [] ->
      (extractJSON messages = Done j
       <-> exists pre m post,
             messages = pre ++ m :: post
             /\ Forall (fun m' => scanBlocks m' = Done []) pre
             /\ scanBlocks m = Done j))
  /\ (forall pre post Text found,
         Forall passedOver pre ->
         locateJSON (TrimSpace Text) = Done (Some found) ->
         scanBlocks (pre ++ TextBlock Text :: post) = Done found).
Proof.
  split.
  - intros messages j.
    { intros Hj. induction messages as [|message messages IH].
    - split.
      + intros Hex. inversion Hex. congruence.
      + intros (pre & m & post & Heq & _). destruct pre; discriminate.
    - destruct (Locate.scanBlocks_total message) as (found & Hscan).
      rewrite (ExtractFacts.extractJSON_cons message messages found Hscan).
      destruct (eqs found []) eqn:Hempty.
      + apply StringsFacts.eqs_true in Hempty. subst found. rewrite IH. split.
        * intros (pre & m & post & -> & Hpre & Hm).
          exists (message :: pre), m, post. repeat split; auto.
        * intros (pre & m & post & Heq & Hpre & Hm).
          destruct pre as [|m0 pre].
          -- inversion Heq; subst. rewrite Hscan in Hm. inversion Hm. congruence.
          -- inversion Heq; subst. inversion Hpre; subst.
             exists pre, m, post. repeat split; auto.
      + apply StringsFacts.eqs_false in Hempty. split.
        * intros Heq. inversion Heq; subst.
          exists [], message, messages. repeat split; auto.
        * intros (pre & m & post & Heq & Hpre & Hm).
          destruct pre as [|m0 pre].
          -- inversion Heq; subst. congruence.
          -- inversion Heq; subst. inversion Hpre as [|x l Hx]; subst.
             rewrite Hscan in Hx. inversion Hx. congruence. }
  - intros pre post Text found.
    { intros Hpre Hloc. induction Hpre as [|block pre Hblock _ IH];
      cbn [app scanBlocks].
    - rewrite Hloc. reflexivity.
    - destruct block as [T|]; [|exact IH].
      cbn [passedOver] in Hblock. rewrite Hblock. exact IH. }
Qed.

Lemma first_payload_decides_witness :
  extractJSON
    ([[OtherBlock; TextBlock (str "Let me look at the diff.")];
      [TextBlock (str "```json    ```"); TextBlock (json "{'confidence': 1}")]]
     ++ [TextBlock (json "Verdict: {'confidence': 70}")]
        :: [[TextBlock (json "{'confidence': 5}")]])
  = Done (json "{'confidence': 70}")
  /\ scanBlocks
       ([OtherBlock; TextBlock (str "no payload here")]
        ++ TextBlock (str "```json    ```")
           :: [TextBlock (json "{'confidence': 1}")])
     = Done [].
Proof.
  destruct first_payload_decides as (Hmessages & Hblocks). split.
  - apply (proj2 (Hmessages _ (json "{'confidence': 70}") ltac:(discriminate))).
    exists [[OtherBlock; TextBlock (str "Let me look at the diff.")];
            [TextBlock (str "```json    ```");
             TextBlock (json "{'confidence': 1}")]],
           [TextBlock (json "Verdict: {'confidence': 70}")],
           [[TextBlock (json "{'confidence': 5}")]].
    repeat split; repeat constructor.
  - apply Hblocks; [|reflexivity].
    repeat constructor.
Defined.

(** X12.  A payload the loop body locates is always a contiguous part of
    the text, and unless it is the trimmed body of a fenced block it
    begins with [{] and ends with [}]. *)
Theorem located_payload_is_part_of_the_text (text found : gostring) :
  locateJSON text = Done (Some found) ->
  infixOf found text
  /\ ((exists body, fencedBlock text body /\ found = TrimSpace body)
      \/ braced found).
Proof.
  intros Hloc.
  destruct (Locate.locateJSON_located text) as (r & Hr & Hspec).
  rewrite Hr in Hloc. inversion Hloc; subst r.
  exact (ExtractFacts.located_shape text found Hspec).
Qed.

Lemma located_payload_is_part_of_the_text_witness :
  infixOf (json "{'confidence': 70}") (json "Verdict: {'confidence': 70}, done.")
  /\ ((exists body,
          fencedBlock (json "Verdict: {'confidence': 70}, done.") body
          /\ json "{'confidence': 70}" = TrimSpace body)
      \/ braced (json "{'confidence': 70}")).
Proof.
  apply (located_payload_is_part_of_the_text
           (json "Verdict: {'confidence': 70}, done.")).
  reflexivity.
Defined.

(** ** [splitJSONPairs] *)

Module SplitFacts.

Import Strings Agent Spec Notions.

Lemma extend_extend (st : splitState) (a b : gostring) :
  extend (extend st a) b = extend st (a ++ b).
Proof. unfold extend. cbn. rewrite app_assoc. reflexivity. Qed.

Lemma extend_nil (st : splitState) : extend st [] = st.
Proof. destruct st. unfold extend. cbn. rewrite app_nil_r. reflexivity. Qed.

Lemma splitLoop_app (a b : gostring) (prev : option ascii) (st : splitState) :
  splitLoop prev (a ++ b) st = splitLoop (lastOr prev a) b (splitLoop prev a st).
Proof.
  revert prev st. induction a as [|c a IH]; intros prev st.
  - reflexivity.
  - cbn [app splitLoop]. rewrite IH. f_equal.
    unfold lastOr. cbn [rev]. destruct (rev a) as [|x r] eqn:Hr.
    + reflexivity.
    + reflexivity.
Qed.

Lemma opener_cases (c : ascii) :
  opener c = true -> c = "{"%char \/ c = "["%char.
Proof.
  unfold opener, isByte. rewrite orb_true_iff, !Ascii.eqb_eq. tauto.
Qed.

Lemma closer_cases (c : ascii) :
  closer c = true -> c = "}"%char \/ c = "]"%char.
Proof.
  unfold closer, isByte. rewrite orb_true_iff, !Ascii.eqb_eq. tauto.
Qed.

Lemma plainChar_inv (c : ascii) :
  plainChar c = true ->
  Ascii.eqb c quote = false /\ opener c = false /\ closer c = false
  /\ isByte c "," = false /\ Ascii.eqb c backslash = false.
Proof.
  unfold plainChar. rewrite negb_true_iff, !orb_false_iff. tauto.
Qed.

Lemma step_plain (prev : option ascii) (c : ascii) (st : splitState) :
  plainChar c = true -> splitStep prev c st = extend st [c].
Proof.
  intros Hc. apply plainChar_inv in Hc.
  destruct Hc as (Hq & Ho & Hcl & Hcomma & _).
  unfold opener in Ho. unfold closer in Hcl.
  unfold splitStep. rewrite Hq, Ho, Hcl, Hcomma. reflexivity.
Qed.

Lemma step_in_string (prev : option ascii) (c : ascii) (st : splitState) :
  inQuotes st = true -> Ascii.eqb c quote = false ->
  splitStep prev c st = extend st [c].
Proof.
  intros Hin Hq. unfold splitStep, extend. rewrite Hq, Hin. cbn [negb andb].
  destruct (isByte c "{" || isByte c "["); [reflexivity|].
  destruct (isByte c "}" || isByte c "]"); [reflexivity|].
  destruct (isByte c ","); reflexivity.
Qed.

Lemma step_quote (prev : option ascii) (st : splitState) :
  okPrev prev ->
  splitStep prev quote st
  = {| pairs := pairs st; current := current st ++ [quote];
       inQuotes := negb (inQuotes st); depth := depth st |}.
Proof.
  intros Hprev. unfold splitStep. rewrite Ascii.eqb_refl.
  assert (Hesc : match prev with
                 | None => false
                 | Some p => Ascii.eqb p backslash
                 end = false).
  { destruct prev as [p|]; [|reflexivity].
    apply Ascii.eqb_neq. intros ->. apply Hprev. reflexivity. }
  rewrite Hesc. reflexivity.
Qed.

Lemma step_open (prev : option ascii) (o : ascii) (st : splitState) :
  opener o = true -> inQuotes st = false ->
  splitStep prev o st
  = {| pairs := pairs st; current := current st ++ [o];
       inQuotes := false; depth := depth st + 1 |}.
Proof.
  intros Ho Hin. unfold splitStep. rewrite Hin.
  destruct (opener_cases o Ho) as [->| ->]; reflexivity.
Qed.

Lemma step_close (prev : option ascii) (c : ascii) (st : splitState) :
  closer c = true -> inQuotes st = false ->
  splitStep prev c st
  = {| pairs := pairs st; current := current st ++ [c];
       inQuotes := false; depth := depth st - 1 |}.
Proof.
  intros Hc Hin. unfold splitStep. rewrite Hin.
  destruct (closer_cases c Hc) as [->| ->]; reflexivity.
Qed.

Lemma step_comma_nested (prev : option ascii) (st : splitState) :
  inQuotes st = false -> depth st <> 0 ->
  splitStep prev "," st = extend st [","%char].
Proof.
  intros Hin Hd. unfold splitStep, extend. rewrite Hin.
  cbn. apply Z.eqb_neq in Hd. rewrite Hd. reflexivity.
Qed.

Lemma step_comma_top (prev : option ascii) (st : splitState) :
  inQuotes st = false -> depth st = 0 ->
  splitStep prev "," st
  = {| pairs := pairs st ++ [TrimSpace (current st)]; current := [];
       inQuotes := false; depth := 0 |}.
Proof.
  intros Hin Hd. unfold splitStep. rewrite Hin, Hd. reflexivity.
Qed.

(** The inside of a quoted string is carried over as it is. *)
Lemma scan_string_body (body rest : gostring) (prev : option ascii)
  (st : splitState) :
  Forall (fun c => stringChar c = true) body -> inQuotes st = true ->
  splitLoop prev (body ++ rest) st
  = splitLoop (lastOr prev body) rest (extend st body).
Proof.
  intros Hbody. revert prev st.
  induction Hbody as [|c body Hc _ IH]; intros prev st Hin.
  - cbn [app]. rewrite extend_nil. reflexivity.
  - cbn [app splitLoop].
    unfold stringChar in Hc. rewrite negb_true_iff, orb_false_iff in Hc.
    rewrite (step_in_string prev c st Hin (proj1 Hc)).
    rewrite IH by assumption. rewrite extend_extend. f_equal.
    unfold lastOr. cbn [rev]. destruct (rev body); reflexivity.
Qed.

Lemma okPrev_string_body (body : gostring) (prev : option ascii) :
  Forall (fun c => stringChar c = true) body -> okPrev prev ->
  okPrev (lastOr prev body).
Proof.
  intros Hbody Hprev. unfold lastOr.
  destruct (rev body) as [|c r] eqn:Hr; [assumption|].
  assert (Hin : In c body) by (apply in_rev; rewrite Hr; left; reflexivity).
  rewrite Forall_forall in Hbody. specialize (Hbody c Hin).
  unfold stringChar in Hbody. rewrite negb_true_iff, orb_false_iff in Hbody.
  intros Heq. inversion Heq; subst c. destruct Hbody as (_ & Hb).
  rewrite Ascii.eqb_refl in Hb. discriminate.
Qed.

(** Balanced text is carried over as it is, whatever commas stand in its
    quoted strings and groups: at its end the scan is where it was. *)
Lemma scan_balanced (commas : bool) (s : gostring) :
  balanced commas s ->
  forall prev st rest,
    okPrev prev -> inQuotes st = false -> 0 <= depth st ->
    (commas = true -> 0 < depth st) ->
    exists prev',
      okPrev prev'
      /\ splitLoop prev (s ++ rest) st
         = splitLoop prev' rest
             {| pairs := pairs st; current := current st ++ s;
                inQuotes := false; depth := depth st |}.
Proof.
  induction 1 as [commas|commas c s Hc _ IH|s _ IH
                 |commas body s Hbody _ IH
                 |commas o c inner s Ho Hc _ IHinner _ IH];
    intros prev st rest Hprev Hin Hdepth Hcommas.
  - exists prev. split; [assumption|]. cbn [app].
    rewrite app_nil_r. destruct st. cbn in *. subst. reflexivity.
  - cbn [app splitLoop]. rewrite (step_plain prev c st Hc).
    destruct (IH (Some c) (extend st [c]) rest) as (prev' & Hok & Heq);
      try assumption.
    + intros Heq. inversion Heq; subst c.
      apply plainChar_inv in Hc. destruct Hc as (_ & _ & _ & _ & Hb).
      rewrite Ascii.eqb_refl in Hb. discriminate.
    + exists prev'. split; [assumption|]. rewrite Heq. cbn.
      rewrite <- app_assoc. reflexivity.
  - cbn [app splitLoop].
    rewrite (step_comma_nested prev st Hin)
      by (specialize (Hcommas eq_refl); lia).
    destruct (IH (Some ","%char) (extend st [","%char]) rest)
      as (prev' & Hok & Heq); try assumption.
    + discriminate.
    + exists prev'. split; [assumption|]. rewrite Heq. cbn.
      rewrite <- app_assoc. reflexivity.
  - cbn [app splitLoop]. rewrite (step_quote prev st Hprev), Hin.
    cbn [negb]. rewrite <- app_assoc. cbn [app].
    rewrite scan_string_body by (assumption || reflexivity).
    cbn [splitLoop].
    rewrite step_quote
      by (apply okPrev_string_body; [assumption | discriminate]).
    cbn [extend pairs current inQuotes depth negb].
    match goal with
    | |- context [splitLoop (Some quote) (s ++ rest) ?st1] =>
        destruct (IH (Some quote) st1 rest) as (prev' & Hok & Heq);
          try assumption; try reflexivity; try discriminate
    end.
    exists prev'. split; [assumption|]. rewrite Heq. cbn.
    repeat rewrite <- app_assoc. reflexivity.
  - cbn [app splitLoop]. rewrite (step_open prev o st Ho Hin).
    rewrite <- app_assoc. cbn [app].
    match goal with
    | |- context [splitLoop (Some o) (inner ++ ?r) ?st1] =>
        destruct (IHinner (Some o) st1 r) as (prev1 & Hok1 & Heq1);
          try reflexivity; cbn; try lia
    end.
    { intros Heq. inversion Heq; subst o.
      destruct (opener_cases _ Ho); discriminate. }
    rewrite Heq1. cbn [splitLoop pairs current inQuotes depth].
    rewrite (step_close prev1 c _ Hc) by reflexivity.
    cbn [pairs current inQuotes depth].
    match goal with
    | |- context [splitLoop (Some c) (s ++ rest) ?st3] =>
        destruct (IH (Some c) st3 rest) as (prev' & Hok & Heq);
          try reflexivity; cbn; try lia
    end.
    { intros Heq. inversion Heq; subst c.
      destruct (closer_cases _ Hc); discriminate. }
    { intros Hyes. specialize (Hcommas Hyes). lia. }
    exists prev'. split; [assumption|]. rewrite Heq. cbn.
    repeat rewrite <- app_assoc. cbn [app].
    f_equal. f_equal. lia.
Qed.


(** Pieces of balanced text between commas at the top level. *)
Lemma scan_pieces (pieces : list gostring) (piece : gostring)
  (prev : option ascii) (st : splitState) :
  okPrev prev -> inQuotes st = false -> depth st = 0 -> current st = [] ->
  Forall (balanced false) (piece :: pieces) ->
  splitLoop prev (joinWith "," (piece :: pieces)) st
  = {| pairs := pairs st ++ map TrimSpace (removelast (piece :: pieces));
       current := last (piece :: pieces) [];
       inQuotes := false; depth := 0 |}.
Proof.
  revert piece prev st.
  induction pieces as [|next pieces IH];
    intros piece prev st Hprev Hin Hdepth Hcur Hall;
    inversion Hall as [|x l Hpiece Hrest]; subst.
  - cbn [joinWith removelast last map].
    destruct (scan_balanced false piece Hpiece prev st [] Hprev Hin
                ltac:(lia) ltac:(discriminate)) as (prev' & _ & Heq).
    rewrite app_nil_r in Heq. rewrite Heq. cbn [splitLoop].
    rewrite Hcur, Hdepth, app_nil_r. reflexivity.
  - change (joinWith "," (piece :: next :: pieces))
      with (piece ++ ","%char :: joinWith "," (next :: pieces)).
    destruct (scan_balanced false piece Hpiece prev st
                (","%char :: joinWith "," (next :: pieces)) Hprev Hin
                ltac:(lia) ltac:(discriminate)) as (prev' & _ & Heq).
    rewrite Heq. cbn [splitLoop].
    rewrite step_comma_top by (cbn; auto).
    cbn [pairs current inQuotes depth].
    rewrite IH; try reflexivity; try assumption; try discriminate.
    cbn [pairs]. rewrite Hcur. cbn [app].
    change (removelast (piece :: next :: pieces))
      with (piece :: removelast (next :: pieces)).
    change (last (piece :: next :: pieces) [])
      with (last (next :: pieces) []).
    cbn [map]. rewrite <- app_assoc. reflexivity.
Qed.

Lemma withoutEmptyLast_snoc (before : list gostring) (piece : gostring) :
  withoutEmptyLast (before ++ [piece])
  = if (0 <? len piece) then before ++ [piece] else before.
Proof.
  unfold withoutEmptyLast. rewrite rev_app_distr. cbn [rev app].
  destruct piece as [|c l].
  - rewrite rev_involutive. reflexivity.
  - unfold len. cbn [List.length].
    destruct (Z.ltb_spec 0 (Z.of_nat (S (List.length l)))) as [_|Hle]; [|lia].
    reflexivity.
Qed.

Lemma withoutEmptyLast_spec (piece : gostring) (pieces : list gostring) :
  withoutEmptyLast (piece :: pieces)
  = if (0 <? len (last (piece :: pieces) []))
    then removelast (piece :: pieces) ++ [last (piece :: pieces) []]
    else removelast (piece :: pieces).
Proof.
  assert (Hne : piece :: pieces <> []) by discriminate.
  pose proof (app_removelast_last [] Hne) as Hsplit.
  transitivity (withoutEmptyLast (removelast (piece :: pieces)
                                  ++ [last (piece :: pieces) []])).
  - f_equal. exact Hsplit.
  - apply withoutEmptyLast_snoc.
Qed.

(** One step either adds the byte to the pair in the making or, at a
    comma, closes the pair. *)
Lemma splitStep_shape (prev : option ascii) (c : ascii) (st : splitState) :
  (pairs (splitStep prev c st) = pairs st
   /\ current (splitStep prev c st) = current st ++ [c])
  \/ (c = ","%char
      /\ pairs (splitStep prev c st) = pairs st ++ [TrimSpace (current st)]
      /\ current (splitStep prev c st) = []).
Proof.
  unfold splitStep.
  destruct (Ascii.eqb c quote); [left; split; reflexivity|].
  destruct (isByte c "{" || isByte c "["); [left; split; reflexivity|].
  destruct (isByte c "}" || isByte c "]"); [left; split; reflexivity|].
  destruct (isByte c ",") eqn:Hcomma; [|left; split; reflexivity].
  destruct (negb (inQuotes st) && (depth st =? 0));
    [|left; split; reflexivity].
  right. unfold isByte in Hcomma. apply Ascii.eqb_eq in Hcomma.
  repeat split. assumption.
Qed.

Lemma infixOf_app_r (part s tail : gostring) :
  infixOf part s -> infixOf part (s ++ tail).
Proof.
  intros (a & b & ->). exists a, (b ++ tail).
  rewrite <- !app_assoc. reflexivity.
Qed.

(** What the scan keeps true of the pairs it has closed and of the pair
    in the making, [scanned] being the text read so far. *)
Lemma splitLoop_invariant (rest scanned : gostring) (prev : option ascii)
  (st : splitState) :
  (exists a, scanned = a ++ current st) ->
  Forall (fun pair => infixOf pair scanned) (pairs st) ->
  (List.length (pairs st) <= count_occ ascii_dec scanned ","%char)%nat ->
  (exists a, scanned ++ rest = a ++ current (splitLoop prev rest st))
  /\ Forall (fun pair => infixOf pair (scanned ++ rest))
       (pairs (splitLoop prev rest st))
  /\ (List.length (pairs (splitLoop prev rest st))
      <= count_occ ascii_dec (scanned ++ rest) ","%char)%nat.
Proof.
  revert scanned prev st.
  induction rest as [|c rest IH]; intros scanned prev st Hcur Hpairs Hcount.
  - cbn [splitLoop]. rewrite app_nil_r. auto.
  - cbn [splitLoop].
    replace (scanned ++ c :: rest) with ((scanned ++ [c]) ++ rest)
      by (rewrite <- app_assoc; reflexivity).
    assert (Hmono : Forall (fun pair => infixOf pair (scanned ++ [c]))
                      (pairs st)).
    { eapply Forall_impl; [|exact Hpairs].
      intros pair Hp. apply infixOf_app_r. assumption. }
    apply IH.
    + destruct (splitStep_shape prev c st) as [(_ & ->)|(_ & _ & ->)].
      * destruct Hcur as (a & ->). exists a. rewrite app_assoc. reflexivity.
      * exists (scanned ++ [c]). rewrite app_nil_r. reflexivity.
    + destruct (splitStep_shape prev c st) as [(-> & _)|(_ & -> & _)].
      * assumption.
      * apply Forall_app. split; [assumption|]. constructor; [|constructor].
        apply infixOf_app_r.
        apply RecordFacts.infixOf_trans with (current st).
        -- apply RecordFacts.infixOf_TrimSpace.
        -- destruct Hcur as (a & ->). exists a, [].
           rewrite app_nil_r. reflexivity.
    + rewrite count_occ_app.
      destruct (splitStep_shape prev c st) as [(-> & _)|(-> & -> & _)].
      * lia.
      * rewrite length_app. cbn [List.length count_occ].
        destruct (ascii_dec ","%char ","%char); [lia | congruence].
Qed.

End SplitFacts.

(** X13.  Pieces of balanced text joined by commas are split at exactly
    those commas: a comma inside a quoted string written without escapes,
    or inside a group in braces or brackets, never splits a pair.  Each
    piece comes out trimmed of white space, and an empty last piece, as
    after a trailing comma, is left out. *)
Theorem balanced_pieces_are_split_at_their_commas (pieces : list gostring) :
  Forall (balanced false) pieces ->
  splitJSONPairs (joinWith "," pieces) = map TrimSpace (withoutEmptyLast pieces).
Proof.
  intros Hall. destruct pieces as [|piece pieces]; [reflexivity|].
  unfold splitJSONPairs.
  rewrite SplitFacts.scan_pieces; try reflexivity; try assumption;
    try discriminate.
  cbn [pairs current app].
  rewrite SplitFacts.withoutEmptyLast_spec.
  destruct (0 <? len (last (piece :: pieces) [])).
  - rewrite map_app. reflexivity.
  - reflexivity.
Qed.

(** X14.  [splitJSONPairs] invents nothing: every pair it returns is a
    contiguous part of its input, and it returns at most one pair more
    than the input has commas. *)
Theorem pairs_are_parts_of_the_input (jsonContent : gostring) :
  Forall (fun pair => infixOf pair jsonContent) (splitJSONPairs jsonContent)
  /\ (List.length (splitJSONPairs jsonContent)
      <= S (count_occ ascii_dec jsonContent ","%char))%nat.
Proof.
  unfold splitJSONPairs.
  destruct (SplitFacts.splitLoop_invariant jsonContent [] None
              {| pairs := []; current := []; inQuotes := false; depth := 0 |})
    as ((a & Hcur) & Hpairs & Hcount).
  - exists []. reflexivity.
  - constructor.
  - cbn. lia.
  - cbn [app] in *.
    destruct (0 <? len _).
    + split.
      * apply Forall_app. split; [assumption|]. constructor; [|constructor].
        apply RecordFacts.infixOf_trans
          with (current (splitLoop None jsonContent
                  {| pairs := []; current := []; inQuotes := false;
                     depth := 0 |})).
        -- apply RecordFacts.infixOf_TrimSpace.
        -- exists a, []. rewrite app_nil_r. assumption.
      * rewrite length_app. cbn [List.length]. lia.
    + split; [assumption | lia].
Qed.

Lemma balanced_pieces_are_split_at_their_commas_witness :
  splitJSONPairs
    (joinWith ","
       [json "'explanation': 'fixed bug, added test'";
        json " 'files': [1, {2, 3}]"; str " "])
  = map TrimSpace
      (withoutEmptyLast
         [json "'explanation': 'fixed bug, added test'";
          json " 'files': [1, {2, 3}]"; str " "]).
Proof.
  apply balanced_pieces_are_split_at_their_commas.
  constructor; [|constructor; [|constructor; [|constructor]]].
  - apply (balanced_quoted false (str "explanation")
             (json ": 'fixed bug, added test'")).
    + repeat constructor.
    + do 2 (apply balanced_plain; [reflexivity|]).
      apply (balanced_quoted false (str "fixed bug, added test") []).
      * repeat constructor.
      * constructor.
  - apply balanced_plain; [reflexivity|].
    apply (balanced_quoted false (str "files") (str ": [1, {2, 3}]")).
    + repeat constructor.
    + do 2 (apply balanced_plain; [reflexivity|]).
      apply (balanced_group false "[" "]" (str "1, {2, 3}") []);
        [reflexivity | reflexivity | | constructor].
      apply balanced_plain; [reflexivity|].
      apply balanced_comma.
      apply balanced_plain; [reflexivity|].
      apply (balanced_group true "{" "}" (str "2, 3") []);
        [reflexivity | reflexivity | | constructor].
      apply balanced_plain; [reflexivity|].
      apply balanced_comma.
      do 2 (apply balanced_plain; [reflexivity|]).
      constructor.
  - apply balanced_plain; [reflexivity|]. constructor.
Defined.

Example balanced_pieces_example :
  splitJSONPairs
    (joinWith ","
       [json "'explanation': 'fixed bug, added test'";
        json " 'files': [1, {2, 3}]"; str " "])
  = [json "'explanation': 'fixed bug, added test'";
     json "'files': [1, {2, 3}]"; []].
Proof. reflexivity. Qed.

(** ** Reading back a verdict written as JSON *)

Module RenderFacts.

Import Strings Fmt Agent Spec Notions StringsFacts TrimFacts.

(** *** Decimal digits *)

Lemma digitChar_code (d : Z) :
  0 <= d < 10 -> N_of_ascii (digitChar d) = Z.to_N (48 + d).
Proof.
  intros Hd. unfold digitChar. apply N_ascii_embedding. lia.
Qed.

Lemma digitValue_digitChar (d : Z) :
  0 <= d < 10 -> digitValue (digitChar d) = d.
Proof.
  intros Hd. unfold digitValue. rewrite digitChar_code by assumption. lia.
Qed.

Lemma isDigit_digitChar (d : Z) : 0 <= d < 10 -> isDigit (digitChar d) = true.
Proof.
  intros Hd. apply FmtFacts.isDigit_range.
  rewrite digitChar_code by assumption. lia.
Qed.

Lemma digitsAcc_value (fuel : nat) (n : Z) (acc : gostring) :
  0 <= n -> Z.log2 n < Z.of_nat fuel ->
  fold_left (fun a c => 10 * a + digitValue c) (digitsAcc fuel n acc) 0
  = fold_left (fun a c => 10 * a + digitValue c) acc n.
Proof.
  revert n acc. induction fuel as [|fuel IH]; intros n acc Hn Hfuel.
  - pose proof (Z.log2_nonneg n). lia.
  - cbn [digitsAcc].
    pose proof (Z.mod_pos_bound n 10 ltac:(lia)) as Hmod.
    destruct (Z.ltb_spec n 10) as [Hsmall|Hbig].
    + cbn [fold_left]. rewrite digitValue_digitChar by assumption.
      rewrite Z.mod_small by lia. reflexivity.
    + rewrite IH.
      * cbn [fold_left]. rewrite digitValue_digitChar by assumption.
        f_equal. pose proof (Z.div_mod n 10 ltac:(lia)). lia.
      * apply Z.div_pos; lia.
      * assert (Hlt : Z.log2 (n / 10) < Z.log2 n).
        { assert (Hle : Z.log2 (n / 10) <= Z.log2 (n / 2)).
          { apply Z.log2_le_mono.
            apply Z.div_le_lower_bound; [lia|].
            pose proof (Z.div_mod n 10 ltac:(lia)).
            pose proof (Z.div_pos n 10 ltac:(lia) ltac:(lia)). lia. }
          replace (n / 2) with (Z.shiftr n 1) in Hle
            by (rewrite Z.shiftr_div_pow2 by lia; reflexivity).
          rewrite Z.log2_shiftr in Hle by lia.
          pose proof (Z.log2_pos n ltac:(lia)). lia. }
        lia.
Qed.

Lemma digitsAcc_digits (fuel : nat) (n : Z) (acc : gostring) :
  Forall (fun c => isDigit c = true) acc ->
  Forall (fun c => isDigit c = true) (digitsAcc fuel n acc).
Proof.
  revert n acc. induction fuel as [|fuel IH]; intros n acc Hacc;
    cbn [digitsAcc]; [assumption|].
  pose proof (Z.mod_pos_bound n 10 ltac:(lia)) as Hmod.
  assert (Hacc' : Forall (fun c => isDigit c = true)
                    (digitChar (n mod 10) :: acc)).
  { constructor; [apply isDigit_digitChar|]; assumption. }
  destruct (n <? 10); [assumption | apply IH; assumption].
Qed.

Lemma digitsAcc_nonempty (fuel : nat) (n : Z) (acc : gostring) :
  digitsAcc (S fuel) n acc <> [].
Proof.
  revert n acc. induction fuel as [|fuel IH]; intros n acc.
  - cbn [digitsAcc]. destruct (n <? 10); discriminate.
  - cbn [digitsAcc] in *. destruct (n <? 10); [discriminate|].
    apply (IH (n / 10) (digitChar (n mod 10) :: acc)).
Qed.

Lemma decimal_value (n : Z) : 0 <= n -> decimalValue (decimal n) = n.
Proof.
  intros Hn. unfold decimalValue, decimal.
  rewrite digitsAcc_value; [reflexivity | assumption|].
  pose proof (Z.log2_nonneg n). lia.
Qed.

Lemma decimal_digits (n : Z) :
  Forall (fun c => isDigit c = true) (decimal n).
Proof. apply digitsAcc_digits. constructor. Qed.

Lemma decimal_nonempty (n : Z) : decimal n <> [].
Proof. apply digitsAcc_nonempty. Qed.

(** [Sscanf] reads back what was written in decimal. *)
Lemma SscanfInt_decimal (n : Z) :
  0 <= n <= maxInt -> SscanfInt (decimal n) = Some n.
Proof.
  intros Hn. apply FmtFacts.SscanfInt_prefix.
  exists [], [], (decimal n), []. repeat split.
  - cbn [app]. rewrite app_nil_r. reflexivity.
  - constructor.
  - apply decimal_nonempty.
  - apply decimal_digits.
  - rewrite decimal_value by lia. constructor.
  - unfold minInt. unfold maxInt in Hn. lia.
  - lia.
Qed.

(** *** Trimming *)

Lemma TrimSpace_ends (s r r' : gostring) (c d : ascii) :
  s = c :: r -> s = r' ++ [d] -> plainByte c -> plainByte d ->
  TrimSpace s = s.
Proof.
  intros Hhead Hlast Hc Hd. unfold TrimSpace, TrimRightSpace.
  rewrite Hhead at 1. rewrite TrimLeftSpace_plain by assumption.
  rewrite <- Hhead. rewrite Hlast at 1.
  rewrite rev_app_distr. cbn [rev app].
  rewrite trimRightSpaceRev_plain by assumption.
  cbn [rev]. rewrite rev_involutive. symmetry. assumption.
Qed.

Lemma TrimSpace_leading_space (s : gostring) :
  TrimSpace (" "%char :: s) = TrimSpace s.
Proof. reflexivity. Qed.

Lemma TrimLeft_stop (c : ascii) (s cutset : gostring) :
  inCutset cutset c = false -> TrimLeft (c :: s) cutset = c :: s.
Proof. intros Hc. cbn [TrimLeft]. rewrite Hc. reflexivity. Qed.

Lemma Trim_ends (s r r' cutset : gostring) (c d : ascii) :
  s = c :: r -> s = r' ++ [d] ->
  inCutset cutset c = false -> inCutset cutset d = false ->
  Trim s cutset = s.
Proof.
  intros Hhead Hlast Hc Hd. unfold Trim, TrimRight.
  rewrite Hhead at 1. rewrite TrimLeft_stop by assumption.
  rewrite <- Hhead. rewrite Hlast at 1.
  rewrite rev_app_distr. cbn [rev app].
  rewrite TrimLeft_stop by assumption.
  cbn [rev]. rewrite rev_involutive. symmetry. assumption.
Qed.

Lemma Trim_nil (cutset : gostring) : Trim [] cutset = [].
Proof. reflexivity. Qed.

(** What is wrapped in bytes of the cutset, and has none at its own ends,
    is unwrapped. *)
Lemma Trim_wrapped (body cutset : gostring) (o c : ascii) :
  inCutset cutset o = true -> inCutset cutset c = true ->
  (body = []
   \/ exists x r r' y,
        body = x :: r /\ body = r' ++ [y]
        /\ inCutset cutset x = false /\ inCutset cutset y = false) ->
  Trim (o :: body ++ [c]) cutset = body.
Proof.
  intros Ho Hc [->|(x & r & r' & y & Hhead & Hlast & Hx & Hy)];
    unfold Trim, TrimRight; cbn [TrimLeft]; rewrite Ho.
  - cbn [app TrimLeft]. rewrite Hc. reflexivity.
  - rewrite Hhead at 1. cbn [app TrimLeft]. rewrite Hx.
    change (x :: r ++ [c]) with ((x :: r) ++ [c]). rewrite <- Hhead.
    rewrite rev_app_distr. cbn [rev app TrimLeft]. rewrite Hc.
    rewrite Hlast at 1. rewrite rev_app_distr. cbn [rev app].
    rewrite TrimLeft_stop by assumption.
    cbn [rev]. rewrite rev_involutive. symmetry. assumption.
Qed.

(** A clean text in quotation marks is unquoted. *)
Lemma clean_ends (s : gostring) :
  cleanText s ->
  s = []
  \/ exists x r r' y,
       s = x :: r /\ s = r' ++ [y]
       /\ inCutset [quote] x = false /\ inCutset [quote] y = false.
Proof.
  intros Hclean. destruct s as [|x r]; [left; reflexivity|]. right.
  assert (Hne : x :: r <> []) by discriminate.
  pose proof (app_removelast_last x Hne) as Hlast.
  exists x, r, (removelast (x :: r)), (last (x :: r) x).
  assert (Hnq : forall c, In c (x :: r) -> inCutset [quote] c = false).
  { intros c Hin. unfold cleanText in Hclean.
    rewrite Forall_forall in Hclean. specialize (Hclean c Hin).
    unfold stringChar in Hclean. rewrite negb_true_iff, orb_false_iff in Hclean.
    unfold inCutset. cbn [existsb]. rewrite (proj1 Hclean). reflexivity. }
  repeat split; try assumption.
  - apply Hnq. left. reflexivity.
  - apply Hnq. rewrite Hlast at 2. apply in_or_app. right. left. reflexivity.
Qed.

Lemma Trim_quoted (s : gostring) :
  cleanText s -> Trim (quoted s) [quote] = s.
Proof.
  intros Hclean. unfold quoted. apply Trim_wrapped.
  - unfold inCutset. cbn [existsb]. rewrite Ascii.eqb_refl. reflexivity.
  - unfold inCutset. cbn [existsb]. rewrite Ascii.eqb_refl. reflexivity.
  - apply clean_ends. assumption.
Qed.

Lemma TrimSuffix_other (r' : gostring) (d : ascii) :
  d <> ","%char -> TrimSuffix (r' ++ [d]) (str ",") = r' ++ [d].
Proof.
  intros Hd. unfold TrimSuffix.
  destruct (HasSuffix (r' ++ [d]) (str ",")) eqn:Hs; [|reflexivity].
  apply HasSuffix_spec in Hs. destruct Hs as (pre & Heq).
  apply app_inj_tail in Heq. destruct Heq as (_ & Heq). congruence.
Qed.


(** *** Keys and values *)

Lemma plain_quote : plainByte quote.
Proof. split; [vm_compute|]; reflexivity. Qed.

(** The key and the value read off a member. *)
Lemma keyValue_member (key : string) (value : gostring) :
  ~ In ":"%char (str key) -> cleanText (str key) ->
  keyValue (member key value)
  = Some (str key,
          Trim (TrimSuffix (TrimSpace (" "%char :: value)) (str ","))
            [quote]).
Proof.
  intros Hcolon Hclean. unfold keyValue, member, SplitN2.
  change (quote :: str key ++ quote :: str ": " ++ value)
    with ((quote :: str key ++ [quote] ++ []) ++ ":"%char :: " "%char :: value)
    || replace (quote :: str key ++ quote :: str ": " ++ value)
         with ((quote :: str key ++ [quote])
               ++ ":"%char :: " "%char :: value)
         by (cbn [app]; rewrite <- app_assoc; reflexivity).
  rewrite Parse.cutFirst_first.
  - cbn [rev app].
    rewrite (TrimSpace_plain quote quote (str key) plain_quote plain_quote).
    change (quote :: str key ++ [quote]) with (quoted (str key)).
    rewrite Trim_quoted by assumption. reflexivity.
  - intros [Hq|Hin]; [discriminate Hq|].
    apply in_app_or in Hin. destruct Hin as [Hin|[Hq|[]]];
      [exact (Hcolon Hin) | discriminate Hq].
Qed.

Lemma value_quoted (s : gostring) :
  cleanText s ->
  Trim (TrimSuffix (TrimSpace (" "%char :: quoted s)) (str ",")) [quote] = s.
Proof.
  intros Hclean. rewrite TrimSpace_leading_space. unfold quoted.
  rewrite (TrimSpace_plain quote quote s plain_quote plain_quote).
  change (quote :: s ++ [quote]) with ((quote :: s) ++ [quote]).
  rewrite TrimSuffix_other by discriminate.
  apply Trim_quoted. assumption.
Qed.

Lemma value_bool (b : bool) :
  Trim (TrimSuffix (TrimSpace (" "%char :: boolText b)) (str ",")) [quote]
  = boolText b.
Proof. destruct b; reflexivity. Qed.

Lemma digits_ends (ds : gostring) :
  ds <> [] -> Forall (fun c => isDigit c = true) ds ->
  exists c r r' d,
    ds = c :: r /\ ds = r' ++ [d]
    /\ isDigit c = true /\ isDigit d = true.
Proof.
  intros Hne Hall. destruct ds as [|c r]; [congruence|].
  pose proof (app_removelast_last c Hne) as Hlast.
  exists c, r, (removelast (c :: r)), (last (c :: r) c).
  rewrite Forall_forall in Hall. repeat split; try assumption.
  - apply Hall. left. reflexivity.
  - apply Hall. rewrite Hlast at 2. apply in_or_app. right. left. reflexivity.
Qed.

Lemma digit_not (c x : ascii) :
  isDigit c = true -> isDigit x = false -> Ascii.eqb c x = false.
Proof.
  intros Hc Hx. apply Ascii.eqb_neq. intros ->. congruence.
Qed.

Lemma value_digits (ds : gostring) :
  ds <> [] -> Forall (fun c => isDigit c = true) ds ->
  Trim (TrimSuffix (TrimSpace (" "%char :: ds)) (str ",")) [quote] = ds.
Proof.
  intros Hne Hall.
  destruct (digits_ends ds Hne Hall) as (c & r & r' & d & Hhead & Hlast & Hc & Hd).
  rewrite TrimSpace_leading_space.
  rewrite (TrimSpace_ends ds r r' c d Hhead Hlast
             (FmtFacts.digit_plain c Hc) (FmtFacts.digit_plain d Hd)).
  rewrite Hlast at 1. rewrite TrimSuffix_other.
  - rewrite <- Hlast. apply (Trim_ends ds r r' [quote] c d Hhead Hlast).
    + unfold inCutset. cbn [existsb]. rewrite (digit_not c quote Hc eq_refl).
      reflexivity.
    + unfold inCutset. cbn [existsb]. rewrite (digit_not d quote Hd eq_refl).
      reflexivity.
  - intros ->. discriminate Hd.
Qed.

(** *** The members are balanced *)

Lemma digit_plainChar (c : ascii) : isDigit c = true -> plainChar c = true.
Proof.
  intros Hc. unfold plainChar, opener, closer, isByte.
  cbn [list_ascii_of_string].
  rewrite (digit_not c quote Hc eq_refl), (digit_not c backslash Hc eq_refl),
    (digit_not c "{" Hc eq_refl), (digit_not c "[" Hc eq_refl),
    (digit_not c "}" Hc eq_refl), (digit_not c "]" Hc eq_refl),
    (digit_not c "," Hc eq_refl).
  reflexivity.
Qed.

Lemma balanced_plain_text (commas : bool) (s rest : gostring) :
  Forall (fun c => plainChar c = true) s ->
  balanced commas rest -> balanced commas (s ++ rest).
Proof.
  intros Hs Hrest. induction Hs as [|c s Hc _ IH]; [assumption|].
  cbn [app]. apply balanced_plain; assumption.
Qed.

Lemma balanced_quoted_text (s : gostring) :
  cleanText s -> balanced false (quoted s).
Proof.
  intros Hclean. unfold quoted.
  apply (balanced_quoted false s []); [assumption | constructor].
Qed.

Lemma balanced_bool (b : bool) : balanced false (boolText b).
Proof.
  destruct b; cbn; repeat (apply balanced_plain; [reflexivity|]); constructor.
Qed.

Lemma balanced_digits (ds : gostring) :
  Forall (fun c => isDigit c = true) ds -> balanced false ds.
Proof.
  intros Hall. rewrite <- (app_nil_r ds).
  apply balanced_plain_text; [|constructor].
  eapply Forall_impl; [|exact Hall]. intros c. apply digit_plainChar.
Qed.

Lemma balanced_member (key : string) (value : gostring) :
  cleanText (str key) -> balanced false value ->
  balanced false (member key value).
Proof.
  intros Hkey Hvalue. unfold member.
  apply (balanced_quoted false (str key)); [assumption|].
  cbn [str list_ascii_of_string app].
  do 2 (apply balanced_plain; [reflexivity|]). assumption.
Qed.

Lemma balanced_spaced (s : gostring) :
  balanced false s -> balanced false (str " " ++ s).
Proof. intros Hs. cbn. apply balanced_plain; [reflexivity | assumption]. Qed.


(** *** The rendered object *)

Lemma member_ends (key : string) (value r : gostring) (d : ascii) :
  value = r ++ [d] ->
  member key value = (quote :: str key ++ quote :: str ": " ++ r) ++ [d].
Proof.
  intros ->. unfold member. cbn [app]. f_equal.
  rewrite <- app_assoc. cbn [app]. reflexivity.
Qed.

Lemma TrimSpace_member (key : string) (value r : gostring) (d : ascii) :
  value = r ++ [d] -> plainByte d ->
  TrimSpace (member key value) = member key value.
Proof.
  intros Hvalue Hd.
  apply (TrimSpace_ends (member key value)
           (str key ++ quote :: str ": " ++ value)
           (quote :: str key ++ quote :: str ": " ++ r) quote d).
  - reflexivity.
  - apply member_ends. assumption.
  - exact plain_quote.
  - assumption.
Qed.

Lemma joinWith_ends (sep : ascii) (pieces : list gostring) (r : gostring)
  (d : ascii) :
  last pieces [] = r ++ [d] ->
  exists r', joinWith sep pieces = r' ++ [d].
Proof.
  induction pieces as [|p ps IH]; intros Hlast.
  - cbn in Hlast. destruct r; discriminate Hlast.
  - destruct ps as [|q qs].
    + exists r. exact Hlast.
    + destruct (IH Hlast) as (r' & Hr').
      exists (p ++ sep :: r').
      change (joinWith sep (p :: q :: qs))
        with (p ++ sep :: joinWith sep (q :: qs)).
      rewrite Hr', <- app_assoc. reflexivity.
Qed.

Lemma decimal_ends (n : Z) :
  exists r d, decimal n = r ++ [d] /\ isDigit d = true.
Proof.
  destruct (digits_ends (decimal n) (decimal_nonempty n) (decimal_digits n))
    as (c & r & r' & d & _ & Hlast & _ & Hd).
  exists r', d. split; assumption.
Qed.

Lemma key_without_colon (key : string) :
  forallb (fun c => negb (Ascii.eqb c ":")) (str key) = true ->
  ~ In ":"%char (str key).
Proof.
  intros Hall Hin. rewrite forallb_forall in Hall.
  specialize (Hall _ Hin). discriminate Hall.
Qed.

Lemma key_clean (key : string) :
  forallb stringChar (str key) = true -> cleanText (str key).
Proof.
  intros Hall. apply Forall_forall. rewrite forallb_forall in Hall.
  exact Hall.
Qed.

Lemma members_balanced (a : CommitAnalysis) :
  cleanVerdict a -> Forall (balanced false) (members a).
Proof.
  intros (Hhash & Hmsg & Hauthor & Hdate & Hexpl & _).
  unfold members.
  repeat (apply Forall_cons || apply Forall_nil);
    try apply balanced_spaced; apply balanced_member;
    try (apply key_clean; reflexivity);
    try (apply balanced_quoted_text; assumption).
  - apply balanced_bool.
  - apply balanced_digits. apply decimal_digits.
Qed.

Lemma members_trimmed (a : CommitAnalysis) :
  map TrimSpace (members a)
  = [member "commit_hash" (quoted (CommitHash a));
     member "commit_message" (quoted (CommitMsg a));
     member "author" (quoted (Author a));
     member "date" (quoted (Date a));
     member "explanation" (quoted (Explanation a));
     member "is_likely" (boolText (IsLikely a));
     member "confidence" (decimal (Confidence a))].
Proof.
  unfold members. cbn [map app str list_ascii_of_string].
  rewrite !TrimSpace_leading_space.
  destruct (decimal_ends (Confidence a)) as (r & d & Hdec & Hd).
  rewrite (TrimSpace_member "confidence" _ r d Hdec
             (FmtFacts.digit_plain d Hd)).
  rewrite !(fun key s =>
              TrimSpace_member key (quoted s) (quote :: s) quote eq_refl
                plain_quote).
  replace (TrimSpace (member "is_likely" (boolText (IsLikely a))))
    with (member "is_likely" (boolText (IsLikely a)))
    by (destruct (IsLikely a); reflexivity).
  reflexivity.
Qed.

Lemma split_members (a : CommitAnalysis) :
  cleanVerdict a ->
  splitJSONPairs (joinWith "," (members a)) = map TrimSpace (members a).
Proof.
  intros Hclean. pose proof (members_balanced a Hclean) as Hall.
  unfold splitJSONPairs.
  change (members a) with
    (member "commit_hash" (quoted (CommitHash a)) :: tl (members a)) in *.
  rewrite SplitFacts.scan_pieces;
    [reflexivity | discriminate | reflexivity | reflexivity | reflexivity
    | assumption].
Qed.

Lemma object_body (a : CommitAnalysis) :
  Trim (TrimSpace (render a)) (str "{}") = joinWith "," (members a).
Proof.
  unfold render. cbn [str list_ascii_of_string app].
  rewrite (TrimSpace_plain "{" "}"); [|split; reflexivity|split; reflexivity].
  apply Trim_wrapped; [reflexivity|reflexivity|]. right.
  destruct (decimal_ends (Confidence a)) as (r & d & Hdec & Hd).
  destruct (joinWith_ends "," (members a)
              (" "%char :: quote :: str "confidence" ++ quote :: str ": " ++ r)
              d) as (r' & Hr').
  { cbn [members last]. rewrite (member_ends _ _ r d Hdec). reflexivity. }
  exists quote, (tl (joinWith "," (members a))), r', d.
  repeat split.
  - exact Hr'.
  - unfold inCutset. cbn [existsb str list_ascii_of_string].
    rewrite (digit_not d "{" Hd eq_refl), (digit_not d "}" Hd eq_refl).
    reflexivity.
Qed.

Lemma setField_confidence_read (analysis : CommitAnalysis)
  (value : gostring) (n : Z) :
  SscanfInt value = Some n ->
  setField analysis (str "confidence") value
  = {| CommitHash := CommitHash analysis; CommitMsg := CommitMsg analysis;
       Author := Author analysis; Date := Date analysis;
       Explanation := Explanation analysis; IsLikely := IsLikely analysis;
       Confidence := n |}.
Proof.
  intros Hread.
  change (setField analysis (str "confidence") value)
    with {| CommitHash := CommitHash analysis;
            CommitMsg := CommitMsg analysis;
            Author := Author analysis; Date := Date analysis;
            Explanation := Explanation analysis;
            IsLikely := IsLikely analysis;
            Confidence := match Fmt.SscanfInt value with
                          | Some n => n
                          | None => Confidence analysis
                          end |}.
  rewrite Hread. reflexivity.
Qed.

(** What the loop over the pairs makes of the members of a verdict. *)
Lemma read_members (a : CommitAnalysis) :
  cleanVerdict a ->
  fold_left parsePair (map TrimSpace (members a)) zeroAnalysis = a.
Proof.
  intros (Hhash & Hmsg & Hauthor & Hdate & Hexpl & Hconf).
  rewrite members_trimmed. cbn [fold_left]. unfold parsePair.
  rewrite !keyValue_member
    by (apply key_without_colon || apply key_clean; reflexivity).
  rewrite !value_quoted by assumption.
  rewrite value_bool.
  rewrite value_digits by (apply decimal_nonempty || apply decimal_digits).
  rewrite (setField_confidence_read _ _ (Confidence a))
    by (apply SscanfInt_decimal; assumption).
  destruct a as [h m au dt ex l c]. destruct l; reflexivity.
Qed.

End RenderFacts.

(** X15.  Round trip of a verdict through the reader of the reply.  A
    verdict written as the JSON object the prompt asks for -- its seven
    members in the order of the prompt, the texts between quotation marks,
    the confidence in decimal -- is read back by [parseAnalysis] unchanged,
    when its texts hold no quotation mark and no backslash and its
    confidence is between 0 and the largest [int]. *)
Theorem rendered_verdict_is_read_back (a : Agent.CommitAnalysis) :
  Notions.cleanVerdict a ->
  Agent.parseAnalysis (Notions.render a) = a.
Proof.
  intros Hclean. unfold Agent.parseAnalysis.
  rewrite RenderFacts.object_body.
  rewrite RenderFacts.split_members by assumption.
  apply RenderFacts.read_members. assumption.
Qed.

Lemma rendered_verdict_is_read_back_witness :
  Notions.cleanVerdict
    {| Agent.CommitHash := str "0a1b2c3d4e5f";
       Agent.CommitMsg := str "fix: parser, again";
       Agent.Author := str "A. Selim";
       Agent.Date := str "2025-01-02 10:20:30 +0000";
       Agent.Explanation := str "touches {auth} and [login]";
       Agent.IsLikely := true; Agent.Confidence := 85 |}
  /\ Agent.parseAnalysis
       (Notions.render
          {| Agent.CommitHash := str "0a1b2c3d4e5f";
             Agent.CommitMsg := str "fix: parser, again";
             Agent.Author := str "A. Selim";
             Agent.Date := str "2025-01-02 10:20:30 +0000";
             Agent.Explanation := str "touches {auth} and [login]";
             Agent.IsLikely := true; Agent.Confidence := 85 |})
     = {| Agent.CommitHash := str "0a1b2c3d4e5f";
          Agent.CommitMsg := str "fix: parser, again";
          Agent.Author := str "A. Selim";
          Agent.Date := str "2025-01-02 10:20:30 +0000";
          Agent.Explanation := str "touches {auth} and [login]";
          Agent.IsLikely := true; Agent.Confidence := 85 |}.
Proof.
  assert (Hclean : Notions.cleanVerdict
    {| Agent.CommitHash := str "0a1b2c3d4e5f";
       Agent.CommitMsg := str "fix: parser, again";
       Agent.Author := str "A. Selim";
       Agent.Date := str "2025-01-02 10:20:30 +0000";
       Agent.Explanation := str "touches {auth} and [login]";
       Agent.IsLikely := true; Agent.Confidence := 85 |}).
  { unfold Notions.cleanVerdict, Notions.cleanText. cbn.
    repeat split; try (repeat constructor); try lia; vm_compute; discriminate. }
  split; [exact Hclean|].
  apply rendered_verdict_is_read_back. exact Hclean.
Defined.

(* ===================================================================== *)
(** ** The commits of a date range and the debug mode *)
(* ===================================================================== *)

Module LogFacts.

Import Strings Agent Spec Notions Git Main LogNotions.

(** *** [strings.Split] and the join *)

Lemma splitByte_nonempty (s : gostring) (sep : ascii) (current : gostring) :
  splitByte s sep current <> [].
Proof.
  intros Heq. pose proof (RecordFacts.splitByte_length sep s current) as Hlen.
  rewrite Heq in Hlen. discriminate Hlen.
Qed.

Lemma joinWith_cons (sep : ascii) (piece : gostring) (rest : list gostring) :
  rest <> [] ->
  joinWith sep (piece :: rest) = piece ++ sep :: joinWith sep rest.
Proof. destruct rest; [congruence | reflexivity]. Qed.

(** Joining the parts gives the string back. *)
Lemma splitByte_join (sep : ascii) (s current : gostring) :
  joinWith sep (splitByte s sep current) = rev current ++ s.
Proof.
  revert current. induction s as [|c s IH]; intros current; cbn [splitByte].
  - cbn [joinWith]. symmetry. apply app_nil_r.
  - destruct (Ascii.eqb_spec c sep) as [->|Hne].
    + rewrite joinWith_cons by apply splitByte_nonempty.
      rewrite IH. reflexivity.
    + rewrite IH. cbn [rev]. rewrite <- app_assoc. reflexivity.
Qed.

Lemma splitByte_no_sep (sep : ascii) (s current : gostring) :
  ~ In sep current ->
  Forall (fun part => ~ In sep part) (splitByte s sep current).
Proof.
  revert current. induction s as [|c s IH]; intros current Hcur;
    cbn [splitByte].
  - constructor; [|constructor]. rewrite <- in_rev. assumption.
  - destruct (Ascii.eqb_spec c sep) as [->|Hne].
    + constructor; [rewrite <- in_rev; assumption|].
      apply IH. intros [].
    + apply IH. intros [Heq|Hin]; [congruence | exact (Hcur Hin)].
Qed.

Lemma joinWith_infix (sep : ascii) (pieces : list gostring) (p : gostring) :
  In p pieces -> infixOf p (joinWith sep pieces).
Proof.
  induction pieces as [|q qs IH]; intros Hin; [destruct Hin|].
  destruct qs as [|q' qs'].
  - destruct Hin as [->|[]]. apply RecordFacts.infixOf_refl.
  - rewrite joinWith_cons by discriminate.
    destruct Hin as [->|Hin].
    + exists [], (sep :: joinWith sep (q' :: qs')). reflexivity.
    + destruct (IH Hin) as (before & after & Hj).
      exists (q ++ sep :: before), after. rewrite Hj.
      rewrite <- app_assoc. reflexivity.
Qed.

(** Every part is a contiguous part of the string, and has no
    separator. *)
Lemma Split_parts (s : gostring) (sep : ascii) :
  Forall (fun part => ~ In sep part /\ infixOf part s) (Split s sep).
Proof.
  apply Forall_forall. intros part Hin. split.
  - pose proof (splitByte_no_sep sep s [] (fun H => H)) as Hall.
    rewrite Forall_forall in Hall. exact (Hall part Hin).
  - pose proof (joinWith_infix sep (Split s sep) part Hin) as Hinfix.
    unfold Split in Hinfix. rewrite splitByte_join in Hinfix. exact Hinfix.
Qed.

Lemma splitByte_app (sep : ascii) (l rest current : gostring) :
  ~ In sep l ->
  splitByte (l ++ rest) sep current = splitByte rest sep (rev l ++ current).
Proof.
  revert current. induction l as [|c l IH]; intros current Hno.
  - reflexivity.
  - cbn [app splitByte]. destruct (Ascii.eqb_spec c sep) as [->|Hne].
    + exfalso. apply Hno. left. reflexivity.
    + rewrite IH by (intros Hin; apply Hno; right; assumption).
      cbn [rev]. rewrite <- app_assoc. reflexivity.
Qed.

(** Splitting a join gives the pieces back. *)
Lemma Split_joinWith (sep : ascii) (line : gostring) (lines : list gostring) :
  Forall (fun l => ~ In sep l) (line :: lines) ->
  Split (joinWith sep (line :: lines)) sep = line :: lines.
Proof.
  unfold Split. revert line. induction lines as [|l ls IH]; intros line Hall.
  - cbn [joinWith]. rewrite <- (app_nil_r line) at 1.
    rewrite splitByte_app by (inversion Hall; assumption).
    cbn [splitByte]. rewrite app_nil_r, rev_involutive. reflexivity.
  - rewrite joinWith_cons by discriminate.
    rewrite splitByte_app by (inversion Hall; assumption).
    cbn [splitByte]. rewrite Ascii.eqb_refl, app_nil_r, rev_involutive.
    f_equal. apply IH. inversion Hall; assumption.
Qed.

(** *** White space at the ends *)

Lemma TrimLeftSpace_fixed (s : gostring) :
  startsWithSpace s = false -> TrimLeftSpace s = s.
Proof.
  destruct s as [|c1 [|c2 [|c3 r3]]]; cbn [startsWithSpace TrimLeftSpace];
    intros Hs; try reflexivity.
  - rewrite orb_false_r in Hs. rewrite Hs. reflexivity.
  - apply orb_false_iff in Hs. destruct Hs as (H1 & H2).
    rewrite orb_false_r in H2. rewrite H1, H2. reflexivity.
  - apply orb_false_iff in Hs. destruct Hs as (H1 & H2).
    apply orb_false_iff in H2. destruct H2 as (H2 & H3).
    rewrite H1, H2, H3. reflexivity.
Qed.

Lemma trimRightSpaceRev_fixed (r : gostring) :
  startsWithSpaceRev r = false -> trimRightSpaceRev r = r.
Proof.
  destruct r as [|c1 [|c2 [|c3 r3]]];
    cbn [startsWithSpaceRev trimRightSpaceRev]; intros Hs; try reflexivity.
  - rewrite orb_false_r in Hs. rewrite Hs. reflexivity.
  - apply orb_false_iff in Hs. destruct Hs as (H1 & H2).
    rewrite orb_false_r in H2. rewrite H1, H2. reflexivity.
  - apply orb_false_iff in Hs. destruct Hs as (H1 & H2).
    apply orb_false_iff in H2. destruct H2 as (H2 & H3).
    rewrite H1, H2, H3. reflexivity.
Qed.

(** Trimmed text is left as it is. *)
Lemma TrimSpace_fixed (s : gostring) : trimmed s -> TrimSpace s = s.
Proof.
  intros (Hstart & Hend). unfold TrimSpace, TrimRightSpace.
  rewrite TrimLeftSpace_fixed by assumption.
  rewrite trimRightSpaceRev_fixed by assumption.
  apply rev_involutive.
Qed.

Lemma TrimLeftSpace_starts_bounded (n : nat) (s : gostring) :
  (List.length s <= n)%nat -> startsWithSpace (TrimLeftSpace s) = false.
Proof.
  revert s. induction n as [|n IH]; intros s Hn.
  - destruct s; [reflexivity | simpl in Hn; lia].
  - destruct s as [|c1 r1]; [reflexivity|].
    cbn [TrimLeftSpace]. simpl in Hn.
    destruct (isASCIISpace c1) eqn:H1; [apply IH; lia|].
    destruct r1 as [|c2 r2].
    + cbn [startsWithSpace]. rewrite H1. reflexivity.
    + simpl in Hn. destruct (isSpace2 c1 c2) eqn:H2; [apply IH; lia|].
      destruct r2 as [|c3 r3].
      * cbn [startsWithSpace]. rewrite H1, H2. reflexivity.
      * simpl in Hn. destruct (isSpace3 c1 c2 c3) eqn:H3; [apply IH; lia|].
        cbn [startsWithSpace]. rewrite H1, H2, H3. reflexivity.
Qed.

Lemma trimRightSpaceRev_starts_bounded (n : nat) (r : gostring) :
  (List.length r <= n)%nat -> startsWithSpaceRev (trimRightSpaceRev r) = false.
Proof.
  revert r. induction n as [|n IH]; intros r Hn.
  - destruct r; [reflexivity | simpl in Hn; lia].
  - destruct r as [|c1 r1]; [reflexivity|].
    cbn [trimRightSpaceRev]. simpl in Hn.
    destruct (isASCIISpace c1) eqn:H1; [apply IH; lia|].
    destruct r1 as [|c2 r2].
    + cbn [startsWithSpaceRev]. rewrite H1. reflexivity.
    + simpl in Hn. destruct (isSpace2 c2 c1) eqn:H2; [apply IH; lia|].
      destruct r2 as [|c3 r3].
      * cbn [startsWithSpaceRev]. rewrite H1, H2. reflexivity.
      * simpl in Hn. destruct (isSpace3 c3 c2 c1) eqn:H3; [apply IH; lia|].
        cbn [startsWithSpaceRev]. rewrite H1, H2, H3. reflexivity.
Qed.

Lemma startsWithSpace_prefix (p q : gostring) :
  startsWithSpace (p ++ q) = false -> startsWithSpace p = false.
Proof.
  destruct p as [|c1 [|c2 [|c3 r3]]]; cbn [app startsWithSpace];
    intros Hs; try reflexivity.
  - apply orb_false_iff in Hs. destruct Hs as (H1 & _). rewrite H1.
    reflexivity.
  - apply orb_false_iff in Hs. destruct Hs as (H1 & H2). rewrite H1.
    destruct q as [|c3 q].
    + exact H2.
    + apply orb_false_iff in H2. destruct H2 as (H2 & _). rewrite H2.
      reflexivity.
  - exact Hs.
Qed.

(** What [strings.TrimSpace] returns has no white space at either end. *)
Lemma TrimSpace_trimmed (s : gostring) : trimmed (TrimSpace s).
Proof.
  unfold trimmed, endsWithSpace, TrimSpace, TrimRightSpace.
  set (t := TrimLeftSpace s). split.
  - destruct (TrimFacts.trimRightSpaceRev_suffix_bounded
                (List.length (rev t)) (rev t) (le_n _)) as (b & Hb).
    apply (startsWithSpace_prefix _ (rev b)).
    rewrite <- rev_app_distr, <- Hb, rev_involutive.
    apply (TrimLeftSpace_starts_bounded (List.length s)). apply le_n.
  - rewrite rev_involutive.
    apply (trimRightSpaceRev_starts_bounded (List.length (rev t))).
    apply le_n.
Qed.

(** ASCII white space after trimmed text is trimmed off. *)
Lemma space_code (c : ascii) :
  isASCIISpace c = true -> (N_of_ascii c < 128)%N.
Proof.
  unfold isASCIISpace. intros Hc. apply orb_true_iff in Hc.
  destruct Hc as [Hc|Hc].
  - apply andb_true_iff in Hc. destruct Hc as (_ & Hc).
    apply N.leb_le in Hc. lia.
  - apply N.eqb_eq in Hc. lia.
Qed.

Lemma space_not_high (c : ascii) (n : N) :
  isASCIISpace c = true -> (128 <= n)%N -> byteIs c n = false.
Proof.
  intros Hc Hn. apply space_code in Hc. unfold byteIs.
  apply N.eqb_neq. lia.
Qed.

Lemma isSpace2_space_second (c1 c2 : ascii) :
  isASCIISpace c2 = true -> isSpace2 c1 c2 = false.
Proof.
  intros Hc. unfold isSpace2.
  rewrite !(space_not_high c2) by (assumption || lia).
  apply andb_false_r.
Qed.

Lemma isSpace3_space_second (c1 c2 c3 : ascii) :
  isASCIISpace c2 = true -> isSpace3 c1 c2 c3 = false.
Proof.
  intros Hc. unfold isSpace3.
  rewrite !(space_not_high c2) by (assumption || lia).
  rewrite !andb_false_r. reflexivity.
Qed.

Lemma isSpace3_space_third (c1 c2 c3 : ascii) :
  isASCIISpace c3 = true -> isSpace3 c1 c2 c3 = false.
Proof.
  intros Hc. unfold isSpace3.
  rewrite !(space_not_high c3) by (assumption || lia).
  pose proof (space_code c3 Hc) as Hlt.
  destruct (N.leb_spec 128 (N_of_ascii c3)) as [Hge|_]; [lia|].
  cbn [andb orb]. rewrite !andb_false_r. reflexivity.
Qed.

Lemma startsWithSpace_padded (s post : gostring) :
  s <> [] -> startsWithSpace s = false ->
  Forall (fun c => isASCIISpace c = true) post ->
  startsWithSpace (s ++ post) = false.
Proof.
  intros Hne Hs Hpost.
  destruct s as [|c1 [|c2 [|c3 r3]]]; [congruence| | |exact Hs].
  - cbn [startsWithSpace] in Hs. rewrite orb_false_r in Hs.
    destruct post as [|p1 post]; cbn [app startsWithSpace].
    + rewrite Hs. reflexivity.
    + inversion Hpost as [|? ? Hp1 Hrest]; subst.
      rewrite Hs, (isSpace2_space_second c1 p1 Hp1).
      destruct post as [|p2 post]; [reflexivity|].
      rewrite (isSpace3_space_second c1 p1 p2 Hp1). reflexivity.
  - cbn [startsWithSpace] in Hs.
    apply orb_false_iff in Hs. destruct Hs as (H1 & H2).
    rewrite orb_false_r in H2.
    destruct post as [|p1 post]; cbn [app startsWithSpace].
    + rewrite H1, H2. reflexivity.
    + inversion Hpost as [|? ? Hp1 Hrest]; subst.
      rewrite H1, H2, (isSpace3_space_third c1 c2 p1 Hp1). reflexivity.
Qed.

Lemma trimRightSpaceRev_padded (pad r : gostring) :
  Forall (fun c => isASCIISpace c = true) pad ->
  trimRightSpaceRev (pad ++ r) = trimRightSpaceRev r.
Proof.
  induction 1 as [|c pad Hc _ IH]; [reflexivity|].
  cbn [app trimRightSpaceRev]. rewrite Hc. exact IH.
Qed.

Lemma TrimLeftSpace_spaces (pad : gostring) :
  Forall (fun c => isASCIISpace c = true) pad -> TrimLeftSpace pad = [].
Proof.
  induction 1 as [|c pad Hc _ IH]; [reflexivity|].
  cbn [TrimLeftSpace]. rewrite Hc. exact IH.
Qed.

Lemma TrimSpace_spaces (pad : gostring) :
  Forall (fun c => isASCIISpace c = true) pad -> TrimSpace pad = [].
Proof.
  intros Hpad. unfold TrimSpace. rewrite TrimLeftSpace_spaces by assumption.
  reflexivity.
Qed.

Lemma TrimSpace_padded (s post : gostring) :
  s <> [] -> trimmed s ->
  Forall (fun c => isASCIISpace c = true) post ->
  TrimSpace (s ++ post) = s.
Proof.
  intros Hne (Hstart & Hend) Hpost. unfold TrimSpace, TrimRightSpace.
  rewrite TrimLeftSpace_fixed by (apply startsWithSpace_padded; assumption).
  rewrite rev_app_distr.
  rewrite trimRightSpaceRev_padded by (apply Forall_rev; assumption).
  rewrite trimRightSpaceRev_fixed by assumption.
  apply rev_involutive.
Qed.

(** *** The loops that drop the empty strings *)

Lemma keepLine_filter (lines acc : list gostring) :
  fold_left keepLine lines acc
  = acc ++ filter (fun line => negb (eqs line [])) lines.
Proof.
  revert acc. induction lines as [|l lines IH]; intros acc;
    cbn [fold_left filter].
  - symmetry. apply app_nil_r.
  - rewrite IH. unfold keepLine. destruct (negb (eqs l [])).
    + rewrite <- app_assoc. reflexivity.
    + reflexivity.
Qed.

Lemma keepTopic_filter (parts acc : list gostring) :
  fold_left keepTopic parts acc
  = acc ++ filter (fun t => negb (eqs t [])) (map TrimSpace parts).
Proof.
  revert acc. induction parts as [|p parts IH]; intros acc;
    cbn [fold_left filter map].
  - symmetry. apply app_nil_r.
  - rewrite IH. unfold keepTopic. destruct (negb (eqs (TrimSpace p) [])).
    + rewrite <- app_assoc. reflexivity.
    + reflexivity.
Qed.

Lemma nonempty_kept (lines : list gostring) :
  Forall (fun l => l <> []) lines ->
  filter (fun line => negb (eqs line [])) lines = lines.
Proof.
  induction 1 as [|l lines Hl _ IH]; cbn [filter]; [reflexivity|].
  destruct l; [congruence|]. cbn [eqs negb]. f_equal. exact IH.
Qed.

Lemma kept_nonempty (l : gostring) :
  negb (eqs l []) = true -> l <> [].
Proof. intros Hl ->. discriminate Hl. Qed.


(** *** [GetCommitsBetweenDates] *)

Lemma joinWith_nonempty (sep : ascii) (line : gostring)
  (lines : list gostring) :
  line <> [] -> joinWith sep (line :: lines) <> [].
Proof.
  intros Hne. destruct lines as [|l ls]; [exact Hne|].
  rewrite joinWith_cons by discriminate.
  destruct line; [congruence | discriminate].
Qed.

Lemma len_zero (s : gostring) : (len s =? 0) = true <-> s = [].
Proof.
  unfold len. destruct s; cbn; split; intros H; try reflexivity;
    try discriminate; lia.
Qed.

(** The log of lines without white space at its ends is listed line by
    line, also when ASCII white space follows the last line. *)
Lemma listing_of_lines (localPath : gostring) (lines : list gostring)
  (post : gostring) :
  localPath <> [] ->
  Forall (fun l => l <> [] /\ ~ In newline l) lines ->
  trimmed (joinWith newline lines) ->
  Forall (fun c => isASCIISpace c = true) post ->
  GetCommitsBetweenDates localPath
    (LogOutput (joinWith newline lines ++ post))
  = (lines, None).
Proof.
  intros Hpath Hlines Htrim Hpost. unfold GetCommitsBetweenDates.
  rewrite (proj2 (StringsFacts.eqs_false localPath []) Hpath).
  destruct lines as [|line lines].
  - cbn [joinWith app]. destruct (len post =? 0); [reflexivity|].
    rewrite TrimSpace_spaces by assumption. reflexivity.
  - assert (Hne : joinWith newline (line :: lines) <> []).
    { apply joinWith_nonempty.
      inversion Hlines as [|? ? (Hne & _) _]. exact Hne. }
    destruct (len (joinWith newline (line :: lines) ++ post) =? 0) eqn:Hlen.
    + apply len_zero in Hlen. apply app_eq_nil in Hlen.
      destruct Hlen as (Hnil & _). congruence.
    + rewrite TrimSpace_padded by assumption.
      rewrite Split_joinWith.
      * rewrite keepLine_filter. cbn [app].
        rewrite nonempty_kept; [reflexivity|].
        eapply Forall_impl; [|exact Hlines]. intros l (Hl & _). exact Hl.
      * eapply Forall_impl; [|exact Hlines]. intros l (_ & Hno). exact Hno.
Qed.

Lemma upTo_app (sep : ascii) (field rest : gostring) :
  ~ In sep field -> upTo sep (field ++ sep :: rest) = field.
Proof.
  induction field as [|c field IH]; intros Hno; cbn [app upTo].
  - rewrite Ascii.eqb_refl. reflexivity.
  - destruct (Ascii.eqb_spec c sep) as [->|Hne].
    + exfalso. apply Hno. left. reflexivity.
    + f_equal. apply IH. intros Hin. apply Hno. right. assumption.
Qed.

Lemma logLine_separators (e : logEntry) : (3 <= separators (logLine e))%nat.
Proof.
  unfold separators, logLine. cbn [str list_ascii_of_string app].
  rewrite !count_occ_app. cbn [count_occ].
  destruct (ascii_dec "|" "|") as [_|Hne]; [|congruence].
  rewrite !count_occ_app. cbn [count_occ].
  destruct (ascii_dec "|" "|") as [_|Hne]; [|congruence].
  rewrite !count_occ_app. cbn [count_occ].
  destruct (ascii_dec "|" "|") as [_|Hne]; [|congruence].
  lia.
Qed.

Lemma logLine_hash (e : logEntry) :
  ~ In "|"%char (hash e) -> hashField (logLine e) = hash e.
Proof.
  intros Hno. unfold hashField, logLine. cbn [str list_ascii_of_string app].
  apply upTo_app. assumption.
Qed.

Lemma listed_analysed (e : logEntry) :
  listedEntry e -> analysed (logLine e).
Proof.
  intros (Hlen & Hno & _) reply.
  pose proof (logLine_separators e) as Hsep.
  pose proof (logLine_hash e Hno) as Hhash.
  destruct (RecordFacts.AnalyzeSingleCommit_cases (logLine e) reply)
    as [(Hfew & _)|[(_ & Hshort & _)|(_ & _ & a & err & Hr & Herr & _)]].
  - lia.
  - rewrite Hhash in Hshort. lia.
  - exists a, err. split; assumption.
Qed.

Lemma logLine_nonempty (e : logEntry) : logLine e <> [].
Proof.
  unfold logLine. cbn [str list_ascii_of_string app].
  destruct (hash e); discriminate.
Qed.

End LogFacts.

Import Git Main LogNotions.

(** X16.  Every commit [GetCommitsBetweenDates] returns is a line of what
    [git log] wrote: it is not empty, holds no newline and is a
    contiguous part of the output; and there is at most one commit more
    than the output has newlines. *)
Theorem listed_commits_are_lines_of_the_log
  (localPath output : gostring) :
  Forall (fun commit =>
            commit <> [] /\ ~ In newline commit /\ infixOf commit output)
    (fst (GetCommitsBetweenDates localPath (LogOutput output)))
  /\ (List.length (fst (GetCommitsBetweenDates localPath (LogOutput output)))
      <= S (count_occ ascii_dec output newline))%nat.
Proof.
  unfold GetCommitsBetweenDates.
  destruct (eqs localPath []); [split; [constructor | cbn; lia]|].
  destruct (len output =? 0); [split; [constructor | cbn; lia]|].
  cbn [fst]. rewrite LogFacts.keepLine_filter. cbn [app]. split.
  - apply Forall_forall. intros commit Hin.
    apply filter_In in Hin. destruct Hin as (Hin & Hne).
    pose proof (LogFacts.Split_parts (TrimSpace output) newline) as Hparts.
    rewrite Forall_forall in Hparts.
    destruct (Hparts commit Hin) as (Hno & Hinfix).
    repeat split.
    + apply LogFacts.kept_nonempty. assumption.
    + assumption.
    + eapply RecordFacts.infixOf_trans; [exact Hinfix|].
      apply RecordFacts.infixOf_TrimSpace.
  - eapply Nat.le_trans; [apply filter_length_le|].
    unfold Split. rewrite RecordFacts.splitByte_length.
    destruct (TrimFacts.TrimSpace_infix output) as (a & b & Hout).
    rewrite Hout at 2. rewrite !count_occ_app. lia.
Qed.

(** X17.  Round trip of a log: when [git log] writes the lines [lines],
    none empty and none with a newline, one per line and without white
    space before the first or after the last, [GetCommitsBetweenDates]
    returns exactly these lines, in their order, and no error; ASCII
    white space after the last line, such as a final newline, changes
    nothing. *)
Theorem log_lines_are_listed_unchanged
  (localPath : gostring) (lines : list gostring) (post : gostring) :
  localPath <> [] ->
  Forall (fun l => l <> [] /\ ~ In newline l) lines ->
  trimmed (joinWith newline lines) ->
  Forall (fun c => isASCIISpace c = true) post ->
  GetCommitsBetweenDates localPath
    (LogOutput (joinWith newline lines ++ post))
  = (lines, None).
Proof.
  intros Hpath Hlines Htrim Hpost.
  apply LogFacts.listing_of_lines; assumption.
Qed.

(** X18.  The commits of a log reach the oracle.  Let the repository be
    cloned and let [git log] write, in the format of
    [GetCommitsBetweenDates], one line per commit for commits whose
    hashes have at least eight bytes and no [|] and whose lines hold no
    newline; let what it writes neither begin nor end with white space,
    apart from ASCII white space that may follow the last line.  Then
    the records the function returns are the lines of these commits, and
    [AnalyzeSingleCommit] neither panics on one of them nor rejects it as
    "invalid commit format".  (White space at the ends is cut off by
    [strings.TrimSpace] and would change the first or the last
    record.) *)
Theorem commits_of_a_log_are_analysed
  (localPath : gostring) (entries : list logEntry) (post : gostring) :
  localPath <> [] ->
  Forall listedEntry entries ->
  trimmed (logText entries) ->
  Forall (fun c => isASCIISpace c = true) post ->
  GetCommitsBetweenDates localPath (LogOutput (logText entries ++ post))
  = (map logLine entries, None)
  /\ Forall analysed (map logLine entries).
Proof.
  intros Hpath Hentries Htrim Hpost. split.
  - apply LogFacts.listing_of_lines; try assumption.
    apply Forall_map. eapply Forall_impl; [|exact Hentries].
    intros e (_ & _ & Hno). split; [apply LogFacts.logLine_nonempty | exact Hno].
  - apply Forall_map. eapply Forall_impl; [|exact Hentries].
    intros e. apply LogFacts.listed_analysed.
Qed.

Lemma log_lines_are_listed_unchanged_witness :
  GetCommitsBetweenDates (str "/tmp/docs-repo")
    (LogOutput
       (joinWith newline
          [str "1a2b3c4d5e6f|Ann|2024-01-02 10:00:00 +0000|fix login";
           str "5e6f7a8b9c0d|Bob|2024-01-01 09:30:00 +0000|add cache"]
        ++ [newline]))
  = ([str "1a2b3c4d5e6f|Ann|2024-01-02 10:00:00 +0000|fix login";
      str "5e6f7a8b9c0d|Bob|2024-01-01 09:30:00 +0000|add cache"], None).
Proof.
  apply log_lines_are_listed_unchanged.
  - discriminate.
  - repeat constructor; try discriminate;
      (intros Hin; cbn in Hin; repeat (destruct Hin as [Hin|Hin];
                                       [discriminate Hin|]); exact Hin).
  - split; reflexivity.
  - repeat constructor.
Defined.

Lemma commits_of_a_log_are_analysed_witness :
  GetCommitsBetweenDates (str "/tmp/docs-repo")
    (LogOutput
       (logText
          [{| hash := str "1a2b3c4d5e6f"; authorName := str "Ann";
              authorDate := str "2024-01-02 10:00:00 +0000";
              subject := str "fix login" |};
           {| hash := str "5e6f7a8b9c0d"; authorName := str "Bob";
              authorDate := str "2024-01-01 09:30:00 +0000";
              subject := str "add cache" |}]
        ++ [newline]))
  = (map logLine
       [{| hash := str "1a2b3c4d5e6f"; authorName := str "Ann";
           authorDate := str "2024-01-02 10:00:00 +0000";
           subject := str "fix login" |};
        {| hash := str "5e6f7a8b9c0d"; authorName := str "Bob";
           authorDate := str "2024-01-01 09:30:00 +0000";
           subject := str "add cache" |}], None)
  /\ Forall analysed
       (map logLine
          [{| hash := str "1a2b3c4d5e6f"; authorName := str "Ann";
              authorDate := str "2024-01-02 10:00:00 +0000";
              subject := str "fix login" |};
           {| hash := str "5e6f7a8b9c0d"; authorName := str "Bob";
              authorDate := str "2024-01-01 09:30:00 +0000";
              subject := str "add cache" |}]).
Proof.
  apply commits_of_a_log_are_analysed.
  - discriminate.
  - repeat constructor; try (cbn; lia);
      (intros Hin; cbn in Hin; repeat (destruct Hin as [Hin|Hin];
                                       [discriminate Hin|]); exact Hin).
  - split; reflexivity.
  - repeat constructor.
Defined.

(** ** [parseTopics] and [runDebugMode] *)

Module MainFacts.

Import Strings Agent Spec Notions Git Main LogNotions.

Lemma selectBest_highest (analyses : list CommitAnalysis) :
  analyses <> [] ->
  exists best,
    selectBest analyses = Some best
    /\ ((IsLikely best = true /\ highest IsLikely analyses best)
        \/ ((forall a, In a analyses -> IsLikely a = false)
            /\ highest (fun _ => true) analyses best)).
Proof.
  intros Hne. destruct (existsb IsLikely analyses) eqn:Hlikely.
  - apply existsb_exists in Hlikely.
    destruct (Selection.selectBest_likely analyses Hlikely)
      as (best & Hbest & Hfirst).
    exists best. split; [assumption|]. left.
    assert (Hl : IsLikely best = true).
    { destruct Hfirst as (before & after & _ & Hl & _). exact Hl. }
    split; [assumption|]. repeat split.
    + eapply Selection.firstBest_In. exact Hfirst.
    + assumption.
    + intros a Ha La. eapply Selection.firstBest_max; eauto.
  - assert (Hnone : forall a, In a analyses -> IsLikely a = false).
    { intros a Ha. destruct (IsLikely a) eqn:La; [|reflexivity].
      assert (Hex : existsb IsLikely analyses = true)
        by (apply existsb_exists; exists a; split; assumption).
      congruence. }
    destruct (Selection.selectBest_fallback analyses Hne Hnone)
      as (best & Hbest & Hfirst).
    exists best. split; [assumption|]. right. split; [assumption|].
    repeat split.
    + eapply Selection.firstBest_In. exact Hfirst.
    + intros a Ha _.
      eapply (Selection.firstBest_max anyVerdict); eauto. exact I.
Qed.

(** The call never returns neither a verdict nor an error. *)
Lemma outcome_not_empty (totalCommits : nat) (events : list selectCase) :
  AnalyzeBugInCommits totalCommits events <> Some (None, None).
Proof.
  unfold AnalyzeBugInCommits.
  destruct (drain totalCommits 0 events []) as [analyses|err analyses|analyses];
    try discriminate.
  unfold conclude. destruct analyses as [|a l]; [discriminate|].
  destruct (selectBest_highest (a :: l)) as (best & Hbest & _);
    [discriminate|].
  cbn [List.length Z.of_nat Z.eqb]. rewrite Hbest. discriminate.
Qed.

Lemma all_results_conclude (results : list CommitAnalysisResult)
  (later : list selectCase) :
  AnalyzeBugInCommits (List.length results) (map Received results ++ later)
  = Some (conclude (flat_map verdictOf results)).
Proof.
  unfold AnalyzeBugInCommits.
  rewrite Drain.drain_received by reflexivity.
  rewrite DrainFacts.collect_all. reflexivity.
Qed.

End MainFacts.

(** X19.  Every topic [parseTopics] returns is a contiguous part of its
    argument that is not empty, has no comma and has no white space at
    either end; and there is at most one topic more than the argument
    has commas. *)
Theorem topics_are_trimmed_parts (topicsStr : gostring) :
  Forall (fun topic =>
            topic <> [] /\ trimmed topic /\ ~ In ","%char topic
            /\ infixOf topic topicsStr)
    (parseTopics topicsStr)
  /\ (List.length (parseTopics topicsStr)
      <= S (count_occ ascii_dec topicsStr ","%char))%nat.
Proof.
  unfold parseTopics. rewrite LogFacts.keepTopic_filter. cbn [app]. split.
  - apply Forall_forall. intros topic Hin.
    apply filter_In in Hin. destruct Hin as (Hin & Hne).
    apply in_map_iff in Hin. destruct Hin as (part & <- & Hpart).
    pose proof (LogFacts.Split_parts topicsStr ","%char) as Hparts.
    rewrite Forall_forall in Hparts.
    destruct (Hparts part Hpart) as (Hno & Hinfix).
    repeat split.
    + apply LogFacts.kept_nonempty. assumption.
    + apply LogFacts.TrimSpace_trimmed.
    + apply LogFacts.TrimSpace_trimmed.
    + intros Hc. apply Hno. apply TrimFacts.TrimSpace_In. assumption.
    + eapply RecordFacts.infixOf_trans; [|exact Hinfix].
      apply RecordFacts.infixOf_TrimSpace.
  - eapply Nat.le_trans; [apply filter_length_le|].
    rewrite length_map. unfold Split.
    rewrite RecordFacts.splitByte_length. lia.
Qed.

(** X20.  [parseTopics] reads a list written with commas back: of parts
    without commas, joined by commas, it returns the parts without the
    white space around them, in their order, and leaves out those that
    are nothing but white space. *)
Theorem topics_of_a_comma_separated_list (parts : list gostring) :
  Forall (fun part => ~ In ","%char part) parts ->
  parseTopics (joinWith "," parts)
  = filter (fun topic => negb (eqs topic [])) (map TrimSpace parts).
Proof.
  intros Hparts. unfold parseTopics. rewrite LogFacts.keepTopic_filter.
  cbn [app]. destruct parts as [|part parts]; [reflexivity|].
  rewrite LogFacts.Split_joinWith by assumption. reflexivity.
Qed.

(** X21.  [runDebugMode] never reads a verdict through a nil pointer:
    whenever [AnalyzeBugInCommits] returns no error it returns a verdict,
    whatever the results and whenever the context is cancelled. *)
Theorem debug_mode_never_reads_a_nil_verdict
  (localPath : gostring) (run : logRun) (agentCreated : bool)
  (events : list selectCase) :
  runDebugMode localPath run agentCreated events <> Some Panic.
Proof.
  unfold runDebugMode.
  destruct (GetCommitsBetweenDates localPath run) as [commits [err|]];
    [discriminate|].
  destruct (Z.of_nat (List.length commits) =? 0); [discriminate|].
  destruct (negb agentCreated); [discriminate|].
  pose proof (MainFacts.outcome_not_empty (List.length commits) events)
    as Hsome.
  destruct (AnalyzeBugInCommits (List.length commits) events)
    as [[[analysis|] [err|]]|]; try discriminate.
  - destruct (negb (IsLikely analysis)); discriminate.
  - congruence.
Qed.

(** X22.  What the debug mode reports once every commit of the range has
    given its result.  It shows a commit as the likely cause exactly when
    some successful result has a likely verdict, and the commit shown
    then has the highest confidence among the likely ones; with verdicts
    but no likely one it reports that it could not identify the commit
    and prints the explanation of a verdict of highest confidence; with
    no verdict at all it fails with "no commits could be analyzed". *)
Theorem debug_mode_reports_the_selected_verdict
  (localPath : gostring) (run : logRun) (commits : list gostring)
  (results : list CommitAnalysisResult) (later : list selectCase) :
  GetCommitsBetweenDates localPath run = (commits, None) ->
  commits <> [] ->
  List.length results = List.length commits ->
  exists r,
    runDebugMode localPath run true (map Received results ++ later)
    = Some (Done r)
    /\ match r with
       | Identified best =>
           highest IsLikely (flat_map verdictOf results) best
       | NotIdentified explanation =>
           (forall a, In a (flat_map verdictOf results) -> IsLikely a = false)
           /\ exists best,
                highest (fun _ => true) (flat_map verdictOf results) best
                /\ explanation = Explanation best
       | AnalysisFailed err =>
           err = NoCommitsAnalyzed /\ flat_map verdictOf results = []
       | _ => False
       end.
Proof.
  intros Hget Hne Hlen. unfold runDebugMode. rewrite Hget.
  destruct (Z.eqb_spec (Z.of_nat (List.length commits)) 0) as [Hzero|_].
  - destruct commits; [congruence | discriminate Hzero].
  - cbn [negb]. rewrite <- Hlen, MainFacts.all_results_conclude.
    destruct (flat_map verdictOf results) as [|a l] eqn:Hverdicts.
    + exists (AnalysisFailed NoCommitsAnalyzed). split; [reflexivity|].
      split; reflexivity.
    + rewrite Selection.conclude_nonempty by discriminate.
      destruct (MainFacts.selectBest_highest (a :: l))
        as (best & Hbest & [(Hl & Hhigh)|(Hnone & Hhigh)]);
        [discriminate| |]; rewrite Hbest.
      * rewrite Hl. cbn [negb]. exists (Identified best).
        split; [reflexivity | exact Hhigh].
      * rewrite (Hnone best (proj1 Hhigh)). cbn [negb].
        exists (NotIdentified (Explanation best)).
        split; [reflexivity|]. split; [exact Hnone|].
        exists best. split; [exact Hhigh | reflexivity].
Qed.

Lemma topics_of_a_comma_separated_list_witness :
  parseTopics (str "auth, login flow ,  ,api")
  = [str "auth"; str "login flow"; str "api"].
Proof.
  apply (topics_of_a_comma_separated_list
           [str "auth"; str " login flow "; str "  "; str "api"]).
  repeat constructor;
    (intros Hin; cbn in Hin; repeat (destruct Hin as [Hin|Hin];
                                     [discriminate Hin|]); exact Hin).
Defined.

Lemma debug_mode_reports_the_selected_verdict_witness :
  exists r,
    runDebugMode (str "/tmp/docs-repo")
      (LogOutput (joinWith newline RunExamples.twoCommits)) true
      (map Received [RunExamples.secondResult; RunExamples.firstResult] ++ [])
    = Some (Done r)
    /\ match r with
       | Identified best =>
           highest IsLikely
             (flat_map verdictOf
                [RunExamples.secondResult; RunExamples.firstResult]) best
       | NotIdentified explanation =>
           (forall a,
               In a (flat_map verdictOf
                       [RunExamples.secondResult; RunExamples.firstResult]) ->
               IsLikely a = false)
           /\ exists best,
                highest (fun _ => true)
                  (flat_map verdictOf
                     [RunExamples.secondResult; RunExamples.firstResult]) best
                /\ explanation = Explanation best
       | AnalysisFailed err =>
           err = NoCommitsAnalyzed
           /\ flat_map verdictOf
                [RunExamples.secondResult; RunExamples.firstResult] = []
       | _ => False
       end.
Proof.
  apply (debug_mode_reports_the_selected_verdict
           (str "/tmp/docs-repo")
           (LogOutput (joinWith newline RunExamples.twoCommits))
           RunExamples.twoCommits).
  - reflexivity.
  - discriminate.
  - reflexivity.
Defined.

Example debug_mode_example :
  runDebugMode (str "/tmp/docs-repo")
    (LogOutput (joinWith newline RunExamples.twoCommits)) true
    (map Received [RunExamples.secondResult; RunExamples.firstResult])
  = Some (Done (Identified RunExamples.secondVerdict)).
Proof. reflexivity. Qed.
